(** * MelodiJS: route matcher, reactive signals and keyed list reconciler

    A shallow embedding of the parts of [src/src/router.ts] (with its second
    variant found in [src/unnamed/part_000]) and of [src/src/melodijs.ts]
    that the specification speaks about, and the properties settled on them.

    Conventions.
    - JS strings are [string]; every separator the router looks at is ASCII.
    - A JS object used as a dictionary ([params], [query]) is a
      [gmap string string]; the keys are ordinary names (not [__proto__]).
    - Mutable closure variables ([matched], [params], the signal cells, the
      tracking pointer) are threaded explicitly through the functions. *)

From stdpp Require Import gmap strings list fin_maps.
From Stdlib Require Import Ascii String ZArith Lia.

Open Scope string_scope.
Set Warnings "-register-all,-clear-no-such-hyp".

(* ===================================================================== *)
(** * String primitives of the JS runtime used by the router *)
(* ===================================================================== *)

Module JsString.

(** [s.split(sep)] for a one-character separator: always a non-empty list. *)
Fixpoint split (sep : ascii) (s : string) : list string :=
  match s with
  | EmptyString => [EmptyString]
  | String c s' =>
      if Ascii.eqb c sep then EmptyString :: split sep s'
      else match split sep s' with
           | [] => [String c EmptyString]
           | w :: ws => String c w :: ws
           end
  end.

(** A string is truthy iff it is not empty. *)
Definition truthy (s : string) : bool :=
  match s with EmptyString => false | _ => true end.

(** [parts.join(sep)]. *)
Fixpoint join (sep : string) (parts : list string) : string :=
  match parts with
  | [] => ""
  | [p] => p
  | p :: rest => p ++ sep ++ join sep rest
  end.

(** [s.startsWith(c)] for a single character. *)
Definition startsWith (c : ascii) (s : string) : bool :=
  match s with
  | String d _ => Ascii.eqb d c
  | EmptyString => false
  end.

(** [s.slice(1)]. *)
Definition slice1 (s : string) : string :=
  match s with
  | String _ s' => s'
  | EmptyString => EmptyString
  end.

(** [s.endsWith(c)] for a single character. *)
Fixpoint endsWith (c : ascii) (s : string) : bool :=
  match s with
  | EmptyString => false
  | String d EmptyString => Ascii.eqb d c
  | String _ s' => endsWith c s'
  end.

(** [s.slice(0, -1)]. *)
Fixpoint dropLast (s : string) : string :=
  match s with
  | EmptyString => EmptyString
  | String _ EmptyString => EmptyString
  | String d s' => String d (dropLast s')
  end.

(** [s.replace(/\/+/g, '/')]: every run of slashes becomes one slash. *)
Fixpoint collapseSlashes (s : string) : string :=
  match s with
  | EmptyString => EmptyString
  | String c s' =>
      if Ascii.eqb c "/" then
        match s' with
        | String d _ => if Ascii.eqb d "/" then collapseSlashes s'
                        else String c (collapseSlashes s')
        | EmptyString => String c EmptyString
        end
      else String c (collapseSlashes s')
  end.

(** [arr[i]] with [undefined] as [None]. *)
Definition nth_opt {A} (l : list A) (i : nat) : option A := l !! i.

End JsString.

(* ===================================================================== *)
(** * Plain objects used as maps from names to strings *)
(* ===================================================================== *)

(** The router builds [params] and [query] as object literals and fills them
    by assignment. Such an object is its own properties; its prototype is
    [Object.prototype], whose only accessor property is [__proto__]. *)
Module JsObject.

(** [obj[k] = v] for a string [v]. An own property [k] is created or
    overwritten, except for [k = '__proto__']: that assignment calls the
    setter inherited from [Object.prototype], which ignores a value that is
    neither an object nor [null], so the object is left as it was. *)
Definition setProperty (k v : string) (obj : gmap string string) : gmap string string :=
  if String.eqb k "__proto__" then obj else <[k := v]> obj.

End JsObject.

(* ===================================================================== *)
(** * The route matcher ([MelodiRouter._matchRoute], [_extractParams]) *)
(* ===================================================================== *)

(** A component definition is opaque to the router: it is only stored and
    handed back, so it is represented by its name. *)
Inductive ComponentDef := Comp (name : string).

(** [interface RouteDef { path; component; children? }]. *)
Inductive RouteDef :=
  mkRoute (path : string) (component : ComponentDef)
          (children : option (list RouteDef)).

Definition route_path (r : RouteDef) : string :=
  match r with mkRoute p _ _ => p end.
Definition route_component (r : RouteDef) : ComponentDef :=
  match r with mkRoute _ c _ => c end.
Definition route_children (r : RouteDef) : option (list RouteDef) :=
  match r with mkRoute _ _ ch => ch end.

(** The two closure variables of [_matchRoute]. *)
Record MatchState := mkMatchState {
  matched : list RouteDef;
  params : gmap string string
}.

Module RouterCore.
Import JsString JsObject.

(** [s.split('/').filter(p => p)]. *)
Definition segments (s : string) : list string :=
  filter (fun p => truthy p = true) (split "/" s).

(** The loop of [_extractParams] over the pattern parts, [i] being the loop
    index and [acc] the [params] object under construction. *)
Fixpoint extractLoop (patternParts pathParts : list string) (i : nat)
    (acc : gmap string string) : option (gmap string string) :=
  match patternParts with
  | [] => Some acc
  | patternPart :: rest =>
      let pathPart := nth_opt pathParts i in
      if startsWith ":" patternPart then
        match pathPart with
        | None => None
        | Some v => extractLoop rest pathParts (S i) (setProperty (slice1 patternPart) v acc)
        end
      else
        match pathPart with
        | Some v => if String.eqb patternPart v
                    then extractLoop rest pathParts (S i) acc
                    else None
        | None => None
        end
  end.

(** [patternParts.map((p, i) => p.startsWith(':') ? pathParts[i] : p)], an
    [undefined] entry being joined as the empty string. *)
Fixpoint fillPattern (patternParts pathParts : list string) (i : nat) : list string :=
  match patternParts with
  | [] => []
  | p :: rest =>
      (if startsWith ":" p then default "" (nth_opt pathParts i) else p)
        :: fillPattern rest pathParts (S i)
  end.

(** [_extractParams(pattern, path, partial)]. *)
Definition _extractParams (pattern path : string) (partial : bool)
    : option (gmap string string) :=
  let patternParts := segments pattern in
  let pathParts := segments path in
  if negb partial && negb (List.length patternParts =? List.length pathParts)%nat then None
  else if partial && (List.length pathParts <? List.length patternParts)%nat then None
  else
    match extractLoop patternParts pathParts 0 ∅ with
    | None => None
    | Some ps =>
        if partial && (List.length patternParts <? List.length pathParts)%nat then
          let matchedPathSegment := join "/" (take (List.length patternParts) pathParts) in
          let fullPathSegment := join "/" (fillPattern patternParts pathParts 0) in
          if String.eqb matchedPathSegment fullPathSegment then Some ps else None
        else if negb partial && negb (List.length patternParts =? List.length pathParts)%nat then None
        else Some ps
    end.

(** The absolute pattern of a route below [parentPath]. *)
Definition fullPathOf (parentPath routePath : string) : string :=
  let fullPath := collapseSlashes (parentPath ++ "/" ++ routePath) in
  if negb (String.eqb fullPath "/") && endsWith "/" fullPath
  then dropLast fullPath else fullPath.

(** [matched.push(route); params = { ...params, ...routeParams }]. *)
Definition pushRoute (route : RouteDef) (routeParams : gmap string string)
    (st : MatchState) : MatchState :=
  {| matched := matched st ++ [route];
     params := routeParams ∪ params st |}.

(** [for (const key in routeParams) delete params[key]]. *)
Definition deleteKeys (routeParams ps : gmap string string) : gmap string string :=
  map_fold (fun k _ acc => delete k acc) ps routeParams.

(** [matched.pop(); for (key in routeParams) delete params[key]]. *)
Definition backtrack (routeParams : gmap string string) (st : MatchState)
    : MatchState :=
  {| matched := removelast (matched st);
     params := deleteKeys routeParams (params st) |}.

End RouterCore.

(** ** [findMatch], the recursive closure of [_matchRoute]

    [src/src/router.ts] and [src/unnamed/part_000] hold two versions of
    [findMatch] that differ in one place only: what happens to a route
    without children once [_extractParams] has accepted it.
    - [router.ts]: [if (fullPath === currentPath) return true; else backtrack].
    - [part_000]:  [return true].
    The shared text is [tryRoute], taking that test as [leafTest]. *)

Module FindMatch.
Import JsString RouterCore.

Section WithLeafTest.
Variable leafTest : string -> string -> bool.

Fixpoint tryRoute (route : RouteDef) (currentPath parentPath : string)
    (st : MatchState) {struct route} : bool * MatchState :=
  match route with
  | mkRoute rpath _ rchildren =>
      let fullPath := fullPathOf parentPath rpath in
      match _extractParams fullPath currentPath (bool_decide (is_Some rchildren)) with
      | None => (false, st)
      | Some routeParams =>
          let st1 := pushRoute route routeParams st in
          match rchildren with
          | Some kids =>
              let fix loop (rs : list RouteDef) (s : MatchState) {struct rs}
                  : bool * MatchState :=
                match rs with
                | [] => (false, s)
                | r :: rs' =>
                    let '(ok, s') := tryRoute r currentPath fullPath s in
                    if ok then (true, s') else loop rs' s'
                end in
              let '(ok, st2) := loop kids st1 in
              if ok then (true, st2)
              else (* [!route.children] is false here *)
                (false, backtrack routeParams st2)
          | None =>
              if leafTest fullPath currentPath then (true, st1)
              else (false, backtrack routeParams st1)
          end
      end
  end.

(** [for (const route of routes) { ... }] with [return true] on the first
    success and [return false] after the last route. *)
Fixpoint findMatch (routes : list RouteDef) (currentPath parentPath : string)
    (st : MatchState) : bool * MatchState :=
  match routes with
  | [] => (false, st)
  | r :: rs =>
      let '(ok, st') := tryRoute r currentPath parentPath st in
      if ok then (true, st') else findMatch rs currentPath parentPath st'
  end.

(** [_matchRoute(path)]: the closure state after [findMatch(this.routes, path)]. *)
Definition _matchRoute (routes : list RouteDef) (path : string) : MatchState :=
  snd (findMatch routes path "" {| matched := []; params := ∅ |}).

End WithLeafTest.
End FindMatch.

(** The matcher of [src/src/router.ts]. *)
Module RouterTs.
Definition leafTest (fullPath currentPath : string) : bool :=
  String.eqb fullPath currentPath.
Definition findMatch := FindMatch.findMatch leafTest.
Definition _matchRoute := FindMatch._matchRoute leafTest.
End RouterTs.

(** The matcher of [src/unnamed/part_000]. *)
Module RouterAlt.
Definition leafTest (fullPath currentPath : string) : bool := true.
Definition findMatch := FindMatch.findMatch leafTest.
Definition _matchRoute := FindMatch._matchRoute leafTest.
End RouterAlt.

(** The tables of the specification's examples. *)
Module Examples.
Definition Home := Comp "Home".
Definition User := Comp "User".
Definition Admin := Comp "Admin".
Definition AdminUsers := Comp "AdminUsers".
Definition homeRoute := mkRoute "/" Home None.
Definition userRoute := mkRoute "/user/:id" User None.
Definition usersRoute := mkRoute "users" AdminUsers None.
Definition adminRoute := mkRoute "/admin" Admin (Some [usersRoute]).
Definition userTable := [homeRoute; userRoute].
Definition adminTable := [adminRoute].
End Examples.


(* ===================================================================== *)
(** * Location handling and navigation ([_getCurrentPath],
      [_getCurrentQuery], [push], [_handleRouteChange]) *)
(* ===================================================================== *)

(** The browser side of the router, which is not repository code: the
    fragment of the current location and the [hashchange] events it queues.
    - [location_hash] is what [window.location.hash] reads: the empty string,
      or ["#"] followed by the fragment.
    - Assigning [window.location.hash = p] drops one leading ["#"] of [p],
      passes the rest through the fragment state of the URL parser, which
      drops tabs and newlines and writes as percent escapes the characters
      a fragment does not hold as they are ([encodeFragment] below), stores
      the result as the fragment, and queues a [hashchange] event if the
      value read back differs from the one before.
    - [scrolls] counts the calls of [window.scrollTo(0, 0)].
    Strings stand for their UTF-8 bytes; every operation the router applies
    to them cuts at ASCII characters only. *)
Record Browser := mkBrowser {
  location_hash : string;
  pending_hashchange : nat;
  scrolls : nat
}.

(** The four signals of the router after [install], by their current
    values. The effects subscribed to them (the router-view controllers) are
    outside this model. *)
Record RouterSignals := mkRouterSignals {
  currentRoute : string;
  matchedSig : list RouteDef;
  paramsSig : gmap string string;
  querySig : gmap string string
}.

(** What a before-navigation hook does with its [next] argument during one
    invocation: the arguments of its synchronous calls, in order.
    [None] is [next()], [Some p] is [next(p)]. *)
Definition Hook := string -> string -> list (option string).

(** How a call ends: normally, or by an exception raised by
    [decodeURIComponent], with the state reached at that point. *)
Inductive Outcome (A : Type) :=
  | Returned (a : A)
  | Threw (a : A).
Arguments Returned {A} a.
Arguments Threw {A} a.

Module Navigation.
Import JsString JsObject RouterCore.

(** An upper-case hexadecimal digit. *)
Definition hexDigit (n : nat) : ascii :=
  nth n (list_ascii_of_string "0123456789ABCDEF") "0"%char.

(** [%XX] for one byte. *)
Definition percentEscape (c : ascii) : string :=
  String "%" (String (hexDigit (nat_of_ascii c / 16))
                (String (hexDigit (nat_of_ascii c mod 16)) EmptyString)).

(** Tab, line feed and carriage return, which the URL parser removes from
    its input. *)
Definition tabOrNewline (c : ascii) : bool :=
  let n := nat_of_ascii c in (n =? 9)%nat || (n =? 10)%nat || (n =? 13)%nat.

(** The fragment percent-encode set: the C0 controls, every byte above
    [~], the space, the double quote, [<], [>] and the backquote. *)
Definition inFragmentEncodeSet (c : ascii) : bool :=
  let n := nat_of_ascii c in
  (n <=? 31)%nat || (126 <? n)%nat || (n =? 32)%nat || (n =? 34)%nat
  || (n =? 60)%nat || (n =? 62)%nat || (n =? 96)%nat.

(** The fragment state of the URL parser on the assigned text. *)
Fixpoint encodeFragment (s : string) : string :=
  match s with
  | EmptyString => EmptyString
  | String c s' =>
      if tabOrNewline c then encodeFragment s'
      else if inFragmentEncodeSet c then percentEscape c ++ encodeFragment s'
      else String c (encodeFragment s')
  end.

(** [window.location.hash = p]. *)
Definition setHash (p : string) (b : Browser) : Browser :=
  let fragment := encodeFragment (if startsWith "#" p then slice1 p else p) in
  let h := if truthy fragment then "#" ++ fragment else "" in
  {| location_hash := h;
     pending_hashchange :=
       if String.eqb h (location_hash b) then pending_hashchange b
       else S (pending_hashchange b);
     scrolls := scrolls b |}.

(** [hash.slice(1).split('?')[0] || '/']. *)
Definition _getCurrentPath (b : Browser) : string :=
  let hash := slice1 (location_hash b) in
  match nth_opt (split "?" hash) 0 with
  | Some p => if truthy p then p else "/"
  | None => "/"
  end.

Section WithDecoder.
(** [decodeURIComponent] of the JS runtime; [None] stands for the
    [URIError] it raises on a malformed escape sequence. *)
Variable decodeURIComponent : string -> option string.

(** The body of [queryPart.split('&').forEach(pair => ...)] for one pair
    (called [item] here). *)
Definition addPair (query : gmap string string) (item : string)
    : option (gmap string string) :=
  let kv := split "=" item in
  let key := default "" (nth_opt kv 0) in
  let value := nth_opt kv 1 in
  if truthy key then
    match decodeURIComponent key with
    | None => None
    | Some k =>
        match decodeURIComponent (default "" value) with
        | None => None
        | Some v => Some (setProperty k v query)
        end
    end
  else Some query.

Fixpoint addPairs (query : gmap string string) (pairs : list string)
    : option (gmap string string) :=
  match pairs with
  | [] => Some query
  | item :: rest =>
      match addPair query item with
      | None => None
      | Some query' => addPairs query' rest
      end
  end.

(** [_getCurrentQuery()]; [None] when [decodeURIComponent] raises. *)
Definition _getCurrentQuery (b : Browser) : option (gmap string string) :=
  let hash := slice1 (location_hash b) in
  match nth_opt (split "?" hash) 1 with
  | None => Some ∅
  | Some queryPart =>
      if truthy queryPart then addPairs ∅ (split "&" queryPart) else Some ∅
  end.

Variable _matchRoute : list RouteDef -> string -> MatchState.
Variable routes : list RouteDef.

(** [push(path)]. *)
Definition push (path : string) (b : Browser) : Browser := setHash path b.

(** The closure [next] of [_handleRouteChange], [newPath] being captured. *)
Definition next (newPath : string) (redirectPath : option string)
    (st : RouterSignals * Browser) : Outcome (RouterSignals * Browser) :=
  let '(r, b) := st in
  if truthy (default "" redirectPath) then Returned (r, push (default "" redirectPath) b)
  else
    let m := _matchRoute routes newPath in
    let r3 := {| currentRoute := newPath;
                 matchedSig := matched m;
                 paramsSig := params m;
                 querySig := querySig r |} in
    match _getCurrentQuery b with
    | None => Threw (r3, b)
    | Some q =>
        Returned ({| currentRoute := newPath;
                     matchedSig := matched m;
                     paramsSig := params m;
                     querySig := q |},
                  {| location_hash := location_hash b;
                     pending_hashchange := pending_hashchange b;
                     scrolls := S (scrolls b) |})
    end.

(** The calls of [next] made by the hook, one after the other; an exception
    ends the hook. *)
Fixpoint runCalls (newPath : string) (calls : list (option string))
    (st : RouterSignals * Browser) : Outcome (RouterSignals * Browser) :=
  match calls with
  | [] => Returned st
  | c :: rest =>
      match next newPath c st with
      | Returned st' => runCalls newPath rest st'
      | Threw st' => Threw st'
      end
  end.

(** [_handleRouteChange()]. *)
Definition _handleRouteChange (beforeEachHook : option Hook)
    (st : RouterSignals * Browser) : Outcome (RouterSignals * Browser) :=
  let '(r, b) := st in
  let newPath := _getCurrentPath b in
  let oldPath := currentRoute r in
  match beforeEachHook with
  | Some hook => runCalls newPath (hook newPath oldPath) st
  | None => next newPath None st
  end.

(** One turn of the event loop: the listener installed by [install] on
    [hashchange] calls [_handleRouteChange]. Without a queued event nothing
    happens. *)
Definition dispatchHashchange (beforeEachHook : option Hook)
    (st : RouterSignals * Browser) : Outcome (RouterSignals * Browser) :=
  let '(r, b) := st in
  match pending_hashchange b with
  | 0 => Returned st
  | S n =>
      _handleRouteChange beforeEachHook
        (r, {| location_hash := location_hash b;
               pending_hashchange := n;
               scrolls := scrolls b |})
  end.

End WithDecoder.
End Navigation.

(* ===================================================================== *)
(** * Notions used to state the router's properties *)
(* ===================================================================== *)

Module RouterSpec.
Import JsString JsObject RouterCore Navigation Examples.

(** A failed attempt leaves the chain as it found it and adds no
    parameter. *)
Definition restores (st st' : MatchState) : Prop :=
  matched st' = matched st /\ params st' ⊆ params st.

(** The claim's words: a parameter-marker segment accepts any path segment,
    a literal segment only itself. *)
Definition segMatches (patternPart pathPart : string) : Prop :=
  startsWith ":" patternPart = true \/ patternPart = pathPart.

(** The claim's words: each parameter-marker segment binds the path segment
    at its position (a repeated name keeps its last binding). The name
    [__proto__] is the one a plain object does not take as a property by
    assignment: a segment [:__proto__] accepts any path segment and binds
    nothing. *)
Fixpoint bindings (patternParts pathParts : list string)
    (acc : gmap string string) : gmap string string :=
  match patternParts, pathParts with
  | p :: ps, v :: vs =>
      bindings ps vs (if startsWith ":" p then setProperty (slice1 p) v acc else acc)
  | _, _ => acc
  end.

(** Two results of [split('/')] with the same first entry and the same
    non-empty entries after it. *)
Definition sameSegments (a b : list string) : Prop :=
  head a = head b
  /\ filter (fun p => truthy p = true) (tail a) = filter (fun p => truthy p = true) (tail b).

(** The claim's words: the text before the first ['='] of a pair, and the
    text between the first and the second ['='] (empty without ['=']). *)
Definition rawKey (item : string) : string := default "" (nth_opt (split "=" item) 0).
Definition rawValue (item : string) : string := default "" (nth_opt (split "=" item) 1).

Section WithDecoder.
Variable decodeURIComponent : string -> option string.

(** The claim's words: what one pair contributes, nothing for an empty key. *)
Definition contribution (item : string) : option (string * string) :=
  if truthy (rawKey item) then
    match decodeURIComponent (rawKey item), decodeURIComponent (rawValue item) with
    | Some k, Some v => Some (k, v)
    | _, _ => None
    end
  else None.

(** The claim's words: the value of the last pair that contributes to [k]. *)
Fixpoint lastOccurrence (items : list string) (k : string) : option string :=
  match items with
  | [] => None
  | item :: rest =>
      match lastOccurrence rest k with
      | Some v => Some v
      | None =>
          match contribution item with
          | Some (k', v) => if decide (k' = k) then Some v else None
          | None => None
          end
      end
  end.

(** Every pair with a key can be decoded (no [URIError]). *)
Definition decodable (items : list string) : Prop :=
  Forall (fun item => truthy (rawKey item) = true ->
            is_Some (decodeURIComponent (rawKey item))
            /\ is_Some (decodeURIComponent (rawValue item))) items.

(** The claim's words, for every key: the mapping read from a fragment with a
    query part gives each key the value of the last pair that carries it. *)
Definition lastPairWins : Prop :=
  forall (b : Browser) (queryPart : string) (q : gmap string string),
    nth_opt (split "?" (slice1 (location_hash b))) 1 = Some queryPart ->
    truthy queryPart = true ->
    _getCurrentQuery decodeURIComponent b = Some q ->
    forall k, q !! k = lastOccurrence (split "&" queryPart) k.

End WithDecoder.

(** A decoder for the test inputs below, which contain no escape. *)
Definition plainDecoder (s : string) : option string := Some s.

Definition searchBrowser : Browser :=
  {| location_hash := "#/search?q=1&flag&=x&q=2"; pending_hashchange := 0; scrolls := 0 |}.

(** A redirect target that is a bare path: not empty, no leading ['#'], no
    query part, and made of characters the location stores as they are. *)
Definition plainPath (p : string) : Prop :=
  truthy p = true /\ startsWith "#" p = false /\ split "?" p = [p]
  /\ encodeFragment p = p.

Section WithRouter.
Variable _matchRoute : list RouteDef -> string -> MatchState.
Variable routes : list RouteDef.

(** The state committed for [path] with query [q]. *)
Definition committed (path : string) (q : gmap string string) : RouterSignals :=
  {| currentRoute := path;
     matchedSig := matched (_matchRoute routes path);
     paramsSig := params (_matchRoute routes path);
     querySig := q |}.

End WithRouter.

(** The guard of the README: ['/admin'] is redirected to ['/login'] for a
    visitor who is not authenticated; here also one path that is blocked. *)
Definition authGuard : Hook := fun to _ =>
  if String.eqb to "/admin" then [Some "/login"]
  else if String.eqb to "/blocked" then []
  else [None].

Definition guardedTable : list RouteDef :=
  [homeRoute; mkRoute "/login" (Comp "Login") None; adminRoute].

Definition homeSignals : RouterSignals :=
  {| currentRoute := "/"; matchedSig := [homeRoute]; paramsSig := ∅; querySig := ∅ |}.

Definition browserAt (h : string) : Browser :=
  {| location_hash := h; pending_hashchange := 0; scrolls := 0 |}.

End RouterSpec.

(* ===================================================================== *)
(** * Fine-grained reactivity ([class MelodiReactive]) *)
(* ===================================================================== *)

(** JS values as far as [write] looks at them. Numbers are integers or
    [NaN]; an object or a function is its reference. *)
Inductive Val :=
  | VUndefined
  | VNull
  | VBool (b : bool)
  | VNum (n : Z)
  | VNaN
  | VStr (s : string)
  | VObj (ref : nat)
  | VFun (ref : nat).

(** Signals and effect closures are named by their order of creation. *)
Abbreviation SignalId := nat (only parsing).
Abbreviation EffectId := nat (only parsing).

(** The code a client passes to [createEffect] (or runs at top level), as
    the sequence of calls it makes into the reactivity object.
    - [CRead s]: [read_s()].
    - [CWrite s x]: [write_s(x)].
    - [CIfRead s thn els]: [if (read_s()) { thn } else { els }].
    - [CCreateEffect fn]: [createEffect(() => { fn })].
    - [CCreateEffectWithCleanup fn ret]:
      [createEffectWithCleanup(() => { fn; return ret })]. *)
Inductive Cmd :=
  | CRead (s : SignalId)
  | CWrite (s : SignalId) (x : Val)
  | CIfRead (s : SignalId) (thn els : list Cmd)
  | CCreateEffect (fn : list Cmd)
  | CCreateEffectWithCleanup (fn : list Cmd) (ret : option (list Cmd)).

(** The closure variables of one [createSignal] call: [v] and [subscribers]
    (a [Set], kept in insertion order). *)
Record SignalCell := mkSignalCell {
  value : Val;
  subscribers : list EffectId
}.

(** The closure of one [createEffect] ([effect]) or
    [createEffectWithCleanup] ([execute]) call: the client function, and for
    the second kind what the function returns and the variable [cleanup]. *)
Record EffectClosure := mkEffectClosure {
  fn_body : list Cmd;
  has_cleanup_slot : bool;
  fn_returns : option (list Cmd);
  cleanup_var : option (list Cmd)
}.

(** What the instrumented runtime records: each start of an effect closure,
    and each signal read together with the tracking context it saw. *)
Inductive Event :=
  | Ran (e : EffectId)
  | ReadSignal (s : SignalId) (ctx : option EffectId).

(** One [MelodiReactive] object with everything created through it. *)
Record MelodiReactive := mkReactive {
  _currentEffect : option EffectId;
  signals : list SignalCell;
  effects : list EffectClosure;
  log : list Event
}.

(** The dispose closure returned by [createEffect]; its body holds comments
    only. The one returned by [createEffectWithCleanup] calls the current
    [cleanup]. *)
Inductive CleanupFn :=
  | DisposePlaceholder (e : EffectId)
  | DisposeCleanup (e : EffectId).

Module Reactive.

Definition typeofObject (x : Val) : bool :=
  match x with VNull | VObj _ => true | _ => false end.

Definition typeofFunction (x : Val) : bool :=
  match x with VFun _ => true | _ => false end.

(** [a === b]. *)
Definition strictEq (a b : Val) : bool :=
  match a, b with
  | VUndefined, VUndefined => true
  | VNull, VNull => true
  | VBool x, VBool y => Bool.eqb x y
  | VNum x, VNum y => Z.eqb x y
  | VStr x, VStr y => String.eqb x y
  | VObj x, VObj y => Nat.eqb x y
  | VFun x, VFun y => Nat.eqb x y
  | _, _ => false
  end.

(** [next === null || (typeof next !== 'object' && typeof next !== 'function')]. *)
Definition isPrimitive (next : Val) : bool :=
  strictEq next VNull || (negb (typeofObject next) && negb (typeofFunction next)).

(** Truthiness of a value in a condition. *)
Definition truthyVal (x : Val) : bool :=
  match x with
  | VUndefined | VNull | VNaN => false
  | VBool b => b
  | VNum n => negb (Z.eqb n 0)
  | VStr s => JsString.truthy s
  | VObj _ | VFun _ => true
  end.

(** [subscribers.add(e)]. *)
Definition setAdd (e : EffectId) (subs : list EffectId) : list EffectId :=
  if bool_decide (e ∈ subs) then subs else subs ++ [e].

Definition setSignals (sigs : list SignalCell) (st : MelodiReactive) : MelodiReactive :=
  {| _currentEffect := _currentEffect st; signals := sigs;
     effects := effects st; log := log st |}.

Definition setCurrent (c : option EffectId) (st : MelodiReactive) : MelodiReactive :=
  {| _currentEffect := c; signals := signals st;
     effects := effects st; log := log st |}.

Definition setEffects (effs : list EffectClosure) (st : MelodiReactive) : MelodiReactive :=
  {| _currentEffect := _currentEffect st; signals := signals st;
     effects := effs; log := log st |}.

Definition record (ev : Event) (st : MelodiReactive) : MelodiReactive :=
  {| _currentEffect := _currentEffect st; signals := signals st;
     effects := effects st; log := log st ++ [ev] |}.

(** [createSignal(value)]: a fresh cell; the pair [[read, write]] is the
    cell's index. *)
Definition createSignal (x : Val) (st : MelodiReactive) : SignalId * MelodiReactive :=
  (List.length (signals st),
   setSignals (signals st ++ [{| value := x; subscribers := [] |}]) st).

(** [read()]:
    [if (self._currentEffect) subscribers.add(self._currentEffect); return v]. *)
Definition read (s : SignalId) (st : MelodiReactive) : Val * MelodiReactive :=
  match signals st !! s with
  | None => (VUndefined, st)
  | Some cell =>
      let st1 := record (ReadSignal s (_currentEffect st)) st in
      match _currentEffect st with
      | Some e =>
          (value cell,
           setSignals (<[s := {| value := value cell;
                                 subscribers := setAdd e (subscribers cell) |}]>
                         (signals st)) st1)
      | None => (value cell, st1)
      end
  end.

(** [v = next]. *)
Definition store (s : SignalId) (next : Val) (st : MelodiReactive) : MelodiReactive :=
  match signals st !! s with
  | None => st
  | Some cell =>
      setSignals (<[s := {| value := next; subscribers := subscribers cell |}]>
                    (signals st)) st
  end.

Section Callbacks.
(** The two re-entrant pieces, tied below: running effect closure [e], and
    [subscribers.forEach(fn => fn())] of signal [s] from position [i] on. *)
Variable runEffect : EffectId -> MelodiReactive -> option MelodiReactive.
Variable notifyFrom : SignalId -> nat -> MelodiReactive -> option MelodiReactive.

(** [write(next)]. *)
Definition writeWith (s : SignalId) (next : Val) (st : MelodiReactive)
    : option MelodiReactive :=
  match signals st !! s with
  | None => Some st
  | Some cell =>
      if isPrimitive next && strictEq (value cell) next then Some st
      else notifyFrom s 0 (store s next st)
  end.

(** [createEffect(fn)]: the closure [effect] is made and called at once. *)
Definition createEffectWith (fn : list Cmd) (st : MelodiReactive)
    : option (CleanupFn * MelodiReactive) :=
  let e := List.length (effects st) in
  let closure := {| fn_body := fn; has_cleanup_slot := false;
                    fn_returns := None; cleanup_var := None |} in
  match runEffect e (setEffects (effects st ++ [closure]) st) with
  | Some st' => Some (DisposePlaceholder e, st')
  | None => None
  end.

(** [createEffectWithCleanup(fn)]. *)
Definition createEffectWithCleanupWith (fn : list Cmd) (ret : option (list Cmd))
    (st : MelodiReactive) : option (CleanupFn * MelodiReactive) :=
  let e := List.length (effects st) in
  let closure := {| fn_body := fn; has_cleanup_slot := true;
                    fn_returns := ret; cleanup_var := None |} in
  match runEffect e (setEffects (effects st ++ [closure]) st) with
  | Some st' => Some (DisposeCleanup e, st')
  | None => None
  end.

End Callbacks.

(** [cleanup = fn()] for closure [e]. *)
Definition setCleanupVar (e : EffectId) (st : MelodiReactive) : MelodiReactive :=
  match effects st !! e with
  | None => st
  | Some c =>
      setEffects (<[e := {| fn_body := fn_body c;
                            has_cleanup_slot := has_cleanup_slot c;
                            fn_returns := fn_returns c;
                            cleanup_var := fn_returns c |}]> (effects st)) st
  end.

(** The interpreter. [fuel] bounds the depth of the calls; [None] means that
    [fuel] did not suffice (a write inside an effect can re-enter the effect
    for ever) or that an effect index is dangling, which no state built
    through the API has. *)
Fixpoint execBody (fuel : nat) (fn : list Cmd) (st : MelodiReactive) {struct fuel}
    : option MelodiReactive :=
  match fuel with
  | 0 => None
  | S fuel' =>
      match fn with
      | [] => Some st
      | CRead s :: rest => execBody fuel' rest (snd (read s st))
      | CWrite s x :: rest =>
          match writeWith (notifyFrom fuel') s x st with
          | Some st1 => execBody fuel' rest st1
          | None => None
          end
      | CIfRead s thn els :: rest =>
          let '(x, st1) := read s st in
          execBody fuel' ((if truthyVal x then thn else els) ++ rest) st1
      | CCreateEffect fn' :: rest =>
          match createEffectWith (effect fuel') fn' st with
          | Some (_, st1) => execBody fuel' rest st1
          | None => None
          end
      | CCreateEffectWithCleanup fn' ret :: rest =>
          match createEffectWithCleanupWith (effect fuel') fn' ret st with
          | Some (_, st1) => execBody fuel' rest st1
          | None => None
          end
      end
  end

(** The closure [effect] of [createEffect]:
      [self._currentEffect = effect; try { fn() } finally { self._currentEffect = null }]
    and the closure [execute] of [createEffectWithCleanup], which calls the
    stored [cleanup] first and stores what [fn] returns. *)
with effect (fuel : nat) (e : EffectId) (st : MelodiReactive) {struct fuel}
    : option MelodiReactive :=
  match fuel with
  | 0 => None
  | S fuel' =>
      match effects st !! e with
      | None => None
      | Some c =>
          let st1 := setCurrent (Some e) (record (Ran e) st) in
          if has_cleanup_slot c then
            match (match cleanup_var c with
                   | Some cl => execBody fuel' cl st1
                   | None => Some st1
                   end) with
            | None => None
            | Some st2 =>
                match execBody fuel' (fn_body c) st2 with
                | None => None
                | Some st3 => Some (setCurrent None (setCleanupVar e st3))
                end
            end
          else
            match execBody fuel' (fn_body c) st1 with
            | None => None
            | Some st2 => Some (setCurrent None st2)
            end
      end
  end

(** [subscribers.forEach(fn => fn())], which also visits the entries added
    while it runs. *)
with notifyFrom (fuel : nat) (s : SignalId) (i : nat) (st : MelodiReactive)
    {struct fuel} : option MelodiReactive :=
  match fuel with
  | 0 => None
  | S fuel' =>
      match signals st !! s with
      | None => Some st
      | Some cell =>
          match subscribers cell !! i with
          | None => Some st
          | Some e =>
              match effect fuel' e st with
              | None => None
              | Some st1 => notifyFrom fuel' s (S i) st1
              end
          end
      end
  end.

Definition write (fuel : nat) := writeWith (notifyFrom fuel).
Definition createEffect (fuel : nat) := createEffectWith (effect fuel).
Definition createEffectWithCleanup (fuel : nat) :=
  createEffectWithCleanupWith (effect fuel).

(** Calling a dispose closure. *)
Definition dispose (fuel : nat) (d : CleanupFn) (st : MelodiReactive)
    : option MelodiReactive :=
  match d with
  | DisposePlaceholder _ => Some st
  | DisposeCleanup e =>
      match effects st !! e with
      | Some c => match cleanup_var c with
                  | Some cl => execBody fuel cl st
                  | None => Some st
                  end
      | None => Some st
      end
  end.

(** A fresh [MelodiReactive]. *)
Definition empty : MelodiReactive :=
  {| _currentEffect := None; signals := []; effects := []; log := [] |}.

Definition subscribersOf (s : SignalId) (st : MelodiReactive) : list EffectId :=
  match signals st !! s with
  | Some cell => subscribers cell
  | None => []
  end.

Definition valueOf (s : SignalId) (st : MelodiReactive) : Val :=
  match signals st !! s with
  | Some cell => value cell
  | None => VUndefined
  end.

End Reactive.

(* ===================================================================== *)
(** * Effect ownership of components ([Component._createEffect],
      [Component.unmount]) *)
(* ===================================================================== *)

(** The fields of a [Component] that [unmount] touches: the registered
    listeners, the dispose closures of its effects, the [unmounted] hook
    (if declared) and the mark on its element. *)
Record Component := mkComponent {
  _listeners : list nat;
  _effects : list CleanupFn;
  hook_unmounted : option (list Cmd);
  el_mounted : bool
}.

Module ComponentModel.

(** [_createEffect(fn)]:
    [const cleanup = this.reactivity.createEffect(fn);
     if (typeof cleanup === 'function') this._effects.push(cleanup)]. *)
Definition _createEffect (fuel : nat) (fn : list Cmd)
    (cs : Component * MelodiReactive) : option (Component * MelodiReactive) :=
  let '(c, st) := cs in
  match Reactive.createEffect fuel fn st with
  | None => None
  | Some (cleanup, st') =>
      Some ({| _listeners := _listeners c;
               _effects := _effects c ++ [cleanup];
               hook_unmounted := hook_unmounted c;
               el_mounted := el_mounted c |}, st')
  end.

(** [this._effects.forEach(fn => { try { fn() } catch (e) { } })]. *)
Fixpoint callAll (fuel : nat) (fns : list CleanupFn) (st : MelodiReactive)
    : option MelodiReactive :=
  match fns with
  | [] => Some st
  | d :: rest =>
      match Reactive.dispose fuel d st with
      | None => None
      | Some st' => callAll fuel rest st'
      end
  end.

(** [unmount()]: the hook, the listeners, the effects, the element mark. *)
Definition unmount (fuel : nat) (cs : Component * MelodiReactive)
    : option (Component * MelodiReactive) :=
  let '(c, st) := cs in
  match (match hook_unmounted c with
         | Some h => Reactive.execBody fuel h st
         | None => Some st
         end) with
  | None => None
  | Some st1 =>
      match callAll fuel (_effects c) st1 with
      | None => None
      | Some st2 =>
          Some ({| _listeners := [];
                   _effects := [];
                   hook_unmounted := hook_unmounted c;
                   el_mounted := false |}, st2)
      end
  end.

(** A component as [mount] leaves it before the template is walked. *)
Definition fresh : Component :=
  {| _listeners := []; _effects := []; hook_unmounted := None; el_mounted := true |}.

End ComponentModel.

(** The scenarios used below. *)
Module Scenarios.
Import Reactive.

(** Two signals: [flag = true] (index 0) and [a = 1] (index 1). *)
Definition twoSignals : MelodiReactive :=
  snd (createSignal (VNum 1) (snd (createSignal (VBool true) empty))).

(** [createEffect(() => { if (flag()) a() })]. *)
Definition conditionalReader : list Cmd := [CIfRead 0 [CRead 1] []].

(** [createEffect(() => { createEffect(() => { a() }); flag() })]: the outer
    effect reads [flag] after the inner effect has been created and run. *)
Definition outerWithInner : list Cmd := [CCreateEffect [CRead 1]; CRead 0].

(** The same with [createEffectWithCleanup] for the inner effect. *)
Definition outerWithInnerCleanup : list Cmd :=
  [CCreateEffectWithCleanup [CRead 1] None; CRead 0].

End Scenarios.

(** Effects that only read, for which every notification terminates. *)
Module ReadOnlyEffects.
Import Reactive.

Fixpoint readOnlyCmd (c : Cmd) : bool :=
  match c with
  | CRead _ => true
  | CIfRead _ thn els => forallb readOnlyCmd thn && forallb readOnlyCmd els
  | _ => false
  end.

Definition readOnly (fn : list Cmd) : bool := forallb readOnlyCmd fn.

Fixpoint cmdSize (c : Cmd) : nat :=
  match c with
  | CIfRead _ thn els => S (list_sum (map cmdSize thn) + list_sum (map cmdSize els))
  | _ => 1
  end.

Definition bodySize (fn : list Cmd) : nat := list_sum (map cmdSize fn).

(** Every effect closure was made by [createEffect] and only reads. *)
Definition quiet (st : MelodiReactive) : Prop :=
  Forall (fun c => has_cleanup_slot c = false /\ readOnly (fn_body c) = true)
         (effects st).

(** Every subscriber is an effect closure of this object. *)
Definition subscribersValid (st : MelodiReactive) : Prop :=
  forall s e, e ∈ subscribersOf s st -> is_Some (effects st !! e).

(** Fuel that suffices for one run of any closure of [st]. *)
Definition runFuel (st : MelodiReactive) : nat :=
  S (S (list_max (map (fun c => bodySize (fn_body c)) (effects st)))).

End ReadOnlyEffects.

(** Relations between a state and a later one, used to state what the
    runtime keeps. *)
Module ReactiveSpec.
Import Reactive ReadOnlyEffects.
#[local] Open Scope list_scope.

(** The events recorded after those of an earlier state. *)
Definition newEvents (st st' : MelodiReactive) : list Event :=
  drop (List.length (log st)) (log st').

(** [st'] comes after [st]: the log is continued, no effect closure and no
    signal is lost, and each subscriber set is continued (nothing is ever
    taken out of it, and the order of insertion is kept). *)
Record extends (st st' : MelodiReactive) : Prop := mkExtends {
  ext_log : log st `prefix_of` log st';
  ext_effects : forall e, is_Some (effects st !! e) -> is_Some (effects st' !! e);
  ext_signals : forall s cell, signals st !! s = Some cell ->
      exists cell', signals st' !! s = Some cell'
                    /\ subscribers cell `prefix_of` subscribers cell'
}.

(** A body that only reads ends, given fuel beyond its size; it touches
    neither the closures, nor the tracking pointer, nor any value, and the
    only subscription it can add is the one of the tracking context. *)
Record readOutcome (st st' : MelodiReactive) : Prop := mkReadOutcome {
  ro_effects : effects st' = effects st;
  ro_current : _currentEffect st' = _currentEffect st;
  ro_values : forall s, valueOf s st' = valueOf s st;
  ro_added : forall s e, e ∈ subscribersOf s st' ->
               e ∈ subscribersOf s st \/ _currentEffect st = Some e;
  ro_kept : forall s e, _currentEffect st = Some e -> e ∈ subscribersOf s st ->
               subscribersOf s st' = subscribersOf s st
}.

(** What one run of a read-only effect [e] changes. *)
Record runOutcome (e : nat) (st st' : MelodiReactive) : Prop := mkRunOutcome {
  run_effects : effects st' = effects st;
  run_current : _currentEffect st' = None;
  run_values : forall s, valueOf s st' = valueOf s st;
  run_added : forall s e', e' ∈ subscribersOf s st' ->
                e' ∈ subscribersOf s st \/ e' = e;
  run_kept : forall s, e ∈ subscribersOf s st ->
                subscribersOf s st' = subscribersOf s st
}.

(** What a whole notification of read-only effects changes. *)
Record notifyOutcome (s : nat) (st st' : MelodiReactive) : Prop := mkNotifyOutcome {
  no_effects : effects st' = effects st;
  no_values : forall s', valueOf s' st' = valueOf s' st;
  no_subscribers : subscribersOf s st' = subscribersOf s st;
  no_valid : subscribersValid st';
  no_current : _currentEffect st' = _currentEffect st \/ _currentEffect st' = None
}.

(** The signals that effect [e] read since it was last started, as the log
    shows them. *)
Fixpoint lastRunReads (e : nat) (l : list Event) (acc : list nat) : list nat :=
  match l with
  | [] => acc
  | Ran e' :: rest => lastRunReads e rest (if decide (e' = e) then [] else acc)
  | ReadSignal s ctx :: rest =>
      lastRunReads e rest (if decide (ctx = Some e) then acc ++ [s] else acc)
  end.

(** The states a client reaches from a fresh object through the API. *)
Inductive built : MelodiReactive -> Prop :=
  | built_empty : built empty
  | built_signal x st : built st -> built (snd (createSignal x st))
  | built_effect fuel fn st d st' :
      built st -> createEffect fuel fn st = Some (d, st') -> built st'
  | built_write fuel s x st st' :
      built st -> write fuel s x st = Some st' -> built st'.

(** The re-tracking claim in the specification's words: a write to a signal
    that the most recent run of an effect did not read does not run the
    effect. *)
Definition retrackingHolds : Prop :=
  forall fuel st e s x st',
    built st -> s ∉ lastRunReads e (log st) [] ->
    write fuel s x st = Some st' -> Ran e ∉ newEvents st st'.

(** The nesting claim in the specification's words: an effect that creates
    an inner effect and then reads a signal is subscribed to that signal. The
    outer effect is the closure numbered [length (effects st)]. *)
Definition outerStillTracks : Prop :=
  forall fuel inner s st d st',
    built st -> is_Some (signals st !! s) ->
    createEffect fuel [CCreateEffect inner; CRead s] st = Some (d, st') ->
    List.length (effects st) ∈ subscribersOf s st'.

End ReactiveSpec.

(** The scenarios, run. *)
Module ScenarioRuns.
Import Reactive Scenarios.

(** [createEffect(conditionalReader)] on the two signals. *)
Definition afterCreate : option MelodiReactive :=
  snd <$> createEffect 10 conditionalReader twoSignals.

(** Then [setFlag(false)]: the effect runs again and reads [flag] only. *)
Definition afterFlagOff : option MelodiReactive :=
  afterCreate ≫= write 10 0 (VBool false).

(** Then [setA(2)]. *)
Definition afterWriteA : option MelodiReactive :=
  afterFlagOff ≫= write 10 1 (VNum 2).

(** [createEffect(outerWithInner)] on the two signals, then [setFlag(false)]. *)
Definition afterOuter : option MelodiReactive :=
  snd <$> createEffect 10 outerWithInner twoSignals.

Definition afterOuterFlagOff : option MelodiReactive :=
  afterOuter ≫= write 10 0 (VBool false).

(** A component whose template has one binding reading [a]
    ([_createEffect(() => { a() })]), then [unmount()], then [setA(2)]. *)
Definition mounted : option (Component * MelodiReactive) :=
  ComponentModel._createEffect 10 [CRead 1] (ComponentModel.fresh, twoSignals).

Definition unmounted : option (Component * MelodiReactive) :=
  mounted ≫= ComponentModel.unmount 10.

Definition unmountedTwice : option (Component * MelodiReactive) :=
  unmounted ≫= ComponentModel.unmount 10.

Definition writeAfterUnmount : option MelodiReactive :=
  unmounted ≫= fun cs => write 10 1 (VNum 2) (snd cs).

End ScenarioRuns.

(** The states of the scenarios as values (a scenario that did not return
    would give the fresh object). *)
Module ScenarioStates.
Import Reactive Scenarios ScenarioRuns.

Definition subscribedState : MelodiReactive := default empty afterCreate.
Definition flagOffState : MelodiReactive := default empty afterFlagOff.
Definition outerState : MelodiReactive := default empty afterOuter.
Definition subscribedCell : SignalCell := {| value := VNum 1; subscribers := [0] |}.

End ScenarioStates.

(* ===================================================================== *)
(** * The keyed list reconciler (the [:key] branch of [_handleVFor]) *)
(* ===================================================================== *)

(** The document side, which is not repository code: the child list of the
    parent of the [v-for] anchor, a supply of fresh nodes, and the record of
    the calls that reach the document.
    - [insertBefore(node, ref)] takes [node] out of the list if it is there
      and puts it before [ref] (at the end for [null]); when [ref] is [node]
      itself, before the next sibling of [node]; it raises when [ref] is not
      a child.
    - [nextSibling] of a node that is not in the list is [null]. *)
Abbreviation Node := nat (only parsing).

Inductive DomOp :=
  | OpRemoveChild (n : Node)
  | OpInsertBefore (n : Node) (ref : option Node)
  | OpCloneWalk (key : string) (nodes : list Node).

Record Dom := mkDom {
  childNodes : list Node;
  nextFresh : Node;
  ops : list DomOp
}.

(** An entry of [itemMap]: [{ element, item, index }]; [element] is
    [undefined] when the walked result was an empty fragment. *)
Record ItemEntry := mkItemEntry {
  element : option Node;
  item : string;
  index : nat
}.

(** What [_walk] returns for a clone: one node, or a fragment with so many
    children. *)
Inductive WalkShape :=
  | SingleNode
  | Fragment (size : nat).

Module Document.
#[local] Open Scope list_scope.

Fixpoint indexOf (n : Node) (l : list Node) : option nat :=
  match l with
  | [] => None
  | x :: rest => if Nat.eqb x n then Some 0 else S <$> indexOf n rest
  end.

Definition isChild (n : Node) (d : Dom) : bool := bool_decide (n ∈ childNodes d).

Definition nextSibling (n : Node) (d : Dom) : option Node :=
  match indexOf n (childNodes d) with
  | Some i => childNodes d !! S i
  | None => None
  end.

Definition firstChild (d : Dom) : option Node := head (childNodes d).

Definition without (n : Node) (l : list Node) : list Node :=
  filter (fun x => x <> n) l.

Fixpoint placeBefore (n : Node) (ref : Node) (l : list Node) : list Node :=
  match l with
  | [] => [n]
  | x :: rest => if Nat.eqb x ref then n :: x :: rest else x :: placeBefore n ref rest
  end.

Definition logOp (op : DomOp) (d : Dom) : Dom :=
  {| childNodes := childNodes d; nextFresh := nextFresh d; ops := ops d ++ [op] |}.

Definition setChildren (l : list Node) (d : Dom) : Dom :=
  {| childNodes := l; nextFresh := nextFresh d; ops := ops d |}.

(** [parent.removeChild(n)] for a child [n]. *)
Definition removeChild (n : Node) (d : Dom) : Dom :=
  setChildren (without n (childNodes d)) (logOp (OpRemoveChild n) d).

(** [parent.insertBefore(n, ref)]; [None] is the [NotFoundError]. *)
Definition insertBefore (n : Node) (ref : option Node) (d : Dom) : option Dom :=
  let d1 := logOp (OpInsertBefore n ref) d in
  match ref with
  | None => Some (setChildren (without n (childNodes d) ++ [n]) d1)
  | Some r =>
      if isChild r d then
        let target := if Nat.eqb r n then nextSibling n d else Some r in
        match target with
        | None => Some (setChildren (without n (childNodes d) ++ [n]) d1)
        | Some t => Some (setChildren (placeBefore n t (without n (childNodes d))) d1)
        end
      else None
  end.

(** Fresh nodes for a walked clone. *)
Definition fresh (k : nat) (d : Dom) : list Node * Dom :=
  (seq (nextFresh d) k,
   {| childNodes := childNodes d; nextFresh := nextFresh d + k; ops := ops d |}).

End Document.

(** A JS [Map], in insertion order. *)
Module JsMap.
Section Ops.
Context {V : Type}.

Fixpoint get (k : string) (m : list (string * V)) : option V :=
  match m with
  | [] => None
  | (k', v) :: rest => if String.eqb k' k then Some v else get k rest
  end.

Definition has (k : string) (m : list (string * V)) : bool :=
  match get k m with Some _ => true | None => false end.

Fixpoint set (k : string) (v : V) (m : list (string * V)) : list (string * V) :=
  match m with
  | [] => [(k, v)]
  | (k', v') :: rest =>
      if String.eqb k' k then (k, v) :: rest else (k', v') :: set k v rest
  end.

Fixpoint delete (k : string) (m : list (string * V)) : list (string * V) :=
  match m with
  | [] => []
  | (k', v') :: rest =>
      if String.eqb k' k then rest else (k', v') :: delete k rest
  end.

Definition keys (m : list (string * V)) : list string := map fst m.

End Ops.
End JsMap.

Module Reconciler.
Import Document.
#[local] Open Scope list_scope.

(** The state of the closure: the document and [itemMap]. *)
Abbreviation ListState := (Dom * list (string * ItemEntry))%type (only parsing).

Section WithWalk.
(** The shape of what [_walk] gives for an item. *)
Variable walkShape : string -> WalkShape.

(** "Build new item map": [list.forEach((item, i) => ...)], the list being
    given with the value of the key expression for each item ([None] for
    [null] or [undefined], which is skipped with a warning). *)
Fixpoint buildNew (items : list (string * option string)) (i : nat)
    (newItemMap : list (string * (string * nat))) (newKeys : list string)
    : list (string * (string * nat)) * list string :=
  match items with
  | [] => (newItemMap, newKeys)
  | (it, None) :: rest => buildNew rest (S i) newItemMap newKeys
  | (it, Some key) :: rest =>
      buildNew rest (S i) (JsMap.set key (it, i) newItemMap) (newKeys ++ [key])
  end.

(** [keysToRemove.forEach(key => ...)]. *)
Fixpoint removeOld (keysToRemove : list string) (st : ListState) : ListState :=
  match keysToRemove with
  | [] => st
  | key :: rest =>
      let '(d, itemMap) := st in
      let d' :=
        match JsMap.get key itemMap with
        | Some {| element := Some el |} =>
            if isChild el d then removeChild el d else d
        | _ => d
        end in
      removeOld rest (d', JsMap.delete key itemMap)
  end.

(** The position after [previousElement], or the first position. *)
Definition slotAfter (previousElement : option Node) (d : Dom) : option Node :=
  match previousElement with
  | Some prev => nextSibling prev d
  | None => firstChild d
  end.

(** [children.forEach(child => { insertBefore(child, slot); previousElement = child })]. *)
Fixpoint insertAll (nodes : list Node) (previousElement : option Node) (d : Dom)
    : option (Dom * option Node) :=
  match nodes with
  | [] => Some (d, previousElement)
  | child :: rest =>
      match insertBefore child (slotAfter previousElement d) d with
      | None => None
      | Some d' => insertAll rest (Some child) d'
      end
  end.

(** The body of [newKeys.forEach((key, i) => ...)] for one key; [None] is
    an exception ([element] undefined, or [NotFoundError]). *)
Definition processKey (newItemMap : list (string * (string * nat))) (key : string)
    (acc : ListState * option Node) : option (ListState * option Node) :=
  let '((d, itemMap), previousElement) := acc in
  match JsMap.get key itemMap with
  | Some entry =>
      (* Reuse existing element *)
      match element entry with
      | None => None
      | Some el =>
          match previousElement with
          | Some prev =>
              if bool_decide (nextSibling el d <> nextSibling prev d) then
                match insertBefore el (nextSibling prev d) d with
                | None => None
                | Some d' => Some ((d', itemMap), Some el)
                end
              else Some ((d, itemMap), Some el)
          | None =>
              if bool_decide (firstChild d <> Some el) then
                match insertBefore el (firstChild d) d with
                | None => None
                | Some d' => Some ((d', itemMap), Some el)
                end
              else Some ((d, itemMap), Some el)
          end
      end
  | None =>
      (* Create new element *)
      match JsMap.get key newItemMap with
      | None => None
      | Some (it, i) =>
          match walkShape it with
          | Fragment k =>
              let '(nodes, d1) := fresh k d in
              let d2 := logOp (OpCloneWalk key nodes) d1 in
              match insertAll nodes previousElement d2 with
              | None => None
              | Some (d3, prev') =>
                  Some ((d3, JsMap.set key {| element := head nodes; item := it; index := i |}
                                 itemMap), prev')
              end
          | SingleNode =>
              let '(nodes, d1) := fresh 1 d in
              let processed := nextFresh d in
              let d2 := logOp (OpCloneWalk key nodes) d1 in
              match insertBefore processed (slotAfter previousElement d2) d2 with
              | None => None
              | Some d3 =>
                  Some ((d3, JsMap.set key {| element := Some processed; item := it; index := i |}
                                 itemMap), Some processed)
              end
          end
      end
  end.

Fixpoint processKeys (newItemMap : list (string * (string * nat)))
    (newKeys : list string) (acc : ListState * option Node)
    : option (ListState * option Node) :=
  match newKeys with
  | [] => Some acc
  | key :: rest =>
      match processKey newItemMap key acc with
      | None => None
      | Some acc' => processKeys newItemMap rest acc'
      end
  end.

(** One run of the effect for a keyed array. *)
Definition reconcile (items : list (string * option string)) (st : ListState)
    : option ListState :=
  let '(newItemMap, newKeys) := buildNew items 0 [] [] in
  let oldKeys := JsMap.keys (snd st) in
  let keysToRemove := filter (fun k => JsMap.has k newItemMap = false) oldKeys in
  let st1 := removeOld keysToRemove st in
  fst <$> processKeys newItemMap newKeys (st1, None).

End WithWalk.

(** The document calls made between two states. *)
Definition newOps (d d' : Dom) : list DomOp := drop (List.length (ops d)) (ops d').

(** A list whose items are their own keys. *)
Definition keyed (ks : list string) : list (string * option string) :=
  map (fun k => (k, Some k)) ks.

(** A parent that holds the anchor only (node 0), nothing rendered yet. *)
Definition initial : ListState :=
  ({| childNodes := [0]; nextFresh := 1; ops := [] |}, []).

Definition singleNodes : string -> WalkShape := fun _ => SingleNode.

End Reconciler.

(** Notions used to state what a run of the reconciler does. *)
Module ReconcilerSpec.
Import Document Reconciler.
#[local] Open Scope list_scope.

(** [key] is in the reuse map with element [el]. *)
Definition tracked (itemMap : list (string * ItemEntry)) (key : string) (el : nat) : Prop :=
  exists entry, JsMap.get key itemMap = Some entry /\ element entry = Some el.

(** A call that moves an element of the reuse map. *)
Definition isMove (itemMap : list (string * ItemEntry)) (op : DomOp) : Prop :=
  exists el ref key, op = OpInsertBefore el ref /\ tracked itemMap key el.

(** The keys of a list, in order, as the "build" phase collects them. *)
Definition newKeysOf (items : list (string * option string)) : list string :=
  snd (buildNew items 0 [] []).

(** The three-item list of the specification, rendered once. *)
Definition renderedABC : option ListState :=
  reconcile singleNodes (keyed ["a"; "b"; "c"]) initial.

Definition stateABC : ListState :=
  ({| childNodes := [1; 2; 3; 0]; nextFresh := 4; ops := [] |},
   [("a", {| element := Some 1; item := "a"; index := 0 |});
    ("b", {| element := Some 2; item := "b"; index := 1 |});
    ("c", {| element := Some 3; item := "c"; index := 2 |})]).

End ReconcilerSpec.


(* ===================================================================== *)
(** * Notions used to state what the matcher computes *)
(* ===================================================================== *)

Module MatcherSpec.
Import JsString RouterCore FindMatch RouterSpec.
#[local] Open Scope list_scope.

(** The pattern segments match the first path segments, one by one. *)
Definition prefixMatches (patternParts pathParts : list string) : Prop :=
  List.length patternParts <= List.length pathParts
  /\ Forall2 segMatches patternParts (take (List.length patternParts) pathParts).

(** The names of the parameter segments of a pattern. *)
Definition paramNames (patternParts : list string) : list string :=
  map slice1 (filter (fun p => startsWith ":" p = true) patternParts).

(** In words, the path segment bound to the name [k]: the one at the
    position of the last parameter segment of the pattern that is named
    [k]. *)
Fixpoint boundTo (patternParts pathParts : list string) (k : string) : option string :=
  match patternParts, pathParts with
  | p :: ps, v :: vs =>
      match boundTo ps vs k with
      | Some w => Some w
      | None => if startsWith ":" p && String.eqb (slice1 p) k then Some v else None
      end
  | _, _ => None
  end.

(** No two slashes in a row. *)
Fixpoint noDoubleSlash (s : string) : bool :=
  match s with
  | String c ((String d _) as s') =>
      negb (Ascii.eqb c "/" && Ascii.eqb d "/") && noDoubleSlash s'
  | _ => true
  end.

(** A root-to-leaf chain of the route tree that a request path goes
    through: every route of the chain but the last has children and its
    absolute pattern is accepted as a prefix; the last has none and its
    absolute pattern is accepted exactly and passes the leaf test. *)
Inductive chainMatches (leafTest : string -> string -> bool)
    : list RouteDef -> string -> string -> list RouteDef -> Prop :=
  | chain_leaf routes parent cur p c ps :
      mkRoute p c None ∈ routes ->
      _extractParams (fullPathOf parent p) cur false = Some ps ->
      leafTest (fullPathOf parent p) cur = true ->
      chainMatches leafTest routes parent cur [mkRoute p c None]
  | chain_node routes parent cur p c kids ps rest :
      mkRoute p c (Some kids) ∈ routes ->
      _extractParams (fullPathOf parent p) cur true = Some ps ->
      chainMatches leafTest kids (fullPathOf parent p) cur rest ->
      chainMatches leafTest routes parent cur (mkRoute p c (Some kids) :: rest).

(** The segments of the patterns along a chain, root first. *)
Definition chainSegments (chain : list RouteDef) : list string :=
  List.concat (map (fun r => segments (route_path r)) chain).

(** What a successful attempt leaves: the chain pushed behind what was
    there, and the bindings of the whole absolute pattern as parameters. *)
Definition succeeds (leafTest : string -> string -> bool) (routes : list RouteDef) (cur parent : string)
    (st st' : MatchState) : Prop :=
  exists chain,
    chainMatches leafTest routes parent cur chain
    /\ matched st' = matched st ++ chain
    /\ params st' = bindings (segments parent ++ chainSegments chain) (segments cur) ∅.

(** The parameters held when a level is entered come from the parent's
    pattern. *)
Definition paramsFrom (parent : string) (st : MatchState) : Prop :=
  dom (params st) ⊆ list_to_set (paramNames (segments parent)) ∖ {[ "__proto__" ]}.

End MatcherSpec.

(* ===================================================================== *)
(** * Notions used to state what a run of the keyed reconciler leaves *)
(* ===================================================================== *)

Module KeyedSpec.
Import Document Reconciler ReconcilerSpec.
#[local] Open Scope list_scope.

(** The elements of the reuse map, entry by entry. *)
Definition elemOpts (m : list (string * ItemEntry)) : list (option nat) :=
  map (fun kv => element (snd kv)) m.

(** The children of the parent that are not elements of the reuse map
    (the anchor, the siblings of the list), in document order. *)
Definition others (d : Dom) (m : list (string * ItemEntry)) : list nat :=
  filter (fun n => Some n ∉ elemOpts m) (childNodes d).

(** The elements of the given keys, in the order of the keys. *)
Definition placedOf (m : list (string * ItemEntry)) (ks : list string) : list nat :=
  omap (fun k => JsMap.get k m ≫= element) ks.

(** A state as runs over single-node items leave it: children without
    repetition and below the supply of fresh nodes, one entry per key, every
    entry with an element of its own that is a child. *)
Record wfList (d : Dom) (m : list (string * ItemEntry)) : Prop := mkWfList {
  wf_children : NoDup (childNodes d);
  wf_fresh : Forall (fun n => n < nextFresh d) (childNodes d);
  wf_keys : NoDup (JsMap.keys m);
  wf_elems : NoDup (elemOpts m);
  wf_defined : None ∉ elemOpts m;
  wf_attached : forall n, Some n ∈ elemOpts m -> n ∈ childNodes d
}.

(** What holds between two keys of [newKeys.forEach]: the keys [done] have
    been placed, their elements are the first children, in the order of the
    keys, and [previousElement] is the last of them. *)
Record placedSoFar (allKeys : list string) (others0 : list nat) (done : list string)
    (d : Dom) (m : list (string * ItemEntry)) (prev : option nat) : Prop := mkPlaced {
  ps_wf : wfList d m;
  ps_children : exists rest, childNodes d = placedOf m done ++ rest;
  ps_tracked : Forall (fun k => is_Some (JsMap.get k m)) done;
  ps_prev : prev = last (placedOf m done);
  ps_keys : forall k, k ∈ JsMap.keys m -> k ∈ allKeys;
  ps_others : others d m = others0
}.

(** The keys of a list with repeated keys, each once, in the order of their
    last occurrences. *)
Definition addLast (k : string) (ks : list string) : list string :=
  filter (fun x => x <> k) ks ++ [k].

Definition lastOccurrences (ks : list string) : list string :=
  fold_left (fun acc k => addLast k acc) ks [].

End KeyedSpec.

(* ===================================================================== *)
(** * Notions used to state what the reactive runtime keeps *)
(* ===================================================================== *)

Module RuntimeSpec.
Import Reactive ReadOnlyEffects ReactiveSpec.
#[local] Open Scope list_scope.

(** The effect closures started, in order, among recorded events. *)
Definition runsOf (l : list Event) : list nat :=
  omap (fun ev => match ev with Ran e => Some e | ReadSignal _ _ => None end) l.

(** Every closure of [st] is still there in [st'], with the same client
    function and of the same kind. *)
Definition sameClosures (st st' : MelodiReactive) : Prop :=
  forall e c, effects st !! e = Some c ->
    exists c', effects st' !! e = Some c'
               /\ fn_body c' = fn_body c
               /\ has_cleanup_slot c' = has_cleanup_slot c.

(** The tracking context, when set, is a closure of this object; so is every
    subscriber; no subscriber set holds a closure twice. *)
Record coherent (st : MelodiReactive) : Prop := mkCoherent {
  co_current : forall e, _currentEffect st = Some e -> is_Some (effects st !! e);
  co_valid : subscribersValid st;
  co_nodup : forall s, NoDup (subscribersOf s st)
}.

(** The subscriptions are the tracked reads: effect [e] is in the subscriber
    set of signal [s] exactly when a read of [s] has been made while [e] was
    the tracking context (in any run of [e], the most recent or an earlier
    one). *)
Definition subscribedIffRead (st : MelodiReactive) : Prop :=
  forall s e, e ∈ subscribersOf s st <-> ReadSignal s (Some e) ∈ log st.

(** That is not lost between [st] and [st']. *)
Definition keepsReads (st st' : MelodiReactive) : Prop :=
  subscribedIffRead st -> subscribedIffRead st'.

(** Coherence is not lost between [st] and [st']. *)
Definition keeps (st st' : MelodiReactive) : Prop := coherent st -> coherent st'.

(** The tracking context after client code that was started with the
    context [_currentEffect st]: the same, or none. *)
Definition contextAfter (st st' : MelodiReactive) : Prop :=
  _currentEffect st' = _currentEffect st \/ _currentEffect st' = None.

(** The states a client reaches from a fresh object through the
    operations of the class and the closures they return, called outside of
    any effect. *)
Inductive reachable : MelodiReactive -> Prop :=
  | reach_empty : reachable empty
  | reach_signal x st : reachable st -> reachable (snd (createSignal x st))
  | reach_read s st : reachable st -> reachable (snd (read s st))
  | reach_write fuel s x st st' :
      reachable st -> write fuel s x st = Some st' -> reachable st'
  | reach_effect fuel fn st d st' :
      reachable st -> createEffect fuel fn st = Some (d, st') -> reachable st'
  | reach_effect_cleanup fuel fn ret st d st' :
      reachable st -> createEffectWithCleanup fuel fn ret st = Some (d, st') ->
      reachable st'
  | reach_dispose fuel d st st' :
      reachable st -> dispose fuel d st = Some st' -> reachable st'.

(** Closure [e] was made by [createEffect] for a function that reads signal
    [s] and then writes [x] to it. *)
Definition readsThenWrites (s : nat) (x : Val) (rest : list Cmd) (e : nat)
    (st : MelodiReactive) : Prop :=
  exists c, effects st !! e = Some c
            /\ fn_body c = CRead s :: CWrite s x :: rest
            /\ has_cleanup_slot c = false.

(** A two-signal object with a reader of [a] made by [createEffect]. *)
Definition readerState : MelodiReactive :=
  default empty (snd <$> createEffect 10 [CRead 1] Scenarios.twoSignals).

End RuntimeSpec.

(* ===================================================================== *)
(** * The event helpers of a component: [$on] and [$emit] *)
(* ===================================================================== *)

Module EventBus.
Import JsString.
#[local] Open Scope list_scope.

(** What [comp._events[eventName]] evaluates to: an own property (an array
    of handlers, functions being named by a number), a property that the
    object [{}] inherits from [Object.prototype], or [undefined]. *)
Inductive PropValue :=
  | Own (handlers : list nat)
  | InheritedProp
  | Missing.

(** The part of a component that the event helpers use. *)
Record Instance := mkInstance {
  _events : list (string * list nat);
  _parent : option nat
}.

(** The components of a page, named by a number, and the handler calls made
    so far: the component whose state is [this], the handler, the payload.
    A handler is client code; it is taken here not to register or unregister
    handlers itself. *)
Record Page := mkPage {
  instances : list Instance;
  calls : list (nat * nat * Val)
}.

Inductive OnResult :=
  | Registered
  | Ignored
  | OnThrew.

Definition setEvents (ev : list (string * list nat)) (comp : Instance) : Instance :=
  {| _events := ev; _parent := _parent comp |}.

(** [arr.indexOf(handler)] followed by [arr.splice(idx, 1)] when found. *)
Fixpoint removeFirst (h : nat) (hs : list nat) : list nat :=
  match hs with
  | [] => []
  | x :: rest => if Nat.eqb x h then rest else x :: removeFirst h rest
  end.

Section WithPrototype.
(** The property names of [Object.prototype]. *)
Variable inherited : string -> bool.

Definition getProp (eventName : string) (ev : list (string * list nat)) : PropValue :=
  match JsMap.get eventName ev with
  | Some hs => Own hs
  | None => if inherited eventName then InheritedProp else Missing
  end.

(** [comp._events[eventName] || []] where the value is then used as an
    array of handlers. *)
Definition handlersOf (eventName : string) (comp : Instance) : list nat :=
  match getProp eventName (_events comp) with
  | Own hs => hs
  | _ => []
  end.

(** [state.$on(eventName, handler)]. For an inherited name the value found
    is not an array and [push] raises; the assignment before it changes no
    later lookup. *)
Definition on (eventName : string) (handler : Val) (comp : Instance)
    : OnResult * Instance :=
  if negb (truthy eventName) || negb (Reactive.typeofFunction handler) then (Ignored, comp)
  else
    match handler with
    | VFun h =>
        match getProp eventName (_events comp) with
        | Own hs => (Registered, setEvents (JsMap.set eventName (hs ++ [h]) (_events comp)) comp)
        | Missing => (Registered, setEvents (JsMap.set eventName [h] (_events comp)) comp)
        | InheritedProp => (OnThrew, comp)
        end
    | _ => (Ignored, comp)
    end.

(** The closure that [$on] returns, for [eventName] and [handler];
    [None] is the [TypeError] of [indexOf] on a value that is no array. *)
Definition unregister (eventName : string) (h : nat) (comp : Instance)
    : option Instance :=
  match getProp eventName (_events comp) with
  | Own hs => Some (setEvents (JsMap.set eventName (removeFirst h hs) (_events comp)) comp)
  | Missing => Some comp
  | InheritedProp => None
  end.

(** [handlers.forEach(h => { try { h.call(p.state, payload) } catch (e) { } })]. *)
Definition callHandlers (p : nat) (hs : list nat) (payload : Val) (pg : Page) : Page :=
  {| instances := instances pg;
     calls := calls pg ++ map (fun h => (p, h, payload)) hs |}.

(** The first loop of [$emit]: [marks] are the values of
    [__melodijs_instance] found on [comp.el.parentElement], on its
    [parentElement], and so on up to the document. The flag is [false] when a
    lookup gave a value without [forEach], which ends [$emit] in its outer
    [catch]. *)
Fixpoint bubbleDom (marks : list (option nat)) (eventName : string) (payload : Val)
    (pg : Page) : bool * Page :=
  match marks with
  | [] => (true, pg)
  | None :: rest => bubbleDom rest eventName payload pg
  | Some p :: rest =>
      match instances pg !! p with
      | None => bubbleDom rest eventName payload pg
      | Some parentComp =>
          match getProp eventName (_events parentComp) with
          | Own hs => bubbleDom rest eventName payload (callHandlers p hs payload pg)
          | Missing => bubbleDom rest eventName payload pg
          | InheritedProp => (false, pg)
          end
      end
  end.

(** The second loop: [let lp = comp._parent; while (lp) { ...; lp = lp._parent }],
    inside its own [try]. [None]: the fuel did not suffice (a cycle of
    [_parent], which mounting never makes). *)
Fixpoint bubbleLogical (fuel : nat) (lp : option nat) (eventName : string)
    (payload : Val) (pg : Page) : option Page :=
  match fuel with
  | 0 => None
  | S fuel' =>
      match lp with
      | None => Some pg
      | Some p =>
          match instances pg !! p with
          | None => Some pg
          | Some parentComp =>
              match getProp eventName (_events parentComp) with
              | Own hs =>
                  bubbleLogical fuel' (_parent parentComp) eventName payload
                    (callHandlers p hs payload pg)
              | Missing => bubbleLogical fuel' (_parent parentComp) eventName payload pg
              | InheritedProp => Some pg
              end
          end
      end
  end.

(** [state.$emit(eventName, payload)] of component [c]. *)
Definition emit (fuel : nat) (c : nat) (eventName : string) (payload : Val)
    (marks : list (option nat)) (pg : Page) : option Page :=
  match instances pg !! c with
  | None => Some pg
  | Some comp =>
      match getProp eventName (_events comp) with
      | InheritedProp => Some pg
      | _ =>
          let pg1 := callHandlers c (handlersOf eventName comp) payload pg in
          let '(ok, pg2) := bubbleDom marks eventName payload pg1 in
          if ok then bubbleLogical fuel (_parent comp) eventName payload pg2
          else Some pg2
      end
  end.

(** The calls that the handlers of component [p] receive for one event. *)
Definition callsOn (eventName : string) (payload : Val) (pg : Page) (p : nat)
    : list (nat * nat * Val) :=
  match instances pg !! p with
  | Some comp => map (fun h => (p, h, payload)) (handlersOf eventName comp)
  | None => []
  end.

End WithPrototype.

(** The chain [comp._parent], [comp._parent._parent], ... *)
Fixpoint ancestors (fuel : nat) (lp : option nat) (insts : list Instance)
    : option (list nat) :=
  match fuel with
  | 0 => None
  | S fuel' =>
      match lp with
      | None => Some []
      | Some p =>
          match insts !! p with
          | None => Some []
          | Some parentComp => cons p <$> ancestors fuel' (_parent parentComp) insts
          end
      end
  end.

(** How often handler [h] was called with the state of [p] as [this]. *)
Definition timesCalled (p h : nat) (l : list (nat * nat * Val)) : nat :=
  List.length (filter (fun c => fst (fst c) = p /\ snd (fst c) = h) l).

(** The calls recorded after those of an earlier page. *)
Definition newCalls (pg pg' : Page) : list (nat * nat * Val) :=
  drop (List.length (calls pg)) (calls pg').

(** How often [h] is in a list of handlers. *)
Definition registrations (h : nat) (hs : list nat) : nat :=
  List.length (filter (fun x => x = h) hs).

(** The names that an object made by [{}] inherits. *)
Definition objectPrototype (name : string) : bool :=
  bool_decide (name ∈ ["constructor"; "__proto__"; "hasOwnProperty"; "isPrototypeOf";
                       "propertyIsEnumerable"; "toLocaleString"; "toString"; "valueOf";
                       "__defineGetter__"; "__defineSetter__"; "__lookupGetter__";
                       "__lookupSetter__"]).

(** A parent with handler 7 on ["saved"], and a child it has mounted. *)
Definition parentAndChild : Page :=
  {| instances := [ {| _events := [("saved", [7])]; _parent := None |};
                    {| _events := []; _parent := Some 0 |} ];
     calls := [] |}.

End EventBus.

(* ===================================================================== *)
(** * The watcher of a data property *)
(* ===================================================================== *)

Module Watcher.
Import Reactive.
#[local] Open Scope list_scope.

(** The variables that the watcher's effect closes over, and the calls of
    the bound handler made so far: [(newValue, oldValue)]. A handler is
    client code; it is taken here not to write the watched property. *)
Record WatchState := mkWatchState {
  oldValue : Val;
  isFirstRun : bool;
  handlerCalls : list (Val * Val)
}.

(** [let oldValue = getter(); let isFirstRun = true]. *)
Definition start (current : Val) : WatchState :=
  {| oldValue := current; isFirstRun := true; handlerCalls := [] |}.

(** One run of the effect, [newValue] being what [getter()] returns. *)
Definition run (immediate deep : bool) (newValue : Val) (w : WatchState) : WatchState :=
  if isFirstRun w then
    {| oldValue := newValue;
       isFirstRun := false;
       handlerCalls := if immediate then handlerCalls w ++ [(newValue, VUndefined)]
                       else handlerCalls w |}
  else if negb (strictEq newValue (oldValue w)) || deep then
    {| oldValue := newValue;
       isFirstRun := false;
       handlerCalls := handlerCalls w ++ [(newValue, oldValue w)] |}
  else w.

(** The runs of the effect for the values it reads, one after the other. *)
Definition runAll (immediate deep : bool) (values : list Val) (w : WatchState)
    : WatchState :=
  fold_left (fun w v => run immediate deep v w) values w.

(** The changes in a sequence of values that follows [prev]: each value
    that is not [===] to the one before it (every value when [deep]), paired
    with the one before it. *)
Fixpoint changes (deep : bool) (prev : Val) (values : list Val) : list (Val * Val) :=
  match values with
  | [] => []
  | v :: rest =>
      (if negb (strictEq v prev) || deep then [(v, prev)] else [])
      ++ changes deep v rest
  end.

End Watcher.

(* ===================================================================== *)
(** * Text nodes: the split of a text at its interpolations *)
(* ===================================================================== *)

Module Interpolation.
#[local] Open Scope list_scope.

(** A text is the list of its code units (those below 256 here). *)
Definition closing : ascii := "}"%char.
Definition opening : ascii := "{"%char.

(** The longest prefix without ['}'], and what follows it: [[^}]+], which
    is greedy, and which a shorter choice never helps since the text that
    follows must start with ['}']. *)
Fixpoint spanBody (s : list ascii) : list ascii * list ascii :=
  match s with
  | [] => ([], [])
  | c :: rest =>
      if Ascii.eqb c closing then ([], s)
      else let '(body, after) := spanBody rest in (c :: body, after)
  end.

(** A match of [\{\{[^}]+\}\}] at the start of [s]: the text between the
    braces and the text after the match. *)
Definition matchAt (s : list ascii) : option (list ascii * list ascii) :=
  match s with
  | c1 :: c2 :: rest =>
      if Ascii.eqb c1 opening && Ascii.eqb c2 opening then
        match spanBody rest with
        | (b :: body, d1 :: d2 :: after) =>
            if Ascii.eqb d1 closing && Ascii.eqb d2 closing then Some (b :: body, after)
            else None
        | _ => None
        end
      else None
  | _ => None
  end.

Definition braced (body : list ascii) : list ascii :=
  opening :: opening :: body ++ [closing; closing].

(** [text.split(/(\{\{[^}]+\}\})/g)]: the matches are looked for from left
    to right; the text before a match, then the match (the capture group),
    are added to the result, the search goes on after the match, and the text
    after the last match ends the result. [skip] counts the code units of a
    match still to pass, [cur] is the text since the last match. *)
Fixpoint splitFrom (s : list ascii) (skip : nat) (cur : list ascii)
    : list (list ascii) :=
  match s with
  | [] => [cur]
  | c :: rest =>
      match skip with
      | S k => splitFrom rest k cur
      | 0 =>
          match matchAt s with
          | Some (body, _) =>
              cur :: braced body :: splitFrom rest (List.length body + 3) []
          | None => splitFrom rest 0 (cur ++ [c])
          end
      end
  end.

Definition parts (text : list ascii) : list (list ascii) := splitFrom text 0 [].

(** [\s] on code units below 256. *)
Definition isSpace (c : ascii) : bool :=
  let n := nat_of_ascii c in
  (Nat.leb 9 n && Nat.leb n 13) || Nat.eqb n 32 || Nat.eqb n 160.

(** What [\s*([^}]+)] captures in a text without ['}'] that is not empty:
    the text after its leading white space, or its last code unit when it is
    white space only. *)
Fixpoint capture (body : list ascii) : list ascii :=
  match body with
  | c :: (_ :: _) as rest => if isSpace c then capture rest else body
  | _ => body
  end.

(** [part.match(/^\{\{\s*([^}]+)\s*\}\}$/)]: the expression [m[1]] when the
    part is an interpolation. *)
Definition interpolation (part : list ascii) : option (list ascii) :=
  match matchAt part with
  | Some (body, []) => Some (capture body)
  | _ => None
  end.

(** What [_walk] makes of a part: a text node with the part as its value,
    or an empty text node that an effect fills with the value of the
    expression. *)
Inductive TextPart :=
  | Static (text : list ascii)
  | Dynamic (expr : list ascii).

Definition nodeFor (part : list ascii) : TextPart :=
  match interpolation part with
  | Some expr => Dynamic expr
  | None => Static part
  end.

(** [text.trim() === '']. *)
Definition blank (text : list ascii) : bool := forallb isSpace text.

(** [_walk] on a text node: the nodes it returns (a clone of the node for a
    blank text or a text without interpolation, a fragment otherwise). *)
Definition walkText (text : list ascii) : list TextPart :=
  if blank text then [Static text]
  else if Nat.ltb 1 (List.length (parts text)) then map nodeFor (parts text)
  else [Static text].

(** The text after its leading white space. *)
Fixpoint dropSpaces (s : list ascii) : list ascii :=
  match s with
  | [] => []
  | c :: rest => if isSpace c then dropSpaces rest else s
  end.

(** In words, the expression of an interpolation [{{body}}]: the body less
    its leading white space; for a body of white space only, its last code
    unit. *)
Definition expressionOf (body : list ascii) : list ascii :=
  match dropSpaces body with
  | [] => match last body with Some c => [c] | None => [] end
  | expr => expr
  end.

(** A list of parts that starts and ends with a static text and has one
    interpolation between two static texts. *)
Inductive alternating : list (list ascii) -> Prop :=
  | alt_last lit :
      nodeFor lit = Static lit -> alternating [lit]
  | alt_cons lit body rest :
      nodeFor lit = Static lit ->
      body <> [] -> closing ∉ body ->
      nodeFor (braced body) = Dynamic (expressionOf body) ->
      alternating rest ->
      alternating (lit :: braced body :: rest).

(** A text with two interpolations, the first with white space on both
    sides of its expression, the second of white space only. *)
Definition greeting : list ascii :=
  list_ascii_of_string "Hi {{  user.name }}, {{   }}!".

End Interpolation.

(* ===================================================================== *)
(** * [v-if] and [v-for] without [:key] *)
(* ===================================================================== *)

Module Directives.
Import Document.
#[local] Open Scope list_scope.

(** [children.forEach(child => parent.insertBefore(child, anchor))], which
    is also what inserting a fragment before [anchor] does. *)
Fixpoint insertAllBefore (nodes : list Node) (anchor : Node) (d : Dom) : option Dom :=
  match nodes with
  | [] => Some d
  | child :: rest =>
      match insertBefore child (Some anchor) d with
      | None => None
      | Some d' => insertAllBefore rest anchor d'
      end
  end.

(** The variable [currentEl] of [_handleVIf]: [null], a node, or a
    fragment (whose children have left it once it was inserted). *)
Inductive Shown :=
  | NothingShown
  | ShownNode (n : Node)
  | ShownFragment.

Section WithWalk.
Variable walkShape : string -> WalkShape.

(** One run of the effect of [_handleVIf] for the element [node] under a
    parent without transition, [shouldShow] being the value of the
    expression. The document is the child list of the anchor's parent; the
    anchor has no parent when it is not in the list. *)
Definition runIf (node : string) (anchor : Node) (shouldShow : bool)
    (st : Dom * Shown) : option (Dom * Shown) :=
  let '(d, currentEl) := st in
  if shouldShow then
    match currentEl with
    | NothingShown =>
        match walkShape node with
        | Fragment k =>
            let '(nodes, d1) := fresh k d in
            let d2 := logOp (OpCloneWalk node nodes) d1 in
            if isChild anchor d2 then
              match insertAllBefore nodes anchor d2 with
              | None => None
              | Some d3 => Some (d3, ShownFragment)
              end
            else Some (d2, ShownFragment)
        | SingleNode =>
            let '(nodes, d1) := fresh 1 d in
            let processed := nextFresh d in
            let d2 := logOp (OpCloneWalk node nodes) d1 in
            if isChild anchor d2 then
              match insertBefore processed (Some anchor) d2 with
              | None => None
              | Some d3 => Some (d3, ShownNode processed)
              end
            else Some (d2, ShownNode processed)
        end
    | _ => Some st
    end
  else
    match currentEl with
    | NothingShown => Some st
    | ShownNode el => Some (if isChild el d then removeChild el d else d, NothingShown)
    | ShownFragment => Some (d, NothingShown)
    end.

(** The runs of the effect for the successive values of the expression. *)
Fixpoint runIfAll (node : string) (anchor : Node) (values : list bool)
    (st : Dom * Shown) : option (Dom * Shown) :=
  match values with
  | [] => Some st
  | v :: rest =>
      match runIf node anchor v st with
      | None => None
      | Some st' => runIfAll node anchor rest st'
      end
  end.

(** [itemMap.set(index, entry)] for the unkeyed list, whose keys are the
    positions in the array. *)
Fixpoint setAt (i : nat) (entry : ItemEntry) (m : list (nat * ItemEntry))
    : list (nat * ItemEntry) :=
  match m with
  | [] => [(i, entry)]
  | (j, e) :: rest =>
      if Nat.eqb j i then (i, entry) :: rest else (j, e) :: setAt i entry rest
  end.

(** [itemMap.forEach(({ element }) => { element.parentNode && element.parentNode.removeChild(element) })]. *)
Fixpoint removeTracked (m : list (nat * ItemEntry)) (d : Dom) : Dom :=
  match m with
  | [] => d
  | (_, entry) :: rest =>
      let d' := match element entry with
                | Some el => if isChild el d then removeChild el d else d
                | None => d
                end in
      removeTracked rest d'
  end.

(** [renderItem(item, index)]. *)
Definition renderItem (anchor : Node) (it : string) (i : nat)
    (st : Dom * list (nat * ItemEntry)) : option (Dom * list (nat * ItemEntry)) :=
  let '(d, itemMap) := st in
  match walkShape it with
  | Fragment k =>
      let '(nodes, d1) := fresh k d in
      let d2 := logOp (OpCloneWalk it nodes) d1 in
      match insertAllBefore nodes anchor d2 with
      | None => None
      | Some d3 =>
          Some (d3, match nodes with
                    | [] => itemMap
                    | first :: _ => setAt i {| element := Some first; item := it; index := i |}
                                      itemMap
                    end)
      end
  | SingleNode =>
      let '(nodes, d1) := fresh 1 d in
      let processed := nextFresh d in
      let d2 := logOp (OpCloneWalk it nodes) d1 in
      match insertBefore processed (Some anchor) d2 with
      | None => None
      | Some d3 =>
          Some (d3, setAt i {| element := Some processed; item := it; index := i |} itemMap)
      end
  end.

(** [list.forEach((item, i) => renderItem(item, i))]. *)
Fixpoint renderFrom (anchor : Node) (items : list string) (i : nat)
    (st : Dom * list (nat * ItemEntry)) : option (Dom * list (nat * ItemEntry)) :=
  match items with
  | [] => Some st
  | it :: rest =>
      match renderItem anchor it i st with
      | None => None
      | Some st' => renderFrom anchor rest (S i) st'
      end
  end.

(** One run of the effect of [_handleVFor] without [:key], for an array:
    nothing without a parent, else every tracked element is removed, the map
    is cleared and every item is rendered before the anchor. *)
Definition runUnkeyed (anchor : Node) (items : list string)
    (st : Dom * list (nat * ItemEntry)) : option (Dom * list (nat * ItemEntry)) :=
  let '(d, itemMap) := st in
  if isChild anchor d then renderFrom anchor items 0 (removeTracked itemMap d, [])
  else Some st.

End WithWalk.

(** The elements that the unkeyed list tracks. *)
Definition trackedNodes (m : list (nat * ItemEntry)) : list nat :=
  omap (fun kv => element (snd kv)) m.

(** Whether an element is shown. *)
Definition isShown (s : Shown) : bool :=
  match s with NothingShown => false | _ => true end.

(** What holds between two runs of a [v-if] whose anchor lies between
    [pre] and [post]: the children are these, with the clone before the
    anchor when one is shown, a node made after the first [base] ones. *)
Definition ifInv (anchor : nat) (pre post : list nat) (base : nat)
    (st : Dom * Shown) : Prop :=
  NoDup (childNodes (fst st))
  /\ Forall (fun n => n < nextFresh (fst st)) (childNodes (fst st))
  /\ base <= nextFresh (fst st)
  /\ match snd st with
     | NothingShown => childNodes (fst st) = pre ++ anchor :: post
     | ShownNode n => childNodes (fst st) = pre ++ n :: anchor :: post /\ base <= n
     | ShownFragment => False
     end.

(** A parent with a header (1), the anchor (0) and a footer (2). *)
Definition threeChildren : Dom :=
  {| childNodes := [1; 0; 2]; nextFresh := 3; ops := [] |}.

End Directives.

(* ===================================================================== *)
(** * [_escape] *)
(* ===================================================================== *)

Module Escape.
#[local] Open Scope list_scope.

(** [s.replace(/c/g, by)] for a single code unit [c] and a replacement
    without ['$']. *)
Fixpoint replaceAll (c : ascii) (by_ : list ascii) (s : list ascii) : list ascii :=
  match s with
  | [] => []
  | x :: rest =>
      if Ascii.eqb x c then by_ ++ replaceAll c by_ rest
      else x :: replaceAll c by_ rest
  end.

(** The double quote. *)
Definition dquote : ascii := ascii_of_nat 34.

Definition amp : list ascii := list_ascii_of_string "&amp;".
Definition lt : list ascii := list_ascii_of_string "&lt;".
Definition gt : list ascii := list_ascii_of_string "&gt;".
Definition quot : list ascii := list_ascii_of_string "&quot;".
Definition apos : list ascii := list_ascii_of_string "&#39;".

(** [_escape(v)]: [None] is a [v] that is [null] or [undefined], [Some s] a
    [v] with [String(v)] equal to [s]. *)
Definition _escape (v : option (list ascii)) : list ascii :=
  match v with
  | None => []
  | Some s =>
      replaceAll "'"%char apos
        (replaceAll dquote quot
           (replaceAll ">"%char gt
              (replaceAll "<"%char lt
                 (replaceAll "&"%char amp s))))
  end.

(** The entity of a code unit that has one, the code unit itself
    otherwise. *)
Definition escapeChar (c : ascii) : list ascii :=
  if Ascii.eqb c "&"%char then amp
  else if Ascii.eqb c "<"%char then lt
  else if Ascii.eqb c ">"%char then gt
  else if Ascii.eqb c dquote then quot
  else if Ascii.eqb c "'"%char then apos
  else [c].

(** The code units that end or open a tag or an attribute value. *)
Definition markup (c : ascii) : bool :=
  Ascii.eqb c "<"%char || Ascii.eqb c ">"%char
  || Ascii.eqb c dquote || Ascii.eqb c "'"%char.

End Escape.

(* ===================================================================== *)
(** * Facts about the route matcher *)
(* ===================================================================== *)

Module RouterFacts.
Import JsString RouterCore FindMatch Examples RouterSpec.

(** Induction over route trees, the children being covered by [Forall]. *)
Lemma RouteDef_tree_ind (P : RouteDef -> Prop) :
  (forall p c, P (mkRoute p c None)) ->
  (forall p c kids, Forall P kids -> P (mkRoute p c (Some kids))) ->
  forall r, P r.
Proof.
  intros Hleaf Hnode.
  fix IH 1. intros [p c [kids|]].
  - apply Hnode. induction kids as [|k kids IHk]; constructor; [apply IH | exact IHk].
  - apply Hleaf.
Qed.

Section Generic.
Variable leafTest : string -> string -> bool.

(** The children loop inside [tryRoute] is [findMatch] below the route. *)
Lemma tryRoute_eq p c ch cur parent st :
  tryRoute leafTest (mkRoute p c ch) cur parent st =
  let fullPath := fullPathOf parent p in
  match _extractParams fullPath cur (bool_decide (is_Some ch)) with
  | None => (false, st)
  | Some routeParams =>
      let st1 := pushRoute (mkRoute p c ch) routeParams st in
      match ch with
      | Some kids =>
          let '(ok, st2) := findMatch leafTest kids cur fullPath st1 in
          if ok then (true, st2) else (false, backtrack routeParams st2)
      | None =>
          if leafTest fullPath cur then (true, st1)
          else (false, backtrack routeParams st1)
      end
  end.
Proof.
  cbn -[_extractParams fullPathOf pushRoute backtrack].
  destruct (_extractParams _ _ _) as [rp|]; [|reflexivity].
  destruct ch as [kids|]; [|reflexivity].
  generalize (pushRoute (mkRoute p c (Some kids)) rp st) as s.
  induction kids as [|k ks IH]; intros s; [reflexivity|].
  cbn -[_extractParams fullPathOf pushRoute backtrack tryRoute].
  destruct (tryRoute leafTest k cur (fullPathOf parent p) s) as [[] s']; [reflexivity|].
  apply IH.
Qed.

Lemma lookup_deleteKeys (rp ps : gmap string string) k :
  deleteKeys rp ps !! k = match rp !! k with Some _ => None | None => ps !! k end.
Proof.
  unfold deleteKeys.
  apply (map_fold_weak_ind
    (fun acc (m : gmap string string) =>
       acc !! k = match m !! k with Some _ => None | None => ps !! k end)).
  - by rewrite lookup_empty.
  - intros i x m r Hi IH. destruct (decide (i = k)) as [->|Hne].
    + by rewrite lookup_delete_eq, lookup_insert_eq.
    + by rewrite lookup_delete_ne, lookup_insert_ne.
Qed.

(** Popping after a push gives the chain back. *)
Lemma removelast_snoc {A} (l : list A) x : removelast (l ++ [x]) = l.
Proof. by rewrite removelast_last. Qed.


Lemma backtrack_restores route rp st st2 :
  restores (pushRoute route rp st) st2 -> restores st (backtrack rp st2).
Proof.
  intros [Hm Hp]. split; simpl.
  - rewrite Hm. simpl. apply removelast_snoc.
  - apply map_subseteq_spec. intros k v. rewrite lookup_deleteKeys.
    destruct (rp !! k) eqn:Hk; [done|]. intros Hv.
    eapply lookup_weaken in Hv; [|exact Hp]. simpl in Hv.
    apply lookup_union_Some_raw in Hv as [Hv|[_ Hv]]; [congruence|done].
Qed.

Lemma tryRoute_fail_restores r : forall cur parent st st',
  tryRoute leafTest r cur parent st = (false, st') -> restores st st'.
Proof.
  induction r as [p c|p c kids IHkids] using RouteDef_tree_ind;
    intros cur parent st st'; rewrite tryRoute_eq; cbv zeta;
    destruct (_extractParams _ _ _) as [rp|].
  - destruct (leafTest _ _); [discriminate|]. intros [= <-].
    apply (backtrack_restores (mkRoute p c None)). by split.
  - intros [= <-]. by split.
  - destruct (findMatch leafTest kids cur (fullPathOf parent p) _) as [ok st2] eqn:Hfm.
    destruct ok; [discriminate|]. intros [= <-].
    apply (backtrack_restores (mkRoute p c (Some kids))).
    revert Hfm. generalize (pushRoute (mkRoute p c (Some kids)) rp st) as s.
    induction IHkids as [|k ks Hk _ IHks]; intros s; simpl.
    + intros [= <-]. by split.
    + destruct (tryRoute leafTest k cur (fullPathOf parent p) s) as [ok s'] eqn:Hk'.
      destruct ok; [discriminate|]. intros Hrest.
      apply Hk in Hk' as [Hm1 Hp1]. apply IHks in Hrest as [Hm2 Hp2].
      split; [congruence | by etrans].
  - intros [= <-]. by split.
Qed.

Lemma findMatch_fail_restores routes : forall cur parent st st',
  findMatch leafTest routes cur parent st = (false, st') -> restores st st'.
Proof.
  induction routes as [|r rs IH]; intros cur parent st st'; simpl.
  - intros [= <-]. by split.
  - destruct (tryRoute leafTest r cur parent st) as [ok s'] eqn:Hr.
    destruct ok; [discriminate|]. intros Hrest.
    apply tryRoute_fail_restores in Hr as [Hm1 Hp1].
    apply IH in Hrest as [Hm2 Hp2]. split; [congruence | by etrans].
Qed.

(** A route that [_extractParams] rejects is skipped without a trace. *)
Lemma tryRoute_rejected r cur parent st :
  _extractParams (fullPathOf parent (route_path r)) cur
     (bool_decide (is_Some (route_children r))) = None ->
  tryRoute leafTest r cur parent st = (false, st).
Proof. destruct r as [p c ch]. rewrite tryRoute_eq. simpl. by intros ->. Qed.

Lemma findMatch_skip_rejected pre : forall rest cur parent st,
  Forall (fun r => _extractParams (fullPathOf parent (route_path r)) cur
                     (bool_decide (is_Some (route_children r))) = None) pre ->
  findMatch leafTest (pre ++ rest) cur parent st
  = findMatch leafTest rest cur parent st.
Proof.
  induction pre as [|r pre IH]; intros rest cur parent st Hall; [done|].
  inversion Hall as [|? ? Hr Hpre]; subst. simpl.
  rewrite (tryRoute_rejected _ _ _ _ Hr). by apply IH.
Qed.

Lemma findMatch_app pre : forall rest cur parent st,
  findMatch leafTest (pre ++ rest) cur parent st
  = let '(ok, st') := findMatch leafTest pre cur parent st in
    if ok then (true, st') else findMatch leafTest rest cur parent st'.
Proof.
  induction pre as [|r pre IH]; intros rest cur parent st; [done|].
  simpl. destruct (tryRoute leafTest r cur parent st) as [[] s']; [done|].
  apply IH.
Qed.

(** Starting from the empty chain, a level at which no route matches leaves
    the empty chain and no parameter. *)
Lemma findMatch_fail_initial routes cur parent st' :
  findMatch leafTest routes cur parent {| matched := []; params := ∅ |} = (false, st') ->
  st' = {| matched := []; params := ∅ |}.
Proof.
  intros [Hm Hp]%findMatch_fail_restores. destruct st' as [m ps]. simpl in *.
  subst m. f_equal. apply map_empty. intros k.
  destruct (ps !! k) as [v|] eqn:Hk; [|done].
  eapply lookup_weaken in Hk; [|exact Hp]. by rewrite lookup_empty in Hk.
Qed.

End Generic.
End RouterFacts.

(** ** The matcher on small inputs *)

Module RouterExamples.
Import JsString RouterCore FindMatch Examples.

Example split_path : split "/" "/user/42" = [""; "user"; "42"].
Proof. reflexivity. Qed.

Example segments_skip_empty : segments "/user//42/" = ["user"; "42"].
Proof. reflexivity. Qed.

Example fullPath_child : fullPathOf "/admin" "users" = "/admin/users".
Proof. reflexivity. Qed.

Example fullPath_root : fullPathOf "" "/" = "/".
Proof. reflexivity. Qed.

Example fullPath_trailing : fullPathOf "" "/a//b/" = "/a/b".
Proof. reflexivity. Qed.

Example extract_param :
  _extractParams "/user/:id" "/user/42" false = Some {[ "id" := "42" ]}.
Proof. vm_compute. reflexivity. Qed.

Example extract_exact_rejects_longer :
  _extractParams "/admin" "/admin/users" false = None.
Proof. vm_compute. reflexivity. Qed.

Example extract_partial_accepts_longer :
  _extractParams "/admin" "/admin/users" true = Some ∅.
Proof. vm_compute. reflexivity. Qed.

Example extract_literal_mismatch :
  _extractParams "/user/:id" "/users/42" false = None.
Proof. vm_compute. reflexivity. Qed.

(** Nested success, in both versions: ['/admin/users'] gives
    [[Admin, AdminUsers]]. *)
Example nested_success_ts :
  RouterTs._matchRoute adminTable "/admin/users"
  = {| matched := [adminRoute; usersRoute]; params := ∅ |}.
Proof. vm_compute. reflexivity. Qed.

Example nested_success_alt :
  RouterAlt._matchRoute adminTable "/admin/users"
  = {| matched := [adminRoute; usersRoute]; params := ∅ |}.
Proof. vm_compute. reflexivity. Qed.

Example home_ts :
  RouterTs._matchRoute userTable "/" = {| matched := [homeRoute]; params := ∅ |}.
Proof. vm_compute. reflexivity. Qed.

(** A trailing slash is enough for [router.ts] to reject a literal leaf that
    [_extractParams] accepts; [part_000] accepts it. *)
Example trailing_slash_ts :
  RouterTs._matchRoute [mkRoute "/about" (Comp "About") None] "/about/"
  = {| matched := []; params := ∅ |}.
Proof. vm_compute. reflexivity. Qed.

Example trailing_slash_alt :
  RouterAlt._matchRoute [mkRoute "/about" (Comp "About") None] "/about/"
  = {| matched := [mkRoute "/about" (Comp "About") None]; params := ∅ |}.
Proof. vm_compute. reflexivity. Qed.

End RouterExamples.

(** ** Exact leaf matches *)

Module LeafMatch.
Import JsString RouterCore FindMatch Examples RouterSpec RouterFacts.


Lemma extractLoop_bindings patternParts : forall pathParts i acc,
  Forall2 segMatches patternParts (drop i pathParts) ->
  extractLoop patternParts pathParts i acc
  = Some (bindings patternParts (drop i pathParts) acc).
Proof.
  induction patternParts as [|p ps IH]; intros pathParts i acc HF; [done|].
  inversion HF as [|? v ? vs Hpv Hrest Hp Hdrop]; subst.
  assert (Hi : pathParts !! i = Some v).
  { pose proof (lookup_drop pathParts i 0) as Hl.
    rewrite <- Hdrop in Hl. simpl in Hl. by rewrite Nat.add_0_r in Hl. }
  assert (Hd : drop (S i) pathParts = vs).
  { pose proof (drop_S _ _ _ Hi) as Hd. rewrite <- Hdrop in Hd. congruence. }
  simpl. unfold nth_opt. rewrite Hi.
  destruct (startsWith ":" p) eqn:Hs.
  - rewrite IH; rewrite Hd; done.
  - destruct Hpv as [Hpv| ->]; [congruence|].
    rewrite String.eqb_refl. rewrite IH; rewrite Hd; done.
Qed.

(** With [partial = false], [_extractParams] accepts exactly when the
    segments match one by one, and returns the bindings. *)
Lemma extractParams_exact_match pattern path :
  Forall2 segMatches (segments pattern) (segments path) ->
  _extractParams pattern path false
  = Some (bindings (segments pattern) (segments path) ∅).
Proof.
  intros HF. unfold _extractParams.
  pose proof (Forall2_length _ _ _ HF) as Hlen. rewrite Hlen.
  rewrite Nat.eqb_refl. simpl.
  rewrite (extractLoop_bindings _ _ 0 ∅) by (by rewrite drop_0).
  by rewrite drop_0.
Qed.

(** The segments of a top-level route's absolute pattern are those of its
    own [path]: the slash put in front, the collapsing of slashes and the
    stripping of a trailing slash change no segment. *)
Lemma sameSegments_filter a b :
  a <> [] -> b <> [] -> sameSegments a b ->
  filter (fun p => truthy p = true) a = filter (fun p => truthy p = true) b.
Proof.
  destruct a as [|x a], b as [|y b]; try done. intros _ _ [[= ->] Ht]. simpl in Ht.
  rewrite !filter_cons. by rewrite Ht.
Qed.

Lemma split_nonempty sep s : split sep s <> [].
Proof.
  destruct s as [|c s]; [done|]. simpl.
  destruct (Ascii.eqb c sep); [done|]. by destruct (split sep s).
Qed.

Lemma split_cons_other sep c s :
  Ascii.eqb c sep = false ->
  split sep (String c s) = String c (default "" (head (split sep s))) :: tail (split sep s).
Proof.
  intros Hc. simpl. rewrite Hc.
  pose proof (split_nonempty sep s). by destruct (split sep s).
Qed.

Lemma collapseSlashes_segments s :
  sameSegments (split "/" (collapseSlashes s)) (split "/" s).
Proof.
  induction s as [|c s IH]; [done|].
  pose proof (split_nonempty "/" s) as Hs.
  pose proof (split_nonempty "/" (collapseSlashes s)) as Hcs.
  cbn [collapseSlashes]. destruct (Ascii.eqb c "/") eqn:Hc.
  - apply Ascii.eqb_eq in Hc as ->. destruct s as [|d s'].
    + done.
    + destruct (Ascii.eqb d "/") eqn:Hd.
      * apply Ascii.eqb_eq in Hd as ->. destruct IH as [Hh Ht].
        change (split "/" (String "/" (String "/" s')))
          with ("" :: "" :: split "/" s') in *.
        change (split "/" (String "/" s')) with ("" :: split "/" s') in *.
        destruct (split "/" (collapseSlashes (String "/" s'))) as [|w ws]; [done|].
        simpl in Hh, Ht. injection Hh as ->. split; [done|].
        simpl. by rewrite filter_cons.
      * change (split "/" (String "/" (collapseSlashes (String d s'))))
          with ("" :: split "/" (collapseSlashes (String d s'))).
        change (split "/" (String "/" (String d s')))
          with ("" :: split "/" (String d s')).
        split; [done|]. simpl. by apply sameSegments_filter.
  - rewrite !split_cons_other by done. destruct IH as [Hh Ht].
    split; simpl; [by rewrite Hh|done].
Qed.

Lemma dropLast_segments s :
  endsWith "/" s = true -> sameSegments (split "/" (dropLast s)) (split "/" s).
Proof.
  induction s as [|c s IH]; [done|]. destruct s as [|d s'].
  - simpl. intros ->%Ascii.eqb_eq. done.
  - intros He. change (endsWith "/" (String c (String d s')))
      with (endsWith "/" (String d s')) in He.
    specialize (IH He).
    change (dropLast (String c (String d s'))) with (String c (dropLast (String d s'))).
    set (t := String d s') in *. clearbody t.
    pose proof (split_nonempty "/" t) as Hs.
    pose proof (split_nonempty "/" (dropLast t)) as Hds.
    destruct (Ascii.eqb c "/") eqn:Hc.
    + apply Ascii.eqb_eq in Hc as ->.
      change (split "/" (String "/" (dropLast t))) with ("" :: split "/" (dropLast t)).
      change (split "/" (String "/" t)) with ("" :: split "/" t).
      split; [done|]. simpl. by apply sameSegments_filter.
    + rewrite !split_cons_other by done. destruct IH as [Hh Ht].
      split; simpl; [by rewrite Hh|done].
Qed.

Lemma sameSegments_trans a b c : sameSegments a b -> sameSegments b c -> sameSegments a c.
Proof. intros [H1 H2] [H3 H4]. split; congruence. Qed.

Lemma segments_fullPathOf_root rpath :
  segments (fullPathOf "" rpath) = segments rpath.
Proof.
  unfold fullPathOf, segments.
  change ("" ++ "/" ++ rpath) with (String "/" rpath).
  assert (Hroot : filter (fun p => truthy p = true) (split "/" (String "/" rpath))
                  = filter (fun p => truthy p = true) (split "/" rpath)).
  { change (split "/" (String "/" rpath)) with ("" :: split "/" rpath).
    by rewrite filter_cons. }
  rewrite <- Hroot.
  destruct (negb _ && endsWith "/" (collapseSlashes (String "/" rpath))) eqn:Hcond.
  - apply andb_true_iff in Hcond as [_ Hends].
    apply sameSegments_filter; [apply split_nonempty..|].
    eapply sameSegments_trans; [by apply dropLast_segments|].
    apply collapseSlashes_segments.
  - apply sameSegments_filter; [apply split_nonempty..|].
    apply collapseSlashes_segments.
Qed.

(** [part_000]: a childless top-level route whose pattern has as many
    segments as the path, each literal segment being the path's segment at
    its position, is an exact leaf match with the bindings of its parameter
    segments, provided no route before it in the table matches. *)
Lemma alt_exact_leaf pre rpath c post path :
  fst (RouterAlt.findMatch pre path "" {| matched := []; params := ∅ |}) = false ->
  Forall2 segMatches (segments rpath) (segments path) ->
  RouterAlt.findMatch (pre ++ mkRoute rpath c None :: post) path ""
      {| matched := []; params := ∅ |}
  = (true, {| matched := [mkRoute rpath c None];
              params := bindings (segments rpath) (segments path) ∅ |}).
Proof.
  intros Hpre HF. unfold RouterAlt.findMatch in *.
  rewrite findMatch_app.
  destruct (findMatch RouterAlt.leafTest pre path "" _) as [ok st'] eqn:Hfm.
  simpl in Hpre. subst ok. apply findMatch_fail_initial in Hfm as ->.
  cbn [findMatch]. rewrite tryRoute_eq. cbv zeta.
  replace (bool_decide (is_Some (@None (list RouteDef)))) with false
    by (symmetry; apply bool_decide_eq_false; by intros [? ?]).
  rewrite <- segments_fullPathOf_root in HF.
  rewrite (extractParams_exact_match _ _ HF).
  unfold RouterAlt.leafTest, pushRoute. simpl.
  by rewrite (right_id_L ∅ (∪)), segments_fullPathOf_root.
Qed.

(** [part_000] on the specification's example. *)
Lemma alt_user_example :
  RouterAlt._matchRoute userTable "/user/42"
  = {| matched := [userRoute]; params := {[ "id" := "42" ]} |}.
Proof. vm_compute. reflexivity. Qed.

(** [router.ts]: a childless route is accepted only if its absolute pattern
    is the request path itself, character by character. *)
Lemma ts_leaf_needs_literal_path p c cur parent st st' :
  tryRoute RouterTs.leafTest (mkRoute p c None) cur parent st = (true, st') ->
  fullPathOf parent p = cur.
Proof.
  rewrite tryRoute_eq. cbv zeta.
  destruct (_extractParams _ _ _); [|discriminate].
  unfold RouterTs.leafTest.
  destruct (String.eqb_spec (fullPathOf parent p) cur); [done|discriminate].
Qed.

(** C1. The claim says that for the table
    [[{path:'/', Home}, {path:'/user/:id', User}]] the path ['/user/42']
    matches with chain [[User]] and params [{id:'42'}]. The matcher of
    [src/src/router.ts] returns the empty chain and no parameter there: it
    accepts the route in [_extractParams], then compares the pattern text
    ['/user/:id'] with the path text ['/user/42'] and backtracks. *)
Theorem C1_router_ts_rejects_param_leaf :
  RouterTs._matchRoute userTable "/user/42" = {| matched := []; params := ∅ |}
  /\ _extractParams "/user/:id" "/user/42" false = Some {[ "id" := "42" ]}.
Proof. split; vm_compute; reflexivity. Qed.

End LeafMatch.

(** ** Parents whose children all fail *)

Module NestedBacktrack.
Import JsString RouterCore FindMatch Examples RouterSpec RouterFacts.

(** C6. For the table [[{path:'/admin', Admin, children:[{path:'users',
    AdminUsers}]}]] and the path ['/admin'] both versions of the matcher
    return the empty chain and no parameter. In general a route with declared
    children whose children all fail is not a match: it is popped, the chain
    is as before the attempt and no parameter of the attempt survives. *)
Theorem C6_parent_without_matching_child :
  (RouterTs._matchRoute adminTable "/admin" = {| matched := []; params := ∅ |}
   /\ RouterAlt._matchRoute adminTable "/admin" = {| matched := []; params := ∅ |})
  /\ forall leafTest p c kids cur parent st routeParams st2,
       _extractParams (fullPathOf parent p) cur true = Some routeParams ->
       findMatch leafTest kids cur (fullPathOf parent p)
         (pushRoute (mkRoute p c (Some kids)) routeParams st) = (false, st2) ->
       tryRoute leafTest (mkRoute p c (Some kids)) cur parent st
         = (false, backtrack routeParams st2)
       /\ matched (backtrack routeParams st2) = matched st
       /\ params (backtrack routeParams st2) ⊆ params st.
Proof.
  split; [split; vm_compute; reflexivity|].
  intros leafTest p c kids cur parent st rp st2 Hex Hkids.
  split.
  - rewrite tryRoute_eq. cbv zeta.
    replace (bool_decide (is_Some (Some kids))) with true
      by (symmetry; apply bool_decide_eq_true; eauto).
    by rewrite Hex, Hkids.
  - apply findMatch_fail_restores in Hkids.
    by apply (backtrack_restores (mkRoute p c (Some kids))) in Hkids.
Qed.

Lemma C6_witness :
  _extractParams (fullPathOf "" "/admin") "/admin" true = Some ∅
  /\ tryRoute RouterTs.leafTest adminRoute "/admin" ""
       {| matched := []; params := ∅ |}
     = (false, backtrack ∅ (pushRoute adminRoute ∅ {| matched := []; params := ∅ |})).
Proof.
  split; [vm_compute; reflexivity|].
  refine (proj1 (proj2 C6_parent_without_matching_child RouterTs.leafTest
            "/admin" Admin [usersRoute] "/admin" "" {| matched := []; params := ∅ |}
            ∅ _ _ _)).
  - vm_compute; reflexivity.
  - vm_compute; reflexivity.
Defined.

End NestedBacktrack.

(* ===================================================================== *)
(** * Facts about assignment to a plain object *)
(* ===================================================================== *)

Module ObjectFacts.
Import JsObject.

Lemma lookup_setProperty k v (obj : gmap string string) k' :
  setProperty k v obj !! k'
  = if decide (k = "__proto__") then obj !! k'
    else if decide (k = k') then Some v else obj !! k'.
Proof.
  unfold setProperty. destruct (String.eqb_spec k "__proto__") as [->|Hne].
  - by rewrite decide_True.
  - rewrite decide_False by done. destruct (decide (k = k')) as [->|Hk].
    + by rewrite lookup_insert_eq.
    + by rewrite lookup_insert_ne.
Qed.

Lemma dom_setProperty k v (obj : gmap string string) :
  dom (setProperty k v obj) = dom obj ∪ ({[ k ]} ∖ {[ "__proto__" ]}).
Proof.
  unfold setProperty. destruct (String.eqb_spec k "__proto__") as [->|Hne].
  - set_solver.
  - rewrite dom_insert_L. set_solver.
Qed.

End ObjectFacts.

(* ===================================================================== *)
(** * Facts about the query string *)
(* ===================================================================== *)

Module QueryFacts.
Import JsString JsObject RouterCore Navigation RouterSpec ObjectFacts.


Section WithDecoder.
Variable decodeURIComponent : string -> option string.


Lemma addPairs_lastOccurrence items : forall q0,
  decodable decodeURIComponent items ->
  exists q, addPairs decodeURIComponent q0 items = Some q
    /\ q !! "__proto__" = q0 !! "__proto__"
    /\ forall k, k <> "__proto__" ->
         q !! k = match lastOccurrence decodeURIComponent items k with
                  | Some v => Some v
                  | None => q0 !! k
                  end.
Proof.
  induction items as [|item rest IH]; intros q0 Hdec.
  - exists q0. by split.
  - inversion Hdec as [|? ? Hitem Hrest]; subst.
    cbn [addPairs lastOccurrence]. unfold addPair, contribution.
    fold (rawKey item). fold (rawValue item).
    destruct (truthy (rawKey item)) eqn:Hk.
    + destruct (Hitem eq_refl) as [[k' Hk'] [v' Hv']]. rewrite Hk', Hv'.
      destruct (IH (setProperty k' v' q0) Hrest) as (q & Hq & Hproto & Hlook).
      exists q. split; [exact Hq|]. split.
      * rewrite Hproto, lookup_setProperty.
        by destruct (decide (k' = "__proto__")).
      * intros k Hkp. rewrite (Hlook k Hkp), lookup_setProperty.
        destruct (lastOccurrence decodeURIComponent rest k); [done|].
        destruct (decide (k' = k)) as [->|Hne].
        -- by rewrite decide_False.
        -- by destruct (decide (k' = "__proto__")).
    + destruct (IH q0 Hrest) as (q & Hq & Hproto & Hlook).
      exists q. split; [exact Hq|]. split; [done|]. intros k Hkp. rewrite (Hlook k Hkp).
      by destruct (lastOccurrence decodeURIComponent rest k).
Qed.

Lemma split_no_separator sep item :
  split sep item = [item] -> nth_opt (split sep item) 1 = None.
Proof. by intros ->. Qed.

(** C10, amended. When the fragment has a query part whose pairs can all be
    decoded, [_getCurrentQuery] returns a mapping in which every key other
    than [__proto__] has the value of the last pair that carries it, and
    which never has the key [__proto__]; a pair without ['='] contributes
    the decoding of the empty string, which is the empty string; a pair with
    an empty key contributes nothing. *)
Theorem C10_query_last_pair_wins (b : Browser) (queryPart : string) :
  nth_opt (split "?" (slice1 (location_hash b))) 1 = Some queryPart ->
  truthy queryPart = true ->
  decodable decodeURIComponent (split "&" queryPart) ->
  exists q,
    _getCurrentQuery decodeURIComponent b = Some q
    /\ (forall k, k <> "__proto__" ->
          q !! k = lastOccurrence decodeURIComponent (split "&" queryPart) k)
    /\ q !! "__proto__" = None
    /\ (forall item k,
          split "=" item = [item] -> truthy item = true ->
          decodeURIComponent item = Some k ->
          decodeURIComponent "" = Some "" ->
          contribution decodeURIComponent item = Some (k, ""))
    /\ (forall item, rawKey item = "" -> contribution decodeURIComponent item = None).
Proof.
  intros Hq Ht Hdec. unfold _getCurrentQuery. rewrite Hq, Ht.
  destruct (addPairs_lastOccurrence _ ∅ Hdec) as (q & Hadd & Hproto & Hlook).
  exists q. split; [exact Hadd|]. split; [|split; [|split]].
  - intros k Hk. rewrite (Hlook k Hk). destruct (lastOccurrence _ _ k); [done|].
    by rewrite lookup_empty.
  - by rewrite Hproto, lookup_empty.
  - intros item k Hsplit Hitem Hk He. unfold contribution, rawKey, rawValue.
    rewrite Hsplit. cbn. by rewrite Hitem, Hk, He.
  - intros item Hk. unfold contribution. by rewrite Hk.
Qed.

End WithDecoder.

(** C10, as stated for every key, fails: for the fragment
    [#/s?__proto__=x] the last (and only) pair that carries the key
    [__proto__] has the value [x], and the mapping returned has no such
    key. The strings involved hold no escape, so decoding leaves them as
    they are. *)
Lemma C10_counterexample : ~ lastPairWins plainDecoder.
Proof.
  intros H.
  specialize (H (browserAt "#/s?__proto__=x") "__proto__=x" ∅ eq_refl eq_refl eq_refl
                "__proto__").
  vm_compute in H. discriminate.
Qed.

Lemma C10_witness :
  exists q,
    _getCurrentQuery plainDecoder searchBrowser = Some q
    /\ q !! "q" = Some "2" /\ q !! "flag" = Some "" /\ q !! "" = None
    /\ q !! "__proto__" = None.
Proof.
  destruct (C10_query_last_pair_wins plainDecoder searchBrowser "q=1&flag&=x&q=2")
    as (q & Hq & Hlook & Hproto & _).
  - vm_compute; reflexivity.
  - vm_compute; reflexivity.
  - unfold decodable. vm_compute. repeat constructor; eauto.
  - exists q. split; [exact Hq|]. rewrite !Hlook by done. vm_compute. auto.
Defined.

End QueryFacts.

(* ===================================================================== *)
(** * Facts about navigation guards *)
(* ===================================================================== *)

Module GuardFacts.
Import JsString RouterCore Navigation Examples RouterSpec.


Lemma getCurrentPath_push p b :
  plainPath p -> _getCurrentPath (push p b) = p.
Proof.
  intros (Ht & Hs & Hq & He). unfold _getCurrentPath, push, setHash. simpl.
  rewrite Hs, He, Ht. simpl. change ("" ++ p) with p. rewrite Hq. simpl. by rewrite Ht.
Qed.

(** A redirect target with a space: the location holds the space as [%20],
    and the path is not decoded when it is read back, so the route committed
    for [next('/my page')] is ['/my%20page']. *)
Lemma getCurrentPath_push_escaped b :
  _getCurrentPath (push "/my page" b) = "/my%20page".
Proof. reflexivity. Qed.

(** The characters kept as they are by the location. *)
Lemma encodeFragment_kept s :
  Forall (fun c => tabOrNewline c = false /\ inFragmentEncodeSet c = false)
         (list_ascii_of_string s) ->
  encodeFragment s = s.
Proof.
  induction s as [|c s IH]; [done|]. simpl. intros H.
  apply Forall_cons in H as [[-> ->] H]. by rewrite IH.
Qed.

Section WithRouter.
Variable decodeURIComponent : string -> option string.
Variable _matchRoute : list RouteDef -> string -> MatchState.
Variable routes : list RouteDef.

Local Abbreviation handle := (_handleRouteChange decodeURIComponent _matchRoute routes).
Local Abbreviation dispatch := (dispatchHashchange decodeURIComponent _matchRoute routes).



End WithRouter.



End GuardFacts.
(* ===================================================================== *)
(** * Facts about signals and effects *)
(* ===================================================================== *)

Module ReactiveFacts.
Import Reactive ReactiveSpec.
#[local] Open Scope list_scope.



Lemma extends_refl st : extends st st.
Proof. split; [done|done|]. intros s cell H. by exists cell. Qed.

Lemma extends_trans st1 st2 st3 : extends st1 st2 -> extends st2 st3 -> extends st1 st3.
Proof.
  intros [L1 E1 S1] [L2 E2 S2]. split.
  - by etrans.
  - auto.
  - intros s cell H. destruct (S1 _ _ H) as (c2 & H2 & P2).
    destruct (S2 _ _ H2) as (c3 & H3 & P3). exists c3. split; [done|by etrans].
Qed.

Lemma extends_subscribersOf st st' s :
  extends st st' -> subscribersOf s st `prefix_of` subscribersOf s st'.
Proof.
  intros [_ _ HS]. unfold subscribersOf.
  destruct (signals st !! s) as [cell|] eqn:H; [|apply prefix_nil].
  destruct (HS _ _ H) as (c' & -> & P). exact P.
Qed.

Lemma setAdd_prefix e subs : subs `prefix_of` setAdd e subs.
Proof. unfold setAdd. case_bool_decide; [done|]. by apply prefix_app_r. Qed.

Lemma elem_of_setAdd e subs : e ∈ setAdd e subs.
Proof. unfold setAdd. case_bool_decide; [done|]. set_solver. Qed.

Lemma extends_record ev st : extends st (record ev st).
Proof.
  split; simpl; [by apply prefix_app_r|done|]. intros s cell H. by exists cell.
Qed.

Lemma extends_setCurrent c st : extends st (setCurrent c st).
Proof. split; simpl; [done|done|]. intros s cell H. by exists cell. Qed.

Lemma extends_read s st : extends st (snd (read s st)).
Proof.
  unfold read. destruct (signals st !! s) as [cell|] eqn:Hs; [|apply extends_refl].
  destruct (_currentEffect st) as [e|]; simpl; [|apply extends_record].
  split; simpl; [by apply prefix_app_r|done|].
  intros s' cell' H'. destruct (decide (s = s')) as [<-|Hne].
  - rewrite list_lookup_insert_eq by (by eapply lookup_lt_Some).
    eexists. split; [done|]. simpl. rewrite Hs in H'. injection H' as <-.
    apply setAdd_prefix.
  - rewrite list_lookup_insert_ne by done. by exists cell'.
Qed.

Lemma extends_store s x st : extends st (store s x st).
Proof.
  unfold store. destruct (signals st !! s) as [cell|] eqn:Hs; [|apply extends_refl].
  split; simpl; [done|done|].
  intros s' cell' H'. destruct (decide (s = s')) as [<-|Hne].
  - rewrite list_lookup_insert_eq by (by eapply lookup_lt_Some).
    eexists. split; [done|]. simpl. rewrite Hs in H'. by injection H' as <-.
  - rewrite list_lookup_insert_ne by done. by exists cell'.
Qed.

Lemma extends_addEffect c st : extends st (setEffects (effects st ++ [c]) st).
Proof.
  split; simpl; [done| |].
  - intros e [x Hx]. exists x. by apply lookup_app_l_Some.
  - intros s cell H. by exists cell.
Qed.

Lemma extends_setCleanupVar e st : extends st (setCleanupVar e st).
Proof.
  unfold setCleanupVar. destruct (effects st !! e) as [c|] eqn:He; [|apply extends_refl].
  split; simpl; [done| |].
  - intros e' [x Hx]. destruct (decide (e = e')) as [<-|Hne].
    + rewrite list_lookup_insert_eq by (by eapply lookup_lt_Some). eauto.
    + rewrite list_lookup_insert_ne by done. eauto.
  - intros s cell H. by exists cell.
Qed.

(** Whatever runs, the state it returns comes after the one it started in. *)
Lemma run_extends fuel :
  (forall fn st st', execBody fuel fn st = Some st' -> extends st st')
  /\ (forall e st st', effect fuel e st = Some st' -> extends st st')
  /\ (forall s i st st', notifyFrom fuel s i st = Some st' -> extends st st').
Proof.
  induction fuel as [|fuel (IHb & IHe & IHn)]; [by repeat split|].
  assert (Hw : forall s x st st', writeWith (notifyFrom fuel) s x st = Some st' ->
                                  extends st st').
  { intros s x st st'. unfold writeWith.
    destruct (signals st !! s); [|intros [= <-]; apply extends_refl].
    destruct (_ && _); [intros [= <-]; apply extends_refl|].
    intros H%IHn. eapply extends_trans; [apply extends_store|done]. }
  assert (Hrun : forall c st st', effect fuel (List.length (effects st))
                     (setEffects (effects st ++ [c]) st) = Some st' -> extends st st').
  { intros c st st' H%IHe. eapply extends_trans; [apply extends_addEffect|done]. }
  split; [|split].
  - intros fn st st'. simpl. destruct fn as [|[s|s x|s thn els|fn'|fn' ret] rest].
    + intros [= <-]. apply extends_refl.
    + intros H%IHb. eapply extends_trans; [apply extends_read|done].
    + destruct (writeWith _ s x st) as [st1|] eqn:H1; [|done].
      intros H%IHb. apply Hw in H1. by eapply extends_trans.
    + destruct (read s st) as [x st1] eqn:Hr. intros H%IHb.
      pose proof (extends_read s st) as Hx. rewrite Hr in Hx.
      by eapply extends_trans.
    + unfold createEffectWith.
      destruct (effect fuel _ _) as [st1|] eqn:H1; [|done].
      intros H%IHb. apply Hrun in H1. by eapply extends_trans.
    + unfold createEffectWithCleanupWith.
      destruct (effect fuel _ _) as [st1|] eqn:H1; [|done].
      intros H%IHb. apply Hrun in H1. by eapply extends_trans.
  - intros e st st'. simpl. destruct (effects st !! e) as [c|]; [|done].
    assert (H0 : extends st (setCurrent (Some e) (record (Ran e) st)))
      by (eapply extends_trans; [apply extends_record|apply extends_setCurrent]).
    destruct (has_cleanup_slot c).
    + destruct (match cleanup_var c with Some cl => _ | None => _ end) as [st2|] eqn:H2;
        [|done].
      destruct (execBody fuel (fn_body c) st2) as [st3|] eqn:H3; [|done].
      intros [= <-]. apply IHb in H3.
      assert (extends (setCurrent (Some e) (record (Ran e) st)) st2).
      { destruct (cleanup_var c); [by apply IHb in H2|].
        injection H2 as <-. apply extends_refl. }
      eapply extends_trans; [exact H0|]. eapply extends_trans; [eassumption|].
      eapply extends_trans; [exact H3|].
      eapply extends_trans; [apply extends_setCleanupVar|apply extends_setCurrent].
    + destruct (execBody fuel (fn_body c) _) as [st2|] eqn:H2; [|done].
      intros [= <-]. apply IHb in H2.
      eapply extends_trans; [exact H0|]. eapply extends_trans; [exact H2|].
      apply extends_setCurrent.
  - intros s i st st'. simpl. destruct (signals st !! s) as [cell|];
      [|intros [= <-]; apply extends_refl].
    destruct (subscribers cell !! i) as [e|]; [|intros [= <-]; apply extends_refl].
    destruct (effect fuel e st) as [st1|] eqn:H1; [|done].
    intros H%IHn. apply IHe in H1. by eapply extends_trans.
Qed.

Lemma write_extends fuel s x st st' :
  write fuel s x st = Some st' -> extends st st'.
Proof.
  unfold write, writeWith.
  destruct (signals st !! s); [|intros [= <-]; apply extends_refl].
  destruct (_ && _); [intros [= <-]; apply extends_refl|].
  intros H. apply (proj2 (proj2 (run_extends fuel))) in H.
  eapply extends_trans; [apply extends_store|done].
Qed.

Lemma createEffect_extends fuel fn st d st' :
  createEffect fuel fn st = Some (d, st') -> extends st st'.
Proof.
  unfold createEffect, createEffectWith.
  destruct (effect fuel _ _) as [st1|] eqn:H1; [|done]. intros [= _ <-].
  apply (proj1 (proj2 (run_extends fuel))) in H1.
  eapply extends_trans; [apply extends_addEffect|done].
Qed.

Lemma createEffectWithCleanup_extends fuel fn ret st d st' :
  createEffectWithCleanup fuel fn ret st = Some (d, st') -> extends st st'.
Proof.
  unfold createEffectWithCleanup, createEffectWithCleanupWith.
  destruct (effect fuel _ _) as [st1|] eqn:H1; [|done]. intros [= _ <-].
  apply (proj1 (proj2 (run_extends fuel))) in H1.
  eapply extends_trans; [apply extends_addEffect|done].
Qed.

Lemma newEvents_refl st : newEvents st st = [].
Proof. unfold newEvents. by rewrite drop_all. Qed.

Lemma newEvents_app st st' : extends st st' -> log st' = log st ++ newEvents st st'.
Proof.
  intros [[k Hk] _ _]. unfold newEvents. rewrite Hk.
  by rewrite drop_app_length.
Qed.

Lemma newEvents_trans st1 st2 st3 :
  extends st1 st2 -> extends st2 st3 ->
  newEvents st1 st3 = newEvents st1 st2 ++ newEvents st2 st3.
Proof.
  intros H12 H23.
  pose proof (newEvents_app _ _ H12) as E12.
  pose proof (newEvents_app _ _ H23) as E23.
  pose proof (newEvents_app _ _ (extends_trans _ _ _ H12 H23)) as E13.
  rewrite E23, E12, <- app_assoc in E13. by apply app_inv_head in E13.
Qed.

(** Running effect closure [e] records [Ran e]. *)
Lemma effect_records_run fuel e st st' :
  effect fuel e st = Some st' -> Ran e ∈ newEvents st st'.
Proof.
  intros H. pose proof (proj1 (proj2 (run_extends fuel)) _ _ _ H) as Hext.
  destruct fuel as [|fuel]; [done|]. simpl in H.
  destruct (effects st !! e) as [c|]; [|done].
  set (st1 := setCurrent (Some e) (record (Ran e) st)) in *.
  assert (H01 : extends st st1)
    by (eapply extends_trans; [apply extends_record|apply extends_setCurrent]).
  assert (Hin : Ran e ∈ newEvents st st1).
  { unfold newEvents, st1. simpl. rewrite drop_app_length. set_solver. }
  assert (H1' : extends st1 st').
  { destruct (has_cleanup_slot c).
    - destruct (match cleanup_var c with Some cl => _ | None => _ end) as [st2|] eqn:H2;
        [|done].
      destruct (execBody fuel (fn_body c) st2) as [st3|] eqn:H3; [|done].
      injection H as <-. apply (proj1 (run_extends fuel)) in H3.
      assert (extends st1 st2).
      { destruct (cleanup_var c); [by apply (proj1 (run_extends fuel)) in H2|].
        injection H2 as <-. apply extends_refl. }
      eapply extends_trans; [eassumption|]. eapply extends_trans; [exact H3|].
      eapply extends_trans; [apply extends_setCleanupVar|apply extends_setCurrent].
    - destruct (execBody fuel (fn_body c) st1) as [st2|] eqn:H2; [|done].
      injection H as <-. apply (proj1 (run_extends fuel)) in H2.
      eapply extends_trans; [exact H2|apply extends_setCurrent]. }
  rewrite (newEvents_trans _ _ _ H01 H1'). set_solver.
Qed.

(** [forEach] reaches every subscriber that is in the set when it starts
    (from position [i] on) and runs it. *)
Lemma notifyFrom_runs_all fuel : forall s i st st',
  notifyFrom fuel s i st = Some st' ->
  forall j e, i <= j -> subscribersOf s st !! j = Some e ->
  Ran e ∈ newEvents st st'.
Proof.
  induction fuel as [|fuel IH]; intros s i st st' H j e Hij Hj; [done|].
  simpl in H. unfold subscribersOf in Hj.
  destruct (signals st !! s) as [cell|] eqn:Hs; [|done].
  destruct (subscribers cell !! i) as [e0|] eqn:Hi.
  2:{ apply lookup_ge_None in Hi. apply lookup_lt_Some in Hj. lia. }
  destruct (effect fuel e0 st) as [st1|] eqn:H1; [|done].
  pose proof (proj1 (proj2 (run_extends fuel)) _ _ _ H1) as E1.
  pose proof (proj2 (proj2 (run_extends fuel)) _ _ _ _ H) as E2.
  rewrite (newEvents_trans _ _ _ E1 E2).
  destruct (decide (i = j)) as [<-|Hne].
  - rewrite Hi in Hj. injection Hj as <-.
    apply effect_records_run in H1. set_solver.
  - assert (Hj1 : subscribersOf s st1 !! j = Some e).
    { pose proof (extends_subscribersOf _ _ s E1) as P.
      unfold subscribersOf in P at 1. rewrite Hs in P.
      by eapply prefix_lookup_Some. }
    pose proof (IH s (S i) st1 st' H j e ltac:(lia) Hj1). set_solver.
Qed.

Lemma subscribersOf_store s s' x st :
  subscribersOf s' (store s x st) = subscribersOf s' st.
Proof.
  unfold subscribersOf, store.
  destruct (signals st !! s) as [cell|] eqn:Hs; [|done]. simpl.
  destruct (decide (s = s')) as [<-|Hne].
  - rewrite list_lookup_insert_eq by (by eapply lookup_lt_Some). by rewrite Hs.
  - by rewrite list_lookup_insert_ne.
Qed.

Lemma log_store s x st : log (store s x st) = log st.
Proof. unfold store. by destruct (signals st !! s). Qed.

Lemma valueOf_store s x st cell :
  signals st !! s = Some cell -> valueOf s (store s x st) = x.
Proof.
  intros Hs. unfold valueOf, store. rewrite Hs. simpl.
  by rewrite list_lookup_insert_eq by (by eapply lookup_lt_Some).
Qed.

(** A notifying write runs every effect subscribed at that moment. *)
Lemma write_runs_subscribers fuel s x st st' cell :
  signals st !! s = Some cell ->
  isPrimitive x && strictEq (value cell) x = false ->
  write fuel s x st = Some st' ->
  forall e, e ∈ subscribers cell -> Ran e ∈ newEvents st st'.
Proof.
  intros Hs Hne H e He. unfold write, writeWith in H. rewrite Hs, Hne in H.
  apply list_elem_of_lookup in He as [j Hj].
  assert (Hj' : subscribersOf s (store s x st) !! j = Some e).
  { rewrite subscribersOf_store. unfold subscribersOf. by rewrite Hs. }
  pose proof (notifyFrom_runs_all _ _ _ _ _ H j e ltac:(lia) Hj') as Hin.
  unfold newEvents in *. by rewrite log_store in Hin.
Qed.

(** ** Termination for effects that only read *)

Section ReadOnly.
Import ReadOnlyEffects.

Lemma bodySize_app a b : bodySize (a ++ b) = bodySize a + bodySize b.
Proof. unfold bodySize. by rewrite map_app, list_sum_app. Qed.

Lemma readOnly_app a b : readOnly (a ++ b) = readOnly a && readOnly b.
Proof. unfold readOnly. apply forallb_app. Qed.

(** What a read changes. *)
Lemma read_effects s st : effects (snd (read s st)) = effects st.
Proof.
  unfold read. destruct (signals st !! s); [|done]. by destruct (_currentEffect st).
Qed.

Lemma read_current s st : _currentEffect (snd (read s st)) = _currentEffect st.
Proof.
  unfold read. destruct (signals st !! s); [|done].
  by destruct (_currentEffect st) eqn:E.
Qed.

Lemma read_valueOf s s' st : valueOf s' (snd (read s st)) = valueOf s' st.
Proof.
  unfold read, valueOf. destruct (signals st !! s) as [cell|] eqn:Hs; [|done].
  destruct (_currentEffect st); [|done]. simpl.
  destruct (decide (s = s')) as [<-|Hne].
  - rewrite list_lookup_insert_eq by (by eapply lookup_lt_Some). by rewrite Hs.
  - by rewrite list_lookup_insert_ne.
Qed.

Lemma read_subscribersOf s s' st :
  subscribersOf s' (snd (read s st))
  = match _currentEffect st, signals st !! s with
    | Some e, Some _ => if decide (s = s') then setAdd e (subscribersOf s' st)
                        else subscribersOf s' st
    | _, _ => subscribersOf s' st
    end.
Proof.
  unfold read, subscribersOf. destruct (signals st !! s) as [cell|] eqn:Hs.
  2:{ by destruct (_currentEffect st). }
  destruct (_currentEffect st) as [e|]; [|done]. simpl.
  destruct (decide (s = s')) as [<-|Hne].
  - rewrite list_lookup_insert_eq by (by eapply lookup_lt_Some). by rewrite Hs.
  - by rewrite list_lookup_insert_ne.
Qed.

Lemma setAdd_elem e subs : e ∈ subs -> setAdd e subs = subs.
Proof. intros H. unfold setAdd. by rewrite bool_decide_eq_true_2. Qed.

Lemma elem_of_setAdd_inv e e' subs : e' ∈ setAdd e subs -> e' = e \/ e' ∈ subs.
Proof.
  unfold setAdd. case_bool_decide; [auto|].
  intros [Hin| ->%list_elem_of_singleton]%elem_of_app; auto.
Qed.


Lemma readOutcome_refl st : readOutcome st st.
Proof. split; auto. Qed.

Lemma readOutcome_read s st : readOutcome st (snd (read s st)).
Proof.
  split.
  - apply read_effects.
  - apply read_current.
  - intros s'. apply read_valueOf.
  - intros s' e. rewrite read_subscribersOf.
    destruct (_currentEffect st) as [e0|]; [|auto].
    destruct (signals st !! s); [|auto]. destruct (decide (s = s')); [|auto].
    intros [->|H]%elem_of_setAdd_inv; auto.
  - intros s' e Hc He. rewrite read_subscribersOf, Hc.
    destruct (signals st !! s); [|done]. destruct (decide (s = s')); [|done].
    by apply setAdd_elem.
Qed.

Lemma readOutcome_trans st1 st2 st3 :
  readOutcome st1 st2 -> readOutcome st2 st3 -> readOutcome st1 st3.
Proof.
  intros [E1 C1 V1 A1 K1] [E2 C2 V2 A2 K2]. split.
  - congruence.
  - congruence.
  - intros s. by rewrite V2.
  - intros s e H. destruct (A2 _ _ H) as [H'|H']; [auto|]. right. congruence.
  - intros s e Hc He.
    rewrite (K2 s e); [by apply (K1 s e) | congruence | by rewrite (K1 _ _ Hc He)].
Qed.

Lemma execBody_readOnly fuel : forall fn st,
  readOnly fn = true -> bodySize fn < fuel ->
  exists st', execBody fuel fn st = Some st' /\ readOutcome st st'.
Proof.
  induction fuel as [|fuel IH]; intros fn st Hro Hsz; [lia|].
  destruct fn as [|c rest]; [exists st; split; [done|apply readOutcome_refl]|].
  change (c :: rest) with ([c] ++ rest) in Hro, Hsz.
  rewrite readOnly_app in Hro. rewrite bodySize_app in Hsz.
  apply andb_true_iff in Hro as [Hc Hrest].
  unfold readOnly in Hc. simpl in Hc. rewrite andb_true_r in Hc.
  unfold bodySize at 1 in Hsz. simpl in Hsz. rewrite Nat.add_0_r in Hsz.
  destruct c as [s|s x|s thn els|fn'|fn' ret]; try discriminate; simpl.
  - destruct (IH rest (snd (read s st)) Hrest ltac:(simpl in Hsz; lia)) as (st' & H & R).
    exists st'. split; [done|]. eapply readOutcome_trans; [apply readOutcome_read|done].
  - simpl in Hc, Hsz. apply andb_true_iff in Hc as [Ht He].
    destruct (read s st) as [x st1] eqn:Hr.
    assert (R1 : readOutcome st st1).
    { pose proof (readOutcome_read s st) as R. by rewrite Hr in R. }
    destruct (IH ((if truthyVal x then thn else els) ++ rest) st1) as (st' & H & R).
    + rewrite readOnly_app, Hrest. unfold readOnly.
      by destruct (truthyVal x); rewrite ?Ht, ?He.
    + rewrite bodySize_app. unfold bodySize at 1.
      destruct (truthyVal x); lia.
    + exists st'. split; [done|]. by eapply readOutcome_trans.
Qed.

End ReadOnly.

Section ReadOnlyRuns.
Import ReadOnlyEffects.


Lemma bodySize_le_runFuel st e c :
  effects st !! e = Some c -> bodySize (fn_body c) + 2 <= runFuel st.
Proof.
  intros He. unfold runFuel.
  assert (bodySize (fn_body c) <= list_max (map (fun c => bodySize (fn_body c)) (effects st))).
  { assert (Hin : In (bodySize (fn_body c))
                     (map (fun c => bodySize (fn_body c)) (effects st))).
    { apply in_map_iff. exists c. split; [done|].
      apply list_elem_of_In. by eapply list_elem_of_lookup_2. }
    pose proof (proj1 (list_max_le (map (fun c => bodySize (fn_body c)) (effects st)) _)
                  (Nat.le_refl _)) as Hall.
    rewrite List.Forall_forall in Hall. by apply Hall. }
  lia.
Qed.

Lemma effect_quiet fuel e st c :
  quiet st -> effects st !! e = Some c -> bodySize (fn_body c) + 2 <= fuel ->
  exists st', effect fuel e st = Some st' /\ runOutcome e st st'.
Proof.
  intros Hq He Hfuel. destruct fuel as [|fuel]; [lia|]. simpl. rewrite He.
  unfold quiet in Hq. rewrite Forall_lookup in Hq.
  destruct (Hq _ _ He) as [-> Hro].
  set (st1 := setCurrent (Some e) (record (Ran e) st)).
  destruct (execBody_readOnly fuel (fn_body c) st1 Hro ltac:(lia))
    as (st2 & -> & [E C V A K]).
  eexists. split; [reflexivity|]. split; simpl.
  - by rewrite E.
  - done.
  - intros s. unfold valueOf in *. simpl. by rewrite (V s).
  - intros s e' H. destruct (A s e' H) as [H'|H']; [by left|].
    right. simpl in H'. congruence.
  - intros s H. apply (K s e); [done|exact H].
Qed.

Lemma runOutcome_valid e st st' :
  is_Some (effects st !! e) -> subscribersValid st -> runOutcome e st st' ->
  subscribersValid st'.
Proof.
  intros He Hv [E _ _ A _] s e' H. rewrite E.
  destruct (A _ _ H) as [H'| ->]; [by eapply Hv|done].
Qed.

Lemma runOutcome_quiet e st st' : quiet st -> runOutcome e st st' -> quiet st'.
Proof. intros Hq [E _ _ _ _]. unfold quiet. by rewrite E. Qed.


Lemma notifyFrom_quiet k : forall s i st fuel,
  quiet st -> subscribersValid st ->
  List.length (subscribersOf s st) - i <= k ->
  k + runFuel st + 1 <= fuel ->
  exists st', notifyFrom fuel s i st = Some st' /\ notifyOutcome s st st'.
Proof.
  induction k as [|k IH]; intros s i st fuel Hq Hv Hlen Hfuel;
    (destruct fuel as [|fuel]; [lia|]); simpl;
    pose proof (eq_refl (subscribersOf s st)) as Hsub;
    unfold subscribersOf at 1 in Hsub;
    (destruct (signals st !! s) as [cell|] eqn:Hs;
       [|exists st; split; [done|split; auto]]);
    (destruct (subscribers cell !! i) as [e|] eqn:Hi;
       [|exists st; split; [done|split; auto]]).
  - apply lookup_lt_Some in Hi. rewrite <- Hsub in Hlen. lia.
  - assert (Hin : e ∈ subscribersOf s st)
      by (rewrite <- Hsub; by eapply list_elem_of_lookup_2).
    destruct (Hv _ _ Hin) as [c Hc].
    pose proof (bodySize_le_runFuel _ _ _ Hc) as Hb.
    destruct (effect_quiet fuel e st c Hq Hc ltac:(lia)) as (st1 & -> & R).
    pose proof (runOutcome_quiet _ _ _ Hq R) as Hq1.
    pose proof (runOutcome_valid _ _ _ (mk_is_Some _ _ Hc) Hv R) as Hv1.
    destruct R as [E C V A K].
    assert (Hfuel1 : runFuel st1 = runFuel st) by (unfold runFuel; by rewrite E).
    apply lookup_lt_Some in Hi. rewrite Hsub in Hi.
    destruct (IH s (S i) st1 fuel Hq1 Hv1) as (st' & H' & [E' V' S' W' C']).
    + rewrite (K s Hin). lia.
    + lia.
    + exists st'. split; [exact H'|]. split.
      * congruence.
      * intros s'. by rewrite V'.
      * by rewrite S', (K s Hin).
      * exact W'.
      * right. destruct C' as [C'|C']; congruence.
Qed.

Lemma store_effects s x st : effects (store s x st) = effects st.
Proof. unfold store. by destruct (signals st !! s). Qed.

Lemma store_current s x st : _currentEffect (store s x st) = _currentEffect st.
Proof. unfold store. by destruct (signals st !! s). Qed.

(** With effects that only read, a notifying write returns, given fuel for
    one run per subscriber, and the value it stored is still there. *)
Lemma write_quiet fuel s x st cell :
  quiet st -> subscribersValid st ->
  signals st !! s = Some cell ->
  isPrimitive x && strictEq (value cell) x = false ->
  List.length (subscribers cell) + runFuel st + 1 <= fuel ->
  exists st', write fuel s x st = Some st' /\ valueOf s st' = x
              /\ subscribersOf s st' = subscribers cell.
Proof.
  intros Hq Hv Hs Hne Hfuel. unfold write, writeWith. rewrite Hs, Hne.
  assert (Hsub : subscribersOf s (store s x st) = subscribers cell).
  { rewrite subscribersOf_store. unfold subscribersOf. by rewrite Hs. }
  destruct (notifyFrom_quiet (List.length (subscribers cell)) s 0 (store s x st) fuel)
    as (st' & H & [E V S W C]).
  - unfold quiet. by rewrite store_effects.
  - intros s' e. rewrite subscribersOf_store, store_effects. apply Hv.
  - rewrite Hsub. lia.
  - unfold runFuel in *. rewrite store_effects. lia.
  - exists st'. split; [exact H|]. split.
    + rewrite V. by eapply valueOf_store.
    + by rewrite S.
Qed.

End ReadOnlyRuns.

Lemma effect_current_None fuel e st st' :
  effect fuel e st = Some st' -> _currentEffect st' = None.
Proof.
  destruct fuel as [|fuel]; [done|]. simpl.
  destruct (effects st !! e) as [c|]; [|done].
  destruct (has_cleanup_slot c).
  - destruct (match cleanup_var c with Some cl => _ | None => _ end); [|done].
    destruct (execBody fuel (fn_body c) _); [|done]. by intros [= <-].
  - destruct (execBody fuel (fn_body c) _); [|done]. by intros [= <-].
Qed.

(** Without a tracking context a read changes no subscriber set. *)
Lemma read_untracked s st :
  _currentEffect st = None ->
  signals (snd (read s st)) = signals st
  /\ fst (read s st) = valueOf s st.
Proof.
  intros Hc. unfold read, valueOf. destruct (signals st !! s); [|done].
  by rewrite Hc.
Qed.

Lemma read_tracked s st e cell :
  signals st !! s = Some cell -> _currentEffect st = Some e ->
  e ∈ subscribersOf s (snd (read s st)).
Proof.
  intros Hs Hc. rewrite read_subscribersOf, Hc, Hs.
  rewrite decide_True by done. apply elem_of_setAdd.
Qed.

Lemma extends_keeps_subscriber st st' s e :
  extends st st' -> e ∈ subscribersOf s st -> e ∈ subscribersOf s st'.
Proof.
  intros Hext He. pose proof (extends_subscribersOf _ _ s Hext) as [k Hk].
  rewrite Hk. set_solver.
Qed.

End ReactiveFacts.

(* ===================================================================== *)
(** * The claims about signals and effects *)
(* ===================================================================== *)

Module SignalClaims.
Import Reactive ReactiveSpec ReadOnlyEffects ReactiveFacts Scenarios ScenarioRuns.
#[local] Open Scope list_scope.

(** C5. [write(next)] on a signal holding [value cell]:
    - a primitive [next] that is [===] to the held value returns at once,
      the whole state unchanged;
    - any other [next] is stored and then the subscriber set is walked, each
      effect in it being run; with effects that only read, the walk ends and
      the stored value is still there;
    - an object or a function is never primitive, so writing one always
      takes the second branch, also for the reference already held. *)
Theorem C5_write_skips_or_notifies fuel s next st cell :
  signals st !! s = Some cell ->
  (isPrimitive next = true -> strictEq (value cell) next = true ->
     write fuel s next st = Some st)
  /\ (isPrimitive next && strictEq (value cell) next = false ->
        write fuel s next st = notifyFrom fuel s 0 (store s next st)
        /\ valueOf s (store s next st) = next
        /\ subscribersOf s (store s next st) = subscribers cell
        /\ (forall st', write fuel s next st = Some st' ->
              forall e, e ∈ subscribers cell -> Ran e ∈ newEvents st st')
        /\ (quiet st -> subscribersValid st ->
              List.length (subscribers cell) + runFuel st + 1 <= fuel ->
              exists st', write fuel s next st = Some st' /\ valueOf s st' = next))
  /\ (forall r, isPrimitive (VObj r) && strictEq (value cell) (VObj r) = false)
  /\ (forall r, isPrimitive (VFun r) && strictEq (value cell) (VFun r) = false).
Proof.
  intros Hs. split; [|split; [|split]].
  - intros Hp He. unfold write, writeWith. by rewrite Hs, Hp, He.
  - intros Hne. split; [|split; [|split; [|split]]].
    + unfold write, writeWith. by rewrite Hs, Hne.
    + by eapply valueOf_store.
    + rewrite subscribersOf_store. unfold subscribersOf. by rewrite Hs.
    + intros st' H e He. by eapply write_runs_subscribers.
    + intros Hq Hv Hfuel.
      destruct (write_quiet fuel s next st cell Hq Hv Hs Hne Hfuel) as (st' & H & V & _).
      by exists st'.
  - done.
  - done.
Qed.

Import ScenarioStates.

Lemma subscribedState_valid : subscribersValid subscribedState.
Proof.
  intros s e H. destruct s as [|[|s]]; vm_compute in H.
  - apply list_elem_of_singleton in H as ->. by eexists.
  - apply list_elem_of_singleton in H as ->. by eexists.
  - destruct s; by apply elem_of_nil in H.
Qed.

Lemma subscribedState_quiet : quiet subscribedState.
Proof. vm_compute. repeat constructor. Qed.

Lemma C5_witness :
  write 10 1 (VNum 1) subscribedState = Some subscribedState
  /\ exists st', write 10 1 (VNum 2) subscribedState = Some st'
                 /\ valueOf 1 st' = VNum 2.
Proof.
  split.
  - refine (proj1 (C5_write_skips_or_notifies 10 1 (VNum 1) subscribedState
                     subscribedCell _) _ _); vm_compute; reflexivity.
  - refine (proj2 (proj2 (proj2 (proj2
              (proj1 (proj2 (C5_write_skips_or_notifies 10 1 (VNum 2) subscribedState
                               subscribedCell _)) _))))
              subscribedState_quiet subscribedState_valid _).
    + vm_compute; reflexivity.
    + vm_compute; reflexivity.
    + vm_compute; lia.
Defined.

(** ** Re-tracking *)

(** C2, as stated, fails: the effect [if (flag()) a()] has read [a] in its
    first run; after [setFlag(false)] its most recent run read [flag] only,
    and [setA(2)] still runs it. *)
Lemma C2_counterexample : ~ retrackingHolds.
Proof.
  intros H.
  assert (Hb : built flagOffState).
  { eapply (built_write 10 0 (VBool false) subscribedState).
    - eapply (built_effect 10 conditionalReader twoSignals (DisposePlaceholder 0)).
      + apply (built_signal (VNum 1)). apply (built_signal (VBool true)). constructor.
      + vm_compute; reflexivity.
    - vm_compute; reflexivity. }
  refine (H 10 flagOffState 0 1 (VNum 2) (default empty afterWriteA) Hb _ _ _).
  - vm_compute. intros Hin. apply list_elem_of_singleton in Hin. discriminate.
  - vm_compute; reflexivity.
  - vm_compute. constructor.
Qed.

(** ** Nested effects *)

(** C3, as stated, fails: the outer effect creates an inner effect and then
    reads [flag]; the read sees no tracking context, the outer effect is not
    in the subscriber set of [flag]. *)
Lemma C3_counterexample : ~ outerStillTracks.
Proof.
  intros H.
  assert (Hb : built twoSignals).
  { apply (built_signal (VNum 1)). apply (built_signal (VBool true)). constructor. }
  pose proof (H 10 [CRead 1] 0 twoSignals (DisposePlaceholder 0) outerState Hb
                (ltac:(by eexists)) (ltac:(vm_compute; reflexivity))) as Hin.
  vm_compute in Hin. by apply elem_of_nil in Hin.
Qed.

(** C3, amended. When the run of an effect closure ends, the tracking
    pointer is [null], whatever it was before; so after [createEffect] (or
    [createEffectWithCleanup]) returns inside the run of an outer effect,
    the rest of the outer body runs without a tracking context, and a read
    made there changes no subscriber set. A read made while the outer effect
    is still the tracking context subscribes it. *)
Theorem C3_context_cleared_not_restored :
  (forall fuel fn st d st',
     createEffect fuel fn st = Some (d, st') ->
     _currentEffect st' = None
     /\ forall s, signals (snd (read s st')) = signals st')
  /\ (forall fuel fn ret st d st',
        createEffectWithCleanup fuel fn ret st = Some (d, st') ->
        _currentEffect st' = None
        /\ forall s, signals (snd (read s st')) = signals st')
  /\ (forall fuel inner rest st,
        execBody (S fuel) (CCreateEffect inner :: rest) st
        = match createEffect fuel inner st with
          | Some (_, st1) => execBody fuel rest st1
          | None => None
          end)
  /\ (forall s st e cell,
        signals st !! s = Some cell -> _currentEffect st = Some e ->
        e ∈ subscribersOf s (snd (read s st))).
Proof.
  split; [|split; [|split]].
  - intros fuel fn st d st'. unfold createEffect, createEffectWith.
    destruct (effect fuel _ _) as [st1|] eqn:H1; [|done]. intros [= _ <-].
    apply effect_current_None in H1. split; [done|].
    intros s. by apply read_untracked.
  - intros fuel fn ret st d st'.
    unfold createEffectWithCleanup, createEffectWithCleanupWith.
    destruct (effect fuel _ _) as [st1|] eqn:H1; [|done]. intros [= _ <-].
    apply effect_current_None in H1. split; [done|].
    intros s. by apply read_untracked.
  - reflexivity.
  - intros s st e cell. apply read_tracked.
Qed.

Lemma C3_witness :
  _currentEffect outerState = None
  /\ signals (snd (read 0 outerState)) = signals outerState.
Proof.
  destruct (proj1 C3_context_cleared_not_restored 10 outerWithInner twoSignals
              (DisposePlaceholder 0) outerState) as [Hc Hr].
  - vm_compute; reflexivity.
  - split; [exact Hc|apply Hr].
Defined.

(** ** Disposal *)

Lemma callAll_placeholders fuel fns st :
  Forall (fun d => exists e, d = DisposePlaceholder e) fns ->
  ComponentModel.callAll fuel fns st = Some st.
Proof.
  induction 1 as [|d fns [e ->] _ IH]; [done|]. simpl. exact IH.
Qed.

(** Without an [unmounted] hook, [unmount] of a component whose effects come
    from [_createEffect] leaves the reactivity object exactly as it is. *)
Lemma unmount_keeps_reactive_state fuel c st :
  hook_unmounted c = None ->
  Forall (fun d => exists e, d = DisposePlaceholder e) (_effects c) ->
  ComponentModel.unmount fuel (c, st)
  = Some ({| _listeners := []; _effects := []; hook_unmounted := None;
             el_mounted := false |}, st).
Proof.
  intros Hh Hd. unfold ComponentModel.unmount. rewrite Hh.
  by rewrite (callAll_placeholders _ _ _ Hd).
Qed.

(** C4. The claim says that after [unmount()] no signal write runs an effect
    of the component. Here a component holds one effect reading [a]; after
    [unmount()] (also after a second [unmount()]) the subscriber set of [a]
    still holds the effect, and [setA(2)] runs it. *)
Theorem C4_effect_runs_after_unmount :
  exists c st c' st',
    mounted = Some (c, st)
    /\ _effects c = [DisposePlaceholder 0]
    /\ unmounted = Some (c', st)
    /\ unmountedTwice = Some (c', st)
    /\ _effects c' = []
    /\ subscribersOf 1 st = [0]
    /\ writeAfterUnmount = Some st'
    /\ newEvents st st' = [Ran 0; ReadSignal 1 (Some 0)].
Proof.
  do 4 eexists. repeat split; vm_compute; reflexivity.
Qed.


End SignalClaims.

(* ===================================================================== *)
(** * Facts about the keyed reconciler *)
(* ===================================================================== *)

Module ReconcilerFacts.
Import Document Reconciler ReconcilerSpec.
#[local] Open Scope list_scope.

Lemma indexOf_elem n l : n ∈ l -> exists i, indexOf n l = Some i /\ l !! i = Some n.
Proof.
  induction l as [|x l IH]; intros Hin; [by apply elem_of_nil in Hin|].
  simpl. destruct (Nat.eqb_spec x n) as [->|Hne]; [by exists 0|].
  apply elem_of_cons in Hin as [->|Hin]; [done|].
  destruct (IH Hin) as (i & -> & Hi). by exists (S i).
Qed.

Lemma nextSibling_child n r d : nextSibling n d = Some r -> r ∈ childNodes d.
Proof.
  unfold nextSibling. destruct (indexOf n (childNodes d)); [|done].
  apply list_elem_of_lookup_2.
Qed.

Lemma firstChild_child r d : firstChild d = Some r -> r ∈ childNodes d.
Proof.
  unfold firstChild. destruct (childNodes d); [done|]. intros [= ->]. by left.
Qed.

Lemma slotAfter_child prev r d : slotAfter prev d = Some r -> r ∈ childNodes d.
Proof. destruct prev; [apply nextSibling_child|apply firstChild_child]. Qed.

(** Two different children never have the same next sibling: the test
    [element.nextSibling !== previousElement.nextSibling] holds whenever a
    reused element and the element placed before it are both attached. *)
Lemma nextSibling_differs el prev d :
  NoDup (childNodes d) -> el ∈ childNodes d -> prev ∈ childNodes d ->
  el <> prev -> nextSibling el d <> nextSibling prev d.
Proof.
  intros Hnd He Hp Hne. unfold nextSibling.
  destruct (indexOf_elem _ _ He) as (i & -> & Hi).
  destruct (indexOf_elem _ _ Hp) as (j & -> & Hj).
  intros Heq. destruct (childNodes d !! S i) as [x|] eqn:Hx.
  - symmetry in Heq. pose proof (NoDup_lookup _ _ _ _ Hnd Hx Heq) as Hij.
    assert (i = j) as -> by lia. rewrite Hi in Hj. by injection Hj.
  - symmetry in Heq. apply lookup_ge_None in Hx, Heq.
    pose proof (lookup_lt_Some _ _ _ Hi). pose proof (lookup_lt_Some _ _ _ Hj).
    assert (i = j) as -> by lia. rewrite Hi in Hj. by injection Hj.
Qed.

(** A call of [insertBefore] whose reference is a slot of the parent
    returns, and is recorded. *)
Lemma insertBefore_slot el prev d :
  exists d', insertBefore el (slotAfter prev d) d = Some d'
             /\ ops d' = ops d ++ [OpInsertBefore el (slotAfter prev d)].
Proof.
  unfold insertBefore. destruct (slotAfter prev d) as [r|] eqn:Hr.
  - apply slotAfter_child in Hr. unfold isChild.
    rewrite bool_decide_eq_true_2 by done.
    destruct (if Nat.eqb r el then nextSibling el d else Some r); by eexists.
  - by eexists.
Qed.

Section Reuse.
Variable walkShape : string -> WalkShape.
Variable newItemMap : list (string * (string * nat)).
Variable itemMap : list (string * ItemEntry).

(** A key that is in the reuse map is reused: no clone, no change of the
    map, at most one move of its element. *)
Lemma processKey_reuse key el d prev :
  tracked itemMap key el ->
  exists d' moves,
    processKey walkShape newItemMap key ((d, itemMap), prev)
      = Some ((d', itemMap), Some el)
    /\ ops d' = ops d ++ moves /\ Forall (isMove itemMap) moves.
Proof.
  intros Ht. pose proof Ht as (entry & Hg & He).
  unfold processKey. rewrite Hg, He.
  assert (Hmove : isMove itemMap (OpInsertBefore el (slotAfter prev d)))
    by (by exists el, (slotAfter prev d), key).
  destruct (insertBefore_slot el prev d) as (d' & Hins & Hops).
  destruct prev as [p|]; simpl in Hins, Hops, Hmove.
  - case_bool_decide.
    + rewrite Hins. exists d', [OpInsertBefore el (nextSibling p d)].
      split; [done|]. split; [done|]. by constructor.
    + exists d, []. split; [done|]. split; [by rewrite app_nil_r|constructor].
  - case_bool_decide.
    + rewrite Hins. exists d', [OpInsertBefore el (firstChild d)].
      split; [done|]. split; [done|]. by constructor.
    + exists d, []. split; [done|]. split; [by rewrite app_nil_r|constructor].
Qed.

Lemma processKeys_reuse newKeys : forall d prev,
  Forall (fun key => exists el, tracked itemMap key el) newKeys ->
  exists d' prev' moves,
    processKeys walkShape newItemMap newKeys ((d, itemMap), prev)
      = Some ((d', itemMap), prev')
    /\ ops d' = ops d ++ moves /\ Forall (isMove itemMap) moves.
Proof.
  induction newKeys as [|key rest IH]; intros d prev Hall.
  - exists d, prev, []. split; [done|]. split; [by rewrite app_nil_r|constructor].
  - inversion Hall as [|? ? [el Hel] Hrest]; subst. cbn [processKeys].
    destruct (processKey_reuse key el d prev Hel) as (d1 & m1 & -> & Hops1 & Hm1).
    destruct (IH d1 (Some el) Hrest) as (d2 & prev2 & m2 & -> & Hops2 & Hm2).
    exists d2, prev2, (m1 ++ m2). split; [done|]. split.
    + by rewrite Hops2, Hops1, app_assoc.
    + by apply Forall_app.
Qed.

End Reuse.

(** The "build" phase: a key is in [newItemMap] iff it is in [newKeys]. *)
Lemma has_set {V} k k' (v : V) m :
  JsMap.has k (JsMap.set k' v m) = String.eqb k' k || JsMap.has k m.
Proof.
  unfold JsMap.has. induction m as [|[k0 v0] m IH]; simpl.
  - by destruct (String.eqb k' k).
  - destruct (String.eqb_spec k0 k') as [->|Hne]; simpl.
    + by destruct (String.eqb k' k).
    + destruct (String.eqb_spec k0 k) as [->|Hne'].
      * by rewrite orb_true_r.
      * exact IH.
Qed.

Lemma buildNew_has items : forall i m ks,
  (forall k, JsMap.has k m = true <-> k ∈ ks) ->
  forall k, JsMap.has k (fst (buildNew items i m ks)) = true
            <-> k ∈ snd (buildNew items i m ks).
Proof.
  induction items as [|[it [key|]] rest IH]; intros i m ks Hinv k; simpl.
  - apply Hinv.
  - apply IH. intros k'. rewrite has_set, orb_true_iff, elem_of_app, Hinv.
    rewrite list_elem_of_singleton.
    destruct (String.eqb_spec key k'); intuition congruence.
  - by apply IH.
Qed.

Lemma buildNew_keyed ks : forall i m acc,
  snd (buildNew (keyed ks) i m acc) = acc ++ ks.
Proof.
  induction ks as [|k ks IH]; intros i m acc; simpl; [by rewrite app_nil_r|].
  by rewrite IH, <- app_assoc.
Qed.

Lemma filter_none {A} (P : A -> Prop) `{forall x, Decision (P x)} (l : list A) :
  Forall (fun x => ~ P x) l -> filter P l = [].
Proof.
  induction 1 as [|x l Hx _ IH]; [done|].
  rewrite filter_cons. by rewrite decide_False.
Qed.

(** A run in which every key of the new list is in the reuse map and every
    key of the reuse map is in the new list: it returns, the reuse map is
    the same, nothing is removed or cloned, the recorded calls are moves of
    elements of the reuse map. *)
Lemma reconcile_same_keys walkShape items d itemMap :
  Forall (fun key => exists el, tracked itemMap key el) (newKeysOf items) ->
  Forall (fun key => key ∈ newKeysOf items) (JsMap.keys itemMap) ->
  exists d' moves,
    reconcile walkShape items (d, itemMap) = Some (d', itemMap)
    /\ ops d' = ops d ++ moves /\ Forall (isMove itemMap) moves.
Proof.
  intros Hnew Hold. unfold reconcile, newKeysOf in *.
  pose proof (buildNew_has items 0 [] []) as Hhas.
  destruct (buildNew items 0 [] []) as [nm nk] eqn:Hb. simpl in *.
  assert (Hnone : filter (fun k => JsMap.has k nm = false) (JsMap.keys itemMap) = []).
  { apply filter_none. (* no key to remove *)
    eapply Forall_impl; [exact Hold|]. intros k Hk. simpl.
    apply Hhas in Hk; [by rewrite Hk|]. intros k'. split; [done|].
    intros H'. by apply elem_of_nil in H'. }
  rewrite Hnone. simpl.
  destruct (processKeys_reuse walkShape nm itemMap nk d None Hnew)
    as (d' & prev' & moves & -> & Hops & Hm).
  by exists d', moves.
Qed.

End ReconcilerFacts.

(* ===================================================================== *)
(** * The claims about the keyed reconciler *)
(* ===================================================================== *)

Module ReconcilerClaims.
Import Document Reconciler ReconcilerSpec ReconcilerFacts.
#[local] Open Scope list_scope.

(** The first rendering of [[a, b, c]] gives [stateABC] (with the calls of
    that rendering in the record). *)
Lemma renderedABC_state :
  exists d0, renderedABC = Some (d0, snd stateABC)
             /\ childNodes d0 = childNodes (fst stateABC)
             /\ nextFresh d0 = nextFresh (fst stateABC).
Proof. eexists. repeat split; vm_compute; reflexivity. Qed.

(** A reused key that is not the first of the new order is always moved
    when its element and the previous one are attached: with distinct
    children the test before [insertBefore] cannot fail. *)
Lemma reuse_after_previous_always_moves walkShape newItemMap itemMap key el prev d :
  NoDup (childNodes d) -> el ∈ childNodes d -> prev ∈ childNodes d -> el <> prev ->
  tracked itemMap key el ->
  exists d',
    processKey walkShape newItemMap key ((d, itemMap), Some prev)
      = Some ((d', itemMap), Some el)
    /\ ops d' = ops d ++ [OpInsertBefore el (nextSibling prev d)].
Proof.
  intros Hnd He Hp Hne (entry & Hg & Hel). unfold processKey. rewrite Hg, Hel.
  rewrite bool_decide_eq_true_2 by (by apply nextSibling_differs).
  destruct (insertBefore_slot el (Some prev) d) as (d' & Hins & Hops).
  simpl in Hins, Hops. rewrite Hins. by exists d'.
Qed.

(** C7. The claim says that a run over an unchanged keyed list makes no
    call that changes the document. With [[a, b, c]] rendered and the same
    list given again, the run calls [insertBefore(b, b)] and
    [insertBefore(c, c)]; the order of the children is the same afterwards
    and nothing is removed or cloned. *)
Theorem C7_rerun_unchanged_list_calls_insertBefore :
  exists d',
    reconcile singleNodes (keyed ["a"; "b"; "c"]) stateABC = Some (d', snd stateABC)
    /\ newOps (fst stateABC) d' = [OpInsertBefore 2 (Some 2); OpInsertBefore 3 (Some 3)]
    /\ childNodes d' = childNodes (fst stateABC).
Proof. eexists. repeat split; vm_compute; reflexivity. Qed.

(** C8. With [[a, b, c]] rendered and [[c, a, b]] given, the run keeps the
    three entries of the reuse map with their elements, records moves only
    and leaves the children in the order [c, a, b] (before the anchor). In
    general, when the new list has the keys of the reuse map, the run
    returns with the reuse map unchanged and records nothing but moves of
    its elements: no removal, no clone-and-walk. *)
Theorem C8_reorder_reuses_all_elements :
  (exists d',
     reconcile singleNodes (keyed ["c"; "a"; "b"]) stateABC = Some (d', snd stateABC)
     /\ childNodes d' = [3; 1; 2; 0]
     /\ nextFresh d' = nextFresh (fst stateABC)
     /\ newOps (fst stateABC) d'
        = [OpInsertBefore 3 (Some 1); OpInsertBefore 1 (Some 1); OpInsertBefore 2 (Some 2)])
  /\ forall walkShape items d itemMap,
       Forall (fun key => exists el, tracked itemMap key el) (newKeysOf items) ->
       Forall (fun key => key ∈ newKeysOf items) (JsMap.keys itemMap) ->
       exists d' moves,
         reconcile walkShape items (d, itemMap) = Some (d', itemMap)
         /\ ops d' = ops d ++ moves /\ Forall (isMove itemMap) moves.
Proof.
  split.
  - eexists. repeat split; vm_compute; reflexivity.
  - intros walkShape items d itemMap. apply reconcile_same_keys.
Qed.

Lemma C8_witness :
  exists d' moves,
    reconcile singleNodes (keyed ["c"; "a"; "b"]) stateABC = Some (d', snd stateABC)
    /\ ops d' = ops (fst stateABC) ++ moves
    /\ Forall (isMove (snd stateABC)) moves.
Proof.
  apply (proj2 C8_reorder_reuses_all_elements singleNodes (keyed ["c"; "a"; "b"])
           (fst stateABC) (snd stateABC)).
  - vm_compute. repeat constructor.
    + exists 3. eexists. split; reflexivity.
    + exists 1. eexists. split; reflexivity.
    + exists 2. eexists. split; reflexivity.
  - vm_compute. repeat constructor.
Defined.

End ReconcilerClaims.

(* ===================================================================== *)
(** * What [_extractParams] accepts and returns *)
(* ===================================================================== *)

Module ExtractFacts.
Import JsString JsObject ObjectFacts RouterCore FindMatch RouterSpec MatcherSpec RouterFacts LeafMatch.
#[local] Open Scope list_scope.

Lemma drop_lookup_cons {A} (l : list A) i v :
  l !! i = Some v -> drop i l = v :: drop (S i) l.
Proof. intros H. by apply drop_S. Qed.

Lemma extractLoop_iff patternParts : forall pathParts i acc ps,
  extractLoop patternParts pathParts i acc = Some ps
  <-> prefixMatches patternParts (drop i pathParts)
      /\ ps = bindings patternParts (drop i pathParts) acc.
Proof.
  induction patternParts as [|p rest IH]; intros pathParts i acc ps.
  - unfold prefixMatches. cbn [extractLoop bindings List.length]. rewrite take_0. split.
    + intros [= <-]. split; [split; [lia|constructor]|done].
    + by intros [_ ->].
  - cbn [extractLoop]. unfold nth_opt.
    destruct (pathParts !! i) as [v|] eqn:Hi.
    + rewrite (drop_lookup_cons _ _ _ Hi). unfold prefixMatches.
      cbn [List.length take bindings].
      destruct (startsWith ":" p) eqn:Hs.
      * rewrite IH. unfold prefixMatches. split.
        -- intros [[Hl HF] ->]. split; [split; [lia|]|done].
           constructor; [by left|done].
        -- intros [[Hl HF] ->]. inversion HF; subst. split; [split; [lia|done]|done].
      * destruct (String.eqb_spec p v) as [->|Hne].
        -- rewrite IH. unfold prefixMatches. split.
           ++ intros [[Hl HF] ->]. split; [split; [lia|]|done].
              constructor; [by right|done].
           ++ intros [[Hl HF] ->]. inversion HF; subst. split; [split; [lia|done]|done].
        -- split; [done|]. intros [[_ HF] _]. inversion HF as [|? ? ? ? Hm]; subst.
           destruct Hm; congruence.
    + apply lookup_ge_None in Hi. rewrite (drop_ge _ _ Hi).
      assert (Hnone : (if startsWith ":" p then @None (gmap string string) else None) = None)
        by (by destruct (startsWith ":" p)).
      rewrite Hnone. split; [done|]. intros [[Hl _] _]. simpl in Hl. lia.
Qed.

(** After the loop has accepted, the pattern with its parameter segments
    filled in is the matched prefix of the path. *)
Lemma fillPattern_prefix patternParts : forall pathParts i,
  prefixMatches patternParts (drop i pathParts) ->
  fillPattern patternParts pathParts i
  = take (List.length patternParts) (drop i pathParts).
Proof.
  induction patternParts as [|p rest IH]; intros pathParts i [Hl HF]; [done|].
  destruct (pathParts !! i) as [v|] eqn:Hi.
  - rewrite (drop_lookup_cons _ _ _ Hi) in *. cbn [List.length take] in *.
    inversion HF as [|? ? ? ? Hm Hrest]; subst.
    cbn [fillPattern]. unfold nth_opt. rewrite Hi. simpl.
    rewrite IH by (split; [simpl in Hl; lia|done]).
    f_equal. destruct (startsWith ":" p) eqn:Hs; [done|].
    destruct Hm; congruence.
  - apply lookup_ge_None in Hi. rewrite (drop_ge _ _ Hi) in Hl. simpl in Hl. lia.
Qed.

Lemma bindings_proto patternParts : forall pathParts acc,
  bindings patternParts pathParts acc !! "__proto__" = acc !! "__proto__".
Proof.
  induction patternParts as [|p rest IH]; intros pathParts acc; [done|].
  destruct pathParts as [|v vs]; [done|]. cbn [bindings]. rewrite IH.
  destruct (startsWith ":" p); [|done]. unfold setProperty.
  destruct (String.eqb_spec (slice1 p) "__proto__") as [|Hne]; [done|].
  by rewrite lookup_insert_ne.
Qed.

(** The bindings, key by key: the name [__proto__] is never a key; any
    other name has the path segment of the last parameter segment that
    carries it. *)
Lemma bindings_lookup patternParts : forall pathParts acc k,
  bindings patternParts pathParts acc !! k
  = match (if decide (k = "__proto__") then None
           else boundTo patternParts pathParts k) with
    | Some w => Some w
    | None => acc !! k
    end.
Proof.
  induction patternParts as [|p rest IH]; intros pathParts acc k.
  - simpl. by destruct (decide (k = "__proto__")).
  - destruct pathParts as [|v vs]; [simpl; by destruct (decide (k = "__proto__"))|].
    cbn [bindings boundTo]. rewrite IH.
    destruct (decide (k = "__proto__")) as [->|Hk].
    + destruct (startsWith ":" p); [|done]. rewrite lookup_setProperty.
      by destruct (decide (slice1 p = "__proto__")).
    + destruct (boundTo rest vs k); [done|].
      destruct (startsWith ":" p); [|done]. rewrite lookup_setProperty. simpl.
      destruct (String.eqb_spec (slice1 p) k) as [Heq|Hne].
      * rewrite decide_False by congruence. by rewrite decide_True.
      * destruct (decide (slice1 p = "__proto__")); [done|]. by rewrite decide_False.
Qed.

Lemma extractParams_iff pattern path partial ps :
  _extractParams pattern path partial = Some ps
  <-> (if partial
       then prefixMatches (segments pattern) (segments path)
       else Forall2 segMatches (segments pattern) (segments path))
      /\ ps = bindings (segments pattern) (segments path) ∅.
Proof.
  unfold _extractParams.
  set (pat := segments pattern). set (pth := segments path).
  pose proof (extractLoop_iff pat pth 0 ∅) as Hloop. rewrite drop_0 in Hloop.
  destruct partial; simpl.
  - destruct (Nat.ltb_spec (List.length pth) (List.length pat)) as [Hlt|Hge].
    + split; [done|]. intros [[Hl _] _]. lia.
    + destruct (extractLoop pat pth 0 ∅) as [ps0|] eqn:Hex.
      * pose proof (proj1 (Hloop ps0) eq_refl) as [Hpm ->].
        assert (Hjoin : (if (List.length pat <? List.length pth)%nat
                         then if String.eqb (join "/" (take (List.length pat) pth))
                                            (join "/" (fillPattern pat pth 0))
                              then Some (bindings pat pth ∅) else None
                         else Some (bindings pat pth ∅)) = Some (bindings pat pth ∅)).
        { rewrite (fillPattern_prefix pat pth 0) by (by rewrite drop_0).
          rewrite drop_0, String.eqb_refl. by destruct (_ <? _)%nat. }
        rewrite Hjoin. split; [intros [= <-]; by split|]. by intros [_ ->].
      * split; [done|]. intros [Hpm ->].
        pose proof (proj2 (Hloop (bindings pat pth ∅)) (conj Hpm eq_refl)). congruence.
  - destruct (Nat.eqb_spec (List.length pat) (List.length pth)) as [Heq|Hne]; simpl.
    + assert (Hpm : prefixMatches pat pth <-> Forall2 segMatches pat pth).
      { unfold prefixMatches. rewrite Heq, firstn_all. split; [by intros [_ ?]|].
        intros HF. split; [lia|done]. }
      destruct (extractLoop pat pth 0 ∅) as [ps0|] eqn:Hex.
      * pose proof (proj1 (Hloop ps0) eq_refl) as [HF ->]. apply Hpm in HF.
        split; [intros [= <-]; by split|]. by intros [_ ->].
      * split; [done|]. intros [HF%Hpm ->].
        pose proof (proj2 (Hloop (bindings pat pth ∅)) (conj HF eq_refl)). congruence.
    + split; [done|]. intros [HF _]. by apply Forall2_length in HF.
Qed.

(** A parameter segment named [__proto__] is accepted and binds nothing. *)
Lemma extractParams_proto_segment :
  _extractParams "/:__proto__/:id" "/x/42" false = Some {[ "id" := "42" ]}.
Proof. vm_compute. reflexivity. Qed.

(** X1. [_extractParams] accepts exactly when the pattern's segments match the
    path's segments one by one, all of them without [partial], the first
    ones with [partial] (the comparison of the joined prefixes that follows
    the loop never rejects); it returns the bindings of the parameter
    segments, and [null] otherwise. In the bindings a segment named
    [__proto__] binds nothing: key by key, the object returned never has the
    key [__proto__], and any other name has the path segment at the position
    of the last parameter segment that carries it. *)
Theorem extractParams_characterised pattern path partial :
  (forall ps,
     _extractParams pattern path partial = Some ps
     <-> (if partial
          then prefixMatches (segments pattern) (segments path)
          else Forall2 segMatches (segments pattern) (segments path))
         /\ ps = bindings (segments pattern) (segments path) ∅)
  /\ (_extractParams pattern path partial = None
      <-> ~ (if partial
             then prefixMatches (segments pattern) (segments path)
             else Forall2 segMatches (segments pattern) (segments path)))
  /\ (forall ps, _extractParams pattern path partial = Some ps ->
       forall k, ps !! k = if decide (k = "__proto__") then None
                           else boundTo (segments pattern) (segments path) k).
Proof.
  split; [intros ps; apply extractParams_iff|]. split.
  - destruct (_extractParams pattern path partial) as [ps|] eqn:Hex.
    + apply extractParams_iff in Hex as [Hm _]. split; [done|]. by intros H.
    + split; [|done]. intros _ Hm.
      pose proof (proj2 (extractParams_iff pattern path partial _) (conj Hm eq_refl)).
      congruence.
  - intros ps Hex k. apply extractParams_iff in Hex as [_ ->].
    rewrite bindings_lookup, lookup_empty.
    destruct (decide (k = "__proto__")); [done|]. by destruct (boundTo _ _ k).
Qed.

End ExtractFacts.

Module ExtractResult.
Import JsString JsObject ObjectFacts RouterCore FindMatch RouterSpec MatcherSpec RouterFacts LeafMatch ExtractFacts.
#[local] Open Scope list_scope.

Lemma paramNames_app a b : paramNames (a ++ b) = paramNames a ++ paramNames b.
Proof. unfold paramNames. by rewrite filter_app, map_app. Qed.

Lemma paramNames_cons p rest :
  paramNames (p :: rest)
  = if startsWith ":" p then slice1 p :: paramNames rest else paramNames rest.
Proof.
  unfold paramNames. rewrite filter_cons.
  destruct (startsWith ":" p) eqn:Hs.
  - by rewrite decide_True.
  - by rewrite decide_False by congruence.
Qed.

Lemma bindings_dom patternParts : forall pathParts acc,
  List.length patternParts <= List.length pathParts ->
  dom (bindings patternParts pathParts acc)
  = dom acc ∪ (list_to_set (paramNames patternParts) ∖ {[ "__proto__" ]}).
Proof.
  induction patternParts as [|p rest IH]; intros pathParts acc Hl.
  - simpl. set_solver.
  - destruct pathParts as [|v vs]; [simpl in Hl; lia|].
    cbn [bindings]. rewrite IH by (simpl in Hl; lia). rewrite paramNames_cons.
    destruct (startsWith ":" p); [|done].
    rewrite dom_setProperty. set_solver.
Qed.

Lemma bindings_values patternParts : forall pathParts acc k v,
  bindings patternParts pathParts acc !! k = Some v ->
  acc !! k = Some v \/ v ∈ pathParts.
Proof.
  induction patternParts as [|p rest IH]; intros pathParts acc k v H; [by left|].
  destruct pathParts as [|x xs]; [by left|]. cbn [bindings] in H.
  apply IH in H as [H|H]; [|right; by right].
  destruct (startsWith ":" p); [|by left].
  unfold setProperty in H. destruct (String.eqb (slice1 p) "__proto__"); [by left|].
  destruct (decide (slice1 p = k)) as [<-|Hne].
  - rewrite lookup_insert_eq in H. injection H as <-. right. by left.
  - rewrite lookup_insert_ne in H by done. by left.
Qed.

Lemma segments_truthy s x : x ∈ segments s -> truthy x = true.
Proof. unfold segments. by intros [? _]%list_elem_of_filter. Qed.

Lemma extractParams_length pattern path partial ps :
  _extractParams pattern path partial = Some ps ->
  List.length (segments pattern) <= List.length (segments path)
  /\ ps = bindings (segments pattern) (segments path) ∅.
Proof.
  intros H. apply extractParams_iff in H as [Hm ->]. split; [|done].
  destruct partial; [by destruct Hm|]. apply Forall2_length in Hm. lia.
Qed.

Lemma extractParams_dom pattern path partial ps :
  _extractParams pattern path partial = Some ps ->
  dom ps = list_to_set (paramNames (segments pattern)) ∖ {[ "__proto__" ]}.
Proof.
  intros H. apply extractParams_length in H as [Hl ->].
  rewrite bindings_dom by done. set_solver.
Qed.

(** X2. The object [_extractParams] returns has exactly the names of the
    pattern's parameter segments other than [__proto__] as keys (the
    assignment [params['__proto__'] = pathPart] creates no property), and
    every value is a non-empty segment of the path. *)
Theorem extractParams_keys_and_values pattern path partial ps :
  _extractParams pattern path partial = Some ps ->
  dom ps = list_to_set (paramNames (segments pattern)) ∖ {[ "__proto__" ]}
  /\ forall k v, ps !! k = Some v -> v ∈ segments path /\ truthy v = true.
Proof.
  intros H. split; [by eapply extractParams_dom|].
  apply extractParams_length in H as [Hl ->].
  intros k v Hk. apply bindings_values in Hk as [Hk|Hk]; [by rewrite lookup_empty in Hk|].
  split; [done|]. by eapply segments_truthy.
Qed.

Lemma extractParams_keys_witness :
  dom ({[ "id" := "42" ]} : gmap string string)
  = list_to_set (paramNames (segments "/:__proto__/:id")) ∖ {[ "__proto__" ]}
  /\ forall k v, ({[ "id" := "42" ]} : gmap string string) !! k = Some v ->
                 v ∈ segments "/x/42" /\ truthy v = true.
Proof.
  apply (extractParams_keys_and_values "/:__proto__/:id" "/x/42" false).
  vm_compute. reflexivity.
Defined.

End ExtractResult.

(* ===================================================================== *)
(** * The absolute pattern of a route ([fullPath] in [findMatch]) *)
(* ===================================================================== *)

Module FullPathFacts.
Import JsString RouterCore FindMatch RouterSpec MatcherSpec RouterFacts LeafMatch.
#[local] Open Scope list_scope.

Lemma append_cons c a b : (String c a ++ b)%string = String c (a ++ b)%string.
Proof. reflexivity. Qed.

Lemma split_append sep a : forall b,
  split sep (a ++ String sep b)%string = split sep a ++ split sep b.
Proof.
  induction a as [|c a IH]; intros b.
  - change ("" ++ String sep b)%string with (String sep b).
    cbn [split]. by rewrite Ascii.eqb_refl.
  - rewrite append_cons. cbn [split]. rewrite IH.
    destruct (Ascii.eqb c sep); [done|].
    pose proof (split_nonempty sep a). by destruct (split sep a).
Qed.

Lemma segments_append a b :
  segments (a ++ "/" ++ b)%string = segments a ++ segments b.
Proof.
  unfold segments. change ("/" ++ b)%string with (String "/" b).
  by rewrite split_append, filter_app.
Qed.

Lemma segments_fullPathOf parent rpath :
  segments (fullPathOf parent rpath) = segments parent ++ segments rpath.
Proof.
  rewrite <- segments_append. unfold fullPathOf, segments.
  set (s := (parent ++ "/" ++ rpath)%string).
  destruct (negb _ && endsWith "/" (collapseSlashes s)) eqn:Hcond.
  - apply andb_true_iff in Hcond as [_ Hends].
    apply sameSegments_filter; [apply split_nonempty..|].
    eapply sameSegments_trans; [by apply dropLast_segments|].
    apply collapseSlashes_segments.
  - apply sameSegments_filter; [apply split_nonempty..|].
    apply collapseSlashes_segments.
Qed.

Lemma noDoubleSlash_cons c d t :
  noDoubleSlash (String c (String d t))
  = negb (Ascii.eqb c "/" && Ascii.eqb d "/") && noDoubleSlash (String d t).
Proof. reflexivity. Qed.

Lemma collapseSlashes_noDouble s : noDoubleSlash (collapseSlashes s) = true.
Proof.
  induction s as [|c s IH]; [done|]. cbn [collapseSlashes].
  destruct (Ascii.eqb c "/") eqn:Hc.
  - destruct s as [|d s']; [done|].
    destruct (Ascii.eqb d "/") eqn:Hd; [exact IH|].
    cbn [collapseSlashes] in *. rewrite Hd in *.
    by rewrite noDoubleSlash_cons, Hd, andb_false_r, IH.
  - destruct (collapseSlashes s) as [|d t] eqn:Hcs; [done|].
    by rewrite noDoubleSlash_cons, Hc, IH.
Qed.

Lemma collapseSlashes_nonempty s : s <> "" -> collapseSlashes s <> "".
Proof.
  induction s as [|c s IH]; [done|]. intros _. cbn [collapseSlashes].
  destruct (Ascii.eqb c "/"); [|done].
  destruct s as [|d s']; [done|]. destruct (Ascii.eqb d "/"); [|done].
  by apply IH.
Qed.

Lemma dropLast_noDouble s : noDoubleSlash s = true -> noDoubleSlash (dropLast s) = true.
Proof.
  induction s as [|c s IH]; [done|]. destruct s as [|d s']; [done|].
  rewrite noDoubleSlash_cons. intros [Hcd Hrest]%andb_true_iff.
  change (dropLast (String c (String d s'))) with (String c (dropLast (String d s'))).
  specialize (IH Hrest). destruct s' as [|e s'']; [done|].
  change (dropLast (String d (String e s''))) with (String d (dropLast (String e s''))) in *.
  by rewrite noDoubleSlash_cons, Hcd, IH.
Qed.

Lemma dropLast_no_trailing s :
  noDoubleSlash s = true -> endsWith "/" s = true -> endsWith "/" (dropLast s) = false.
Proof.
  induction s as [|c s IH]; [done|]. destruct s as [|d s']; [done|].
  rewrite noDoubleSlash_cons. intros [Hcd Hrest]%andb_true_iff He.
  change (endsWith "/" (String c (String d s'))) with (endsWith "/" (String d s')) in He.
  change (dropLast (String c (String d s'))) with (String c (dropLast (String d s'))).
  destruct s' as [|e s''].
  - simpl in *. apply Ascii.eqb_eq in He as ->.
    destruct (Ascii.eqb c "/"); [discriminate|done].
  - specialize (IH Hrest He).
    change (dropLast (String d (String e s''))) with (String d (dropLast (String e s''))) in *.
    exact IH.
Qed.

Lemma dropLast_nonempty c d s : dropLast (String c (String d s)) <> "".
Proof. done. Qed.

(** X3. The segments of the absolute pattern are those of the parent's pattern
    followed by those of the route's own [path]: leading, trailing and
    doubled slashes in either make no difference. *)
Theorem fullPathOf_segments parent rpath :
  segments (fullPathOf parent rpath) = segments parent ++ segments rpath
  /\ (forall parent' rpath',
        segments parent' = segments parent -> segments rpath' = segments rpath ->
        segments (fullPathOf parent' rpath') = segments (fullPathOf parent rpath)).
Proof.
  split; [apply segments_fullPathOf|].
  intros parent' rpath' Hp Hr. by rewrite !segments_fullPathOf, Hp, Hr.
Qed.

(** X4. The absolute pattern is never empty, has no doubled slash, and ends
    with a slash only when it is ["/"] itself. *)
Theorem fullPathOf_normalised parent rpath :
  fullPathOf parent rpath <> ""
  /\ noDoubleSlash (fullPathOf parent rpath) = true
  /\ (endsWith "/" (fullPathOf parent rpath) = true -> fullPathOf parent rpath = "/").
Proof.
  unfold fullPathOf. set (s := (parent ++ "/" ++ rpath)%string).
  assert (Hs : s <> "").
  { unfold s. destruct parent; [done|]. by rewrite append_cons. }
  pose proof (collapseSlashes_nonempty s Hs) as Hne.
  pose proof (collapseSlashes_noDouble s) as Hnd.
  destruct (negb _ && endsWith "/" (collapseSlashes s)) eqn:Hcond.
  - apply andb_true_iff in Hcond as [Hnot Hends].
    apply negb_true_iff in Hnot. split; [|split].
    + destruct (collapseSlashes s) as [|c [|d t]]; [done| |done].
      simpl in Hends. apply Ascii.eqb_eq in Hends as ->. done.
    + by apply dropLast_noDouble.
    + rewrite (dropLast_no_trailing _ Hnd Hends). discriminate.
  - split; [done|]. split; [done|]. intros He. rewrite He, andb_true_r in Hcond.
    apply negb_false_iff in Hcond. by apply String.eqb_eq in Hcond.
Qed.

End FullPathFacts.

(* ===================================================================== *)
(** * What [findMatch] finds *)
(* ===================================================================== *)

Module MatcherFacts.
Import JsString RouterCore FindMatch RouterSpec MatcherSpec RouterFacts LeafMatch
       ExtractFacts ExtractResult FullPathFacts.
#[local] Open Scope list_scope.

Lemma union_absorbs (m1 m2 : gmap string string) :
  dom m2 ⊆ dom m1 -> m1 ∪ m2 = m1.
Proof.
  intros Hd. apply map_eq. intros k. rewrite lookup_union.
  destruct (m1 !! k) as [v|] eqn:H1; [by destruct (m2 !! k)|].
  apply not_elem_of_dom in H1.
  assert (H2 : m2 !! k = None) by (apply not_elem_of_dom; set_solver).
  by rewrite H2.
Qed.

Lemma chainMatches_head leafTest routes routes' parent cur r rest :
  chainMatches leafTest routes parent cur (r :: rest) ->
  r ∈ routes' -> chainMatches leafTest routes' parent cur (r :: rest).
Proof.
  intros H Hin. inversion H; subst.
  - by eapply chain_leaf.
  - by eapply chain_node.
Qed.

Lemma chainMatches_nonempty leafTest routes parent cur chain :
  chainMatches leafTest routes parent cur chain -> chain <> [].
Proof. by destruct 1. Qed.

(** The segments along a matching chain match the path's segments one by
    one, after those of the parent's pattern. *)
Lemma chainMatches_segments leafTest routes parent cur chain :
  chainMatches leafTest routes parent cur chain ->
  Forall2 segMatches (segments parent ++ chainSegments chain) (segments cur).
Proof.
  induction 1 as [routes parent cur p c ps Hin Hex Hleaf
                 |routes parent cur p c kids ps rest Hin Hex Hrest IH].
  - apply extractParams_iff in Hex as [HF _].
    rewrite segments_fullPathOf in HF. unfold chainSegments. simpl.
    by rewrite app_nil_r.
  - rewrite segments_fullPathOf in IH. unfold chainSegments in *. simpl.
    by rewrite app_assoc.
Qed.

Section Generic.
Variable leafTest : string -> string -> bool.

Lemma restores_paramsFrom parent st st' :
  restores st st' -> paramsFrom parent st -> paramsFrom parent st'.
Proof.
  intros [_ Hp] Hd. unfold paramsFrom in *.
  apply subseteq_dom in Hp. set_solver.
Qed.

Lemma pushRoute_paramsFrom route parent p cur partial rp st :
  _extractParams (fullPathOf parent p) cur partial = Some rp ->
  paramsFrom parent st ->
  paramsFrom (fullPathOf parent p) (pushRoute route rp st)
  /\ params (pushRoute route rp st)
     = bindings (segments parent ++ segments p) (segments cur) ∅.
Proof.
  intros Hex Hd. pose proof (extractParams_dom _ _ _ _ Hex) as Hdom.
  apply extractParams_iff in Hex as [_ Hrp].
  rewrite segments_fullPathOf in Hdom, Hrp.
  unfold paramsFrom in *. simpl. rewrite segments_fullPathOf.
  assert (Hsub : dom (params st) ⊆ dom rp).
  { rewrite Hdom, paramNames_app. set_solver. }
  rewrite (union_absorbs _ _ Hsub). split; [by rewrite Hdom|done].
Qed.

Lemma findMatch_success_from routes :
  Forall (fun r => forall cur parent st st',
            tryRoute leafTest r cur parent st = (true, st') ->
            paramsFrom parent st -> succeeds leafTest [r] cur parent st st') routes ->
  forall cur parent st st',
    findMatch leafTest routes cur parent st = (true, st') ->
    paramsFrom parent st -> succeeds leafTest routes cur parent st st'.
Proof.
  induction 1 as [|r rs Hr _ IH]; intros cur parent st st'; [done|].
  cbn [findMatch].
  destruct (tryRoute leafTest r cur parent st) as [[] s1] eqn:Ht.
  - intros [= <-] Hd. destruct (Hr _ _ _ _ Ht Hd) as (chain & Hc & Hm & Hp).
    exists chain. split; [|done].
    destruct chain as [|r0 rest]; [by apply chainMatches_nonempty in Hc|].
    assert (r0 = r) as ->.
    { inversion Hc; subst; match goal with H : _ ∈ [r] |- _ =>
        by apply list_elem_of_singleton in H end. }
    eapply chainMatches_head; [exact Hc|by left].
  - intros Hrest Hd. pose proof (tryRoute_fail_restores _ _ _ _ _ _ Ht) as Hres.
    destruct (IH _ _ _ _ Hrest (restores_paramsFrom _ _ _ Hres Hd))
      as (chain & Hc & Hm & Hp).
    exists chain. split; [|split; [|done]].
    + destruct chain as [|r0 rest]; [by apply chainMatches_nonempty in Hc|].
      eapply chainMatches_head; [exact Hc|]. right.
      inversion Hc; subst; done.
    + destruct Hres as [Hm1 _]. by rewrite Hm, Hm1.
Qed.

Lemma tryRoute_success r : forall cur parent st st',
  tryRoute leafTest r cur parent st = (true, st') ->
  paramsFrom parent st -> succeeds leafTest [r] cur parent st st'.
Proof.
  induction r as [p c|p c kids IHkids] using RouteDef_tree_ind;
    intros cur parent st st'; rewrite tryRoute_eq; cbv zeta.
  - replace (bool_decide (is_Some (@None (list RouteDef)))) with false
      by (symmetry; apply bool_decide_eq_false; by intros [? ?]).
    destruct (_extractParams _ _ _) as [rp|] eqn:Hex; [|done].
    destruct (leafTest _ _) eqn:Hleaf; [|done]. intros [= <-] Hd.
    destruct (pushRoute_paramsFrom (mkRoute p c None) _ _ _ _ _ _ Hex Hd) as [_ Hp].
    exists [mkRoute p c None]. split; [|split].
    + eapply chain_leaf; [by left|exact Hex|exact Hleaf].
    + done.
    + unfold chainSegments. simpl. by rewrite app_nil_r.
  - replace (bool_decide (is_Some (Some kids))) with true
      by (symmetry; apply bool_decide_eq_true; eauto).
    destruct (_extractParams _ _ _) as [rp|] eqn:Hex; [|done].
    destruct (findMatch leafTest kids cur _ _) as [[] st2] eqn:Hfm; [|done].
    intros [= <-] Hd.
    destruct (pushRoute_paramsFrom (mkRoute p c (Some kids)) _ _ _ _ _ _ Hex Hd)
      as [Hd1 _].
    destruct (findMatch_success_from kids IHkids _ _ _ _ Hfm Hd1)
      as (chain & Hc & Hm & Hp).
    exists (mkRoute p c (Some kids) :: chain). split; [|split].
    + eapply chain_node; [by left|exact Hex|exact Hc].
    + rewrite Hm. simpl. by rewrite <- app_assoc.
    + rewrite Hp, segments_fullPathOf. unfold chainSegments. simpl.
      by rewrite !app_assoc.
Qed.

Lemma findMatch_sound routes cur parent st st' :
  findMatch leafTest routes cur parent st = (true, st') ->
  paramsFrom parent st -> succeeds leafTest routes cur parent st st'.
Proof.
  apply findMatch_success_from. apply Forall_forall. intros r _.
  apply tryRoute_success.
Qed.

Lemma findMatch_complete routes parent cur chain :
  chainMatches leafTest routes parent cur chain ->
  forall st, fst (findMatch leafTest routes cur parent st) = true.
Proof.
  induction 1 as [routes parent cur p c ps Hin Hex Hleaf
                 |routes parent cur p c kids ps rest Hin Hex Hrest IH]; intros st.
  - apply list_elem_of_split in Hin as (pre & post & ->).
    rewrite findMatch_app.
    destruct (findMatch leafTest pre cur parent st) as [[] s1]; [done|].
    cbn [findMatch]. rewrite tryRoute_eq. cbv zeta.
    replace (bool_decide (is_Some (@None (list RouteDef)))) with false
      by (symmetry; apply bool_decide_eq_false; by intros [? ?]).
    by rewrite Hex, Hleaf.
  - apply list_elem_of_split in Hin as (pre & post & ->).
    rewrite findMatch_app.
    destruct (findMatch leafTest pre cur parent st) as [[] s1]; [done|].
    cbn [findMatch]. rewrite tryRoute_eq. cbv zeta.
    replace (bool_decide (is_Some (Some kids))) with true
      by (symmetry; apply bool_decide_eq_true; eauto).
    rewrite Hex. specialize (IH (pushRoute (mkRoute p c (Some kids)) ps s1)).
    destruct (findMatch leafTest kids cur _ _) as [[] s2]; [done|done].
Qed.

(** X5. [findMatch] returns [true] exactly when some root-to-leaf chain of the
    table is matched by the path. *)
Theorem findMatch_true_iff_chain routes cur :
  fst (findMatch leafTest routes cur "" {| matched := []; params := ∅ |}) = true
  <-> exists chain, chainMatches leafTest routes "" cur chain.
Proof.
  split.
  - destruct (findMatch leafTest routes cur "" _) as [ok st'] eqn:Hfm.
    simpl. intros ->. apply findMatch_sound in Hfm as (chain & Hc & _).
    + by exists chain.
    + unfold paramsFrom. simpl. set_solver.
  - intros [chain Hc]. by eapply findMatch_complete.
Qed.

(** X6. What [_matchRoute] returns: without a matching chain, the empty chain
    and no parameter; otherwise a matching chain, whose pattern segments
    match the path's segments one by one, and the bindings of its parameter
    segments, in which a segment named [__proto__] binds nothing: any other
    name has the path segment at the position of the last parameter segment
    of the chain that carries it; in both cases the parameters never have
    the key [__proto__]. *)
Theorem matchRoute_result routes path :
  (~ (exists chain, chainMatches leafTest routes "" path chain) ->
     _matchRoute leafTest routes path = {| matched := []; params := ∅ |})
  /\ ((exists chain, chainMatches leafTest routes "" path chain) ->
      exists chain,
        chainMatches leafTest routes "" path chain
        /\ Forall2 segMatches (chainSegments chain) (segments path)
        /\ _matchRoute leafTest routes path
           = {| matched := chain;
                params := bindings (chainSegments chain) (segments path) ∅ |}
        /\ forall k, params (_matchRoute leafTest routes path) !! k
                     = if decide (k = "__proto__") then None
                       else boundTo (chainSegments chain) (segments path) k)
  /\ params (_matchRoute leafTest routes path) !! "__proto__" = None.
Proof.
  unfold _matchRoute.
  destruct (findMatch leafTest routes path "" _) as [ok st'] eqn:Hfm.
  assert (Hinit : paramsFrom "" {| matched := []; params := ∅ |})
    by (unfold paramsFrom; simpl; set_solver).
  split; [|split].
  - intros Hno. destruct ok.
    + exfalso. apply Hno. apply findMatch_sound in Hfm as (chain & Hc & _); [|done].
      by exists chain.
    + simpl. by apply findMatch_fail_initial in Hfm.
  - intros [chain0 Hex].
    pose proof (findMatch_complete _ _ _ _ Hex {| matched := []; params := ∅ |}) as Hok.
    rewrite Hfm in Hok. simpl in Hok. subst ok.
    apply findMatch_sound in Hfm as (chain & Hc & Hm & Hp); [|done].
    exists chain. split; [done|]. split; [|split].
    + by apply chainMatches_segments in Hc.
    + simpl. destruct st' as [m ps]. simpl in *. by subst.
    + intros k. simpl. rewrite Hp. simpl. rewrite bindings_lookup, lookup_empty.
      destruct (decide (k = "__proto__")); [done|]. by destruct (boundTo _ _ k).
  - destruct ok.
    + apply findMatch_sound in Hfm as (chain & _ & _ & Hp); [|done].
      simpl. by rewrite Hp, bindings_proto, lookup_empty.
    + simpl. by apply findMatch_fail_initial in Hfm as ->.
Qed.

End Generic.

(** The matching chain of the nested example. *)
Lemma adminUsers_chain leafTest :
  leafTest "/admin/users" "/admin/users" = true ->
  chainMatches leafTest Examples.adminTable "" "/admin/users"
    [Examples.adminRoute; Examples.usersRoute].
Proof.
  intros Hleaf.
  eapply (chain_node leafTest _ "" "/admin/users" "/admin" Examples.Admin
            [Examples.usersRoute] ∅); [by left|vm_compute; reflexivity|].
  eapply (chain_leaf leafTest _ _ "/admin/users" "users" Examples.AdminUsers ∅);
    [by left|vm_compute; reflexivity|exact Hleaf].
Qed.

Lemma matchRoute_result_witness :
  exists chain,
    chainMatches RouterAlt.leafTest Examples.adminTable "" "/admin/users" chain
    /\ Forall2 segMatches (chainSegments chain) (segments "/admin/users")
    /\ RouterAlt._matchRoute Examples.adminTable "/admin/users"
       = {| matched := chain;
            params := bindings (chainSegments chain) (segments "/admin/users") ∅ |}
    /\ forall k, params (RouterAlt._matchRoute Examples.adminTable "/admin/users") !! k
                 = if decide (k = "__proto__") then None
                   else boundTo (chainSegments chain) (segments "/admin/users") k.
Proof.
  apply (proj1 (proj2 (matchRoute_result RouterAlt.leafTest Examples.adminTable
                         "/admin/users"))).
  eexists. by apply adminUsers_chain.
Defined.

(** X7. In [router.ts] a match is reported only for a path whose segments are
    the pattern segments of the chain themselves, parameter markers
    included. *)
Theorem ts_match_needs_pattern_text routes path chain :
  chainMatches RouterTs.leafTest routes "" path chain ->
  segments path = chainSegments chain.
Proof.
  assert (Hgen : forall routes parent cur chain,
            chainMatches RouterTs.leafTest routes parent cur chain ->
            segments cur = segments parent ++ chainSegments chain).
  { clear. induction 1 as [routes parent cur p c ps Hin Hex Hleaf
                          |routes parent cur p c kids ps rest Hin Hex Hrest IH].
    - unfold RouterTs.leafTest in Hleaf. apply String.eqb_eq in Hleaf as <-.
      rewrite segments_fullPathOf. unfold chainSegments. simpl. by rewrite app_nil_r.
    - rewrite IH, segments_fullPathOf. unfold chainSegments. simpl.
      by rewrite app_assoc. }
  intros H. by apply Hgen in H.
Qed.

Lemma ts_match_needs_pattern_text_witness :
  segments "/admin/users" = chainSegments [Examples.adminRoute; Examples.usersRoute].
Proof.
  apply (ts_match_needs_pattern_text Examples.adminTable).
  apply adminUsers_chain. reflexivity.
Defined.

End MatcherFacts.

(* ===================================================================== *)
(** * The path read from the location *)
(* ===================================================================== *)

Module LocationFacts.
Import JsString RouterCore Navigation RouterSpec LeafMatch FullPathFacts.
#[local] Open Scope list_scope.

Lemma split_first_piece sep s :
  split sep (default "" (head (split sep s))) = [default "" (head (split sep s))].
Proof.
  induction s as [|c s IH]; [done|]. cbn [split].
  destruct (Ascii.eqb c sep) eqn:Hc; [done|].
  pose proof (split_nonempty sep s) as Hne.
  destruct (split sep s) as [|w ws]; [done|]. simpl in *.
  by rewrite Hc, IH.
Qed.

(** X9. [_getCurrentPath] never returns the empty string and never a string
    with a ['?'] in it; what follows the first ['?'] of the fragment does
    not change it. *)
Theorem getCurrentPath_is_a_path b :
  truthy (_getCurrentPath b) = true
  /\ split "?" (_getCurrentPath b) = [_getCurrentPath b]
  /\ forall fragment q,
       split "?" fragment = [fragment] ->
       location_hash b = String "#" (fragment ++ String "?" q)%string ->
       _getCurrentPath b = if truthy fragment then fragment else "/".
Proof.
  unfold _getCurrentPath, nth_opt.
  pose proof (split_nonempty "?" (slice1 (location_hash b))) as Hne.
  pose proof (split_first_piece "?" (slice1 (location_hash b))) as Hfirst.
  split; [|split].
  - destruct (split "?" (slice1 (location_hash b))) as [|w ws]; [done|]. simpl.
    by destruct (truthy w) eqn:Hw.
  - destruct (split "?" (slice1 (location_hash b))) as [|w ws]; [done|]. simpl in *.
    by destruct (truthy w).
  - intros fragment q Hfrag ->. simpl. rewrite split_append, Hfrag. done.
Qed.

End LocationFacts.

(* ===================================================================== *)
(** * The document order after a run of the keyed reconciler *)
(* ===================================================================== *)

Module KeyedOrder.
Import Document Reconciler ReconcilerSpec ReconcilerFacts KeyedSpec.
#[local] Open Scope list_scope.

(** ** Lists of children *)

Lemma without_notin n l : n ∉ l -> without n l = l.
Proof.
  induction l as [|x l IH]; intros Hn; [done|]. unfold without in *.
  rewrite filter_cons, decide_True by (intros ->; apply Hn; by left).
  f_equal. apply IH. intros H. apply Hn. by right.
Qed.

Lemma without_app n a b : without n (a ++ b) = without n a ++ without n b.
Proof. apply filter_app. Qed.

Lemma without_head n l : without n (n :: l) = without n l.
Proof.
  unfold without. rewrite filter_cons, decide_False; [done|].
  intros H. by apply H.
Qed.

Lemma without_cons_ne n x l : x <> n -> without n (x :: l) = x :: without n l.
Proof. intros H. unfold without. by rewrite filter_cons, decide_True. Qed.

Lemma elem_of_without n x l : x ∈ without n l <-> x <> n /\ x ∈ l.
Proof. unfold without. by rewrite list_elem_of_filter. Qed.

Lemma NoDup_without n l : NoDup l -> NoDup (without n l).
Proof. apply NoDup_filter. Qed.

Lemma placeBefore_app n t a b :
  t ∉ a -> placeBefore n t (a ++ t :: b) = a ++ n :: t :: b.
Proof.
  induction a as [|x a IH]; intros Ht; simpl.
  - by rewrite Nat.eqb_refl.
  - destruct (Nat.eqb_spec x t) as [->|_]; [exfalso; apply Ht; by left|].
    f_equal. apply IH. intros H. apply Ht. by right.
Qed.

Lemma indexOf_app p a b : p ∉ a -> indexOf p (a ++ p :: b) = Some (List.length a).
Proof.
  induction a as [|x a IH]; intros Hp; simpl.
  - by rewrite Nat.eqb_refl.
  - destruct (Nat.eqb_spec x p) as [->|_]; [exfalso; apply Hp; by left|].
    rewrite IH; [done|]. intros H. apply Hp. by right.
Qed.

Lemma nextSibling_app p a b d :
  childNodes d = a ++ p :: b -> p ∉ a -> nextSibling p d = head b.
Proof.
  intros Hc Hp. unfold nextSibling. rewrite Hc, indexOf_app by done.
  rewrite lookup_app_r by lia.
  replace (S (List.length a) - List.length a) with 1 by lia. by destruct b.
Qed.

(** The slot after [previousElement] is the first child that follows the
    placed ones. *)
Lemma slotAfter_placed placed rest d :
  childNodes d = placed ++ rest -> NoDup (childNodes d) ->
  slotAfter (last placed) d = head rest.
Proof.
  intros Hc Hnd. destruct (last placed) as [p|] eqn:Hl.
  - apply last_Some in Hl as [placed' ->]. simpl.
    rewrite <- app_assoc in Hc. simpl in Hc.
    eapply nextSibling_app; [exact Hc|].
    rewrite Hc in Hnd. apply NoDup_app in Hnd as (_ & Hdisj & _).
    intros Hin. apply (Hdisj _ Hin). by left.
  - apply last_None in Hl as ->. simpl. unfold firstChild. by rewrite Hc.
Qed.

(** [insertBefore(n, slot)] for the slot after the placed children: [n]
    becomes the next placed child, wherever it was among the others (or
    nowhere). *)
Lemma insertBefore_at_slot n placed rest d :
  childNodes d = placed ++ rest -> NoDup (childNodes d) -> n ∉ placed ->
  exists d',
    insertBefore n (head rest) d = Some d'
    /\ childNodes d' = placed ++ n :: without n rest
    /\ nextFresh d' = nextFresh d
    /\ ops d' = ops d ++ [OpInsertBefore n (head rest)].
Proof.
  intros Hc Hnd Hn. unfold insertBefore.
  assert (Hwp : without n placed = placed) by (by apply without_notin).
  destruct rest as [|r rest']; simpl.
  - eexists. split; [done|]. simpl. rewrite Hc, without_app, Hwp. simpl.
    by rewrite app_nil_r.
  - assert (Hr : r ∈ childNodes d) by (rewrite Hc; set_solver).
    unfold isChild. rewrite bool_decide_eq_true_2 by done.
    rewrite Hc in Hnd. pose proof Hnd as Hnd'.
    apply NoDup_app in Hnd as (Hp & Hdisj & Hrest).
    assert (Hrp : r ∉ placed) by (intros H; apply (Hdisj _ H); by left).
    destruct (Nat.eqb_spec r n) as [->|Hne].
    + rewrite (nextSibling_app n placed rest' d Hc Hn).
      apply NoDup_cons in Hrest as [Hnr Hrest].
      rewrite without_head, (without_notin n rest' Hnr).
      destruct rest' as [|t rest'']; simpl.
      * eexists. split; [done|]. simpl.
        rewrite Hc, without_app, Hwp, without_head. unfold without. simpl.
        by rewrite app_nil_r.
      * eexists. split; [done|]. simpl.
        rewrite Hc, without_app, Hwp, without_head, (without_notin n _ Hnr).
        split; [|done]. apply placeBefore_app.
        intros H. apply (Hdisj _ H). right. by left.
    + eexists. split; [done|]. simpl.
      rewrite Hc, without_app, Hwp, (without_cons_ne n r rest' Hne).
      split; [|done]. by apply placeBefore_app.
Qed.

Lemma perm_without n l : NoDup l -> n ∈ l -> l ≡ₚ n :: without n l.
Proof.
  induction l as [|x l IH]; intros Hnd Hin; [by apply elem_of_nil in Hin|].
  apply NoDup_cons in Hnd as [Hx Hnd].
  destruct (decide (x = n)) as [->|Hne].
  - by rewrite without_head, without_notin.
  - apply elem_of_cons in Hin as [->|Hin]; [done|].
    rewrite without_cons_ne by done. rewrite (IH Hnd Hin) at 1. apply Permutation_swap.
Qed.

Lemma filter_without (P : nat -> Prop) `{forall x, Decision (P x)} n l :
  ~ P n -> filter P (without n l) = filter P l.
Proof.
  intros Hn. induction l as [|x l IH]; [done|].
  destruct (decide (x = n)) as [->|Hne].
  - by rewrite without_head, IH, (filter_cons P n), decide_False.
  - rewrite without_cons_ne by done. rewrite !filter_cons, IH. done.
Qed.

Lemma filter_agree {A} (P Q : A -> Prop) `{forall x, Decision (P x)}
    `{forall x, Decision (Q x)} (l : list A) :
  (forall x, x ∈ l -> P x <-> Q x) -> filter P l = filter Q l.
Proof.
  induction l as [|x l IH]; intros Hpq; [done|].
  rewrite !filter_cons, IH by (intros y Hy; apply Hpq; by right).
  destruct (decide (P x)) as [Hp|Hp], (decide (Q x)) as [Hq|Hq]; try done;
    exfalso; apply (Hpq x) in Hp || apply (Hpq x) in Hq; try done; by left.
Qed.

(** ** The reuse map *)

Section MapFacts.
Context {V : Type}.
Implicit Types m : list (string * V).

Lemma get_None k m : JsMap.get k m = None <-> k ∉ JsMap.keys m.
Proof.
  induction m as [|[k0 v0] m IH]; simpl; [split; [intros _; apply not_elem_of_nil|done]|].
  rewrite not_elem_of_cons. destruct (String.eqb_spec k0 k) as [->|Hne].
  - split; [done|]. by intros [? _].
  - rewrite IH. split; [by split|by intros [_ ?]].
Qed.

Lemma get_split k v m :
  JsMap.get k m = Some v ->
  exists m1 m2, m = m1 ++ (k, v) :: m2 /\ k ∉ JsMap.keys m1.
Proof.
  induction m as [|[k0 v0] m IH]; simpl; [done|].
  destruct (String.eqb_spec k0 k) as [->|Hne].
  - intros [= ->]. exists [], m. split; [done|]. apply not_elem_of_nil.
  - intros Hg. destruct (IH Hg) as (m1 & m2 & -> & Hk).
    exists ((k0, v0) :: m1), m2. split; [done|]. simpl.
    rewrite not_elem_of_cons. by split.
Qed.

Lemma get_app_notin k m1 m2 :
  k ∉ JsMap.keys m1 -> JsMap.get k (m1 ++ m2) = JsMap.get k m2.
Proof.
  induction m1 as [|[k0 v0] m1 IH]; simpl; [done|].
  rewrite not_elem_of_cons. intros [Hne Hk].
  destruct (String.eqb_spec k0 k) as [->|_]; [done|]. by apply IH.
Qed.

Lemma get_mid k v m1 m2 :
  k ∉ JsMap.keys m1 -> JsMap.get k (m1 ++ (k, v) :: m2) = Some v.
Proof. intros Hk. rewrite get_app_notin by done. simpl. by rewrite String.eqb_refl. Qed.

Lemma get_elem k v m : JsMap.get k m = Some v -> (k, v) ∈ m.
Proof. intros Hg. destruct (get_split _ _ _ Hg) as (m1 & m2 & -> & _). set_solver. Qed.

Lemma get_Some_keys k v m : JsMap.get k m = Some v -> k ∈ JsMap.keys m.
Proof.
  intros Hg. apply get_elem in Hg. unfold JsMap.keys.
  apply list_elem_of_fmap. by exists (k, v).
Qed.

Lemma elem_get k v m : NoDup (JsMap.keys m) -> (k, v) ∈ m -> JsMap.get k m = Some v.
Proof.
  intros Hnd Hin. apply list_elem_of_split in Hin as (m1 & m2 & ->).
  apply get_mid. unfold JsMap.keys in Hnd. rewrite map_app in Hnd.
  apply NoDup_app in Hnd as (_ & Hd & _). intros Hk. apply (Hd _ Hk). by left.
Qed.

Lemma delete_mid k v m1 m2 :
  k ∉ JsMap.keys m1 -> JsMap.delete k (m1 ++ (k, v) :: m2) = m1 ++ m2.
Proof.
  induction m1 as [|[k0 v0] m1 IH]; simpl; [by rewrite String.eqb_refl|].
  rewrite not_elem_of_cons. intros [Hne Hk].
  destruct (String.eqb_spec k0 k) as [->|_]; [done|]. by rewrite IH.
Qed.

Lemma delete_notin k m : k ∉ JsMap.keys m -> JsMap.delete k m = m.
Proof.
  induction m as [|[k0 v0] m IH]; simpl; [done|].
  rewrite not_elem_of_cons. intros [Hne Hk].
  destruct (String.eqb_spec k0 k) as [->|_]; [done|]. by rewrite IH.
Qed.

Lemma get_delete_ne k k' m : k <> k' -> JsMap.get k' (JsMap.delete k m) = JsMap.get k' m.
Proof.
  intros Hne. induction m as [|[k0 v0] m IH]; simpl; [done|].
  destruct (String.eqb_spec k0 k) as [->|Hne0].
  - by destruct (String.eqb_spec k k').
  - simpl. by rewrite IH.
Qed.

Lemma keys_delete k m :
  NoDup (JsMap.keys m) ->
  forall k', k' ∈ JsMap.keys (JsMap.delete k m) <-> k' <> k /\ k' ∈ JsMap.keys m.
Proof.
  intros Hnd k'. destruct (JsMap.get k m) as [v|] eqn:Hg.
  - destruct (get_split _ _ _ Hg) as (m1 & m2 & -> & Hk1).
    rewrite delete_mid by done. unfold JsMap.keys in *. rewrite !map_app in *.
    simpl in *. apply NoDup_app in Hnd as (_ & Hd & Hnd2).
    apply NoDup_cons in Hnd2 as [Hk2 _].
    rewrite !elem_of_app, elem_of_cons. split.
    + intros [H|H]; (split; [intros ->; done|tauto]).
    + intros [Hne [H|[H|H]]]; tauto.
  - apply get_None in Hg. rewrite delete_notin by done.
    split; [|tauto]. intros H. split; [|done]. by intros ->.
Qed.

Lemma set_new k v m : k ∉ JsMap.keys m -> JsMap.set k v m = m ++ [(k, v)].
Proof.
  induction m as [|[k0 v0] m IH]; simpl; [done|].
  rewrite not_elem_of_cons. intros [Hne Hk].
  destruct (String.eqb_spec k0 k) as [->|_]; [done|]. by rewrite IH.
Qed.

Lemma get_snoc_ne k k' v m : k <> k' -> JsMap.get k' (m ++ [(k, v)]) = JsMap.get k' m.
Proof.
  intros Hne. induction m as [|[k0 v0] m IH]; simpl.
  - by destruct (String.eqb_spec k k').
  - by rewrite IH.
Qed.

End MapFacts.

(** ** Elements of the reuse map *)

Lemma elemOpts_app m1 m2 : elemOpts (m1 ++ m2) = elemOpts m1 ++ elemOpts m2.
Proof. apply map_app. Qed.

Lemma get_elemOpt k e (m : list (string * ItemEntry)) :
  JsMap.get k m = Some e -> element e ∈ elemOpts m.
Proof.
  intros Hg. apply get_elem in Hg. unfold elemOpts.
  apply list_elem_of_fmap. by exists (k, e).
Qed.

Lemma elemOpt_get el (m : list (string * ItemEntry)) :
  NoDup (JsMap.keys m) -> Some el ∈ elemOpts m ->
  exists k e, JsMap.get k m = Some e /\ element e = Some el.
Proof.
  intros Hnd Hin. apply list_elem_of_fmap in Hin as ([k e] & He & Hin).
  exists k, e. split; [by apply elem_get|done].
Qed.

(** Two keys do not share an element. *)
Lemma elements_injective k k' e e' (m : list (string * ItemEntry)) :
  NoDup (elemOpts m) ->
  JsMap.get k m = Some e -> JsMap.get k' m = Some e' ->
  element e = element e' -> k = k'.
Proof.
  intros Hnd Hg Hg' Heq. destruct (decide (k = k')) as [|Hne]; [done|exfalso].
  destruct (get_split _ _ _ Hg) as (m1 & m2 & -> & Hk1).
  rewrite elemOpts_app in Hnd. simpl in Hnd.
  apply NoDup_app in Hnd as (_ & Hd & Hnd2). apply NoDup_cons in Hnd2 as [Hn2 _].
  apply get_elem in Hg'. apply elem_of_app in Hg' as [Hin|Hin].
  - apply (Hd (element e)); [|by left].
    rewrite Heq. apply list_elem_of_fmap. by exists (k', e').
  - apply elem_of_cons in Hin as [[= ? ?]|Hin]; [done|].
    apply Hn2. rewrite Heq. apply list_elem_of_fmap. by exists (k', e').
Qed.

Lemma placedOf_snoc m done k e el :
  JsMap.get k m = Some e -> element e = Some el ->
  placedOf m (done ++ [k]) = placedOf m done ++ [el].
Proof.
  intros Hg He. unfold placedOf. rewrite omap_app. simpl. by rewrite Hg; simpl; rewrite He.
Qed.

Lemma placedOf_managed m done x : x ∈ placedOf m done -> Some x ∈ elemOpts m.
Proof.
  unfold placedOf. rewrite list_elem_of_omap. intros (k & _ & Hk).
  destruct (JsMap.get k m) as [e|] eqn:Hg; [|done]. simpl in Hk.
  rewrite <- Hk. by eapply get_elemOpt.
Qed.

Lemma placed_notin m done k e el :
  NoDup (elemOpts m) -> k ∉ done ->
  JsMap.get k m = Some e -> element e = Some el -> el ∉ placedOf m done.
Proof.
  intros Hnd Hk Hg He. unfold placedOf. rewrite list_elem_of_omap.
  intros (k' & Hin & Hk').
  destruct (JsMap.get k' m) as [e'|] eqn:Hg'; [|done]. simpl in Hk'.
  assert (k = k') as -> by (eapply elements_injective; eauto; congruence).
  done.
Qed.

Lemma placedOf_cons m k done :
  placedOf m (k :: done)
  = match JsMap.get k m ≫= element with
    | Some el => el :: placedOf m done
    | None => placedOf m done
    end.
Proof. done. Qed.

Lemma placedOf_agree m m' done :
  (forall k, k ∈ done -> JsMap.get k m' = JsMap.get k m) ->
  placedOf m' done = placedOf m done.
Proof.
  induction done as [|k done IH]; intros Hag; [done|].
  assert (Hrec : placedOf m' done = placedOf m done)
    by (apply IH; intros k' Hk'; apply Hag; by right).
  rewrite !placedOf_cons, Hag by (by left). by rewrite Hrec.
Qed.

Lemma placedOf_length m done :
  Forall (fun k => is_Some (JsMap.get k m)) done -> None ∉ elemOpts m ->
  List.length (placedOf m done) = List.length done.
Proof.
  intros Hall Hdef. induction Hall as [|k done [e He] _ IH]; [done|].
  rewrite placedOf_cons, He. simpl.
  destruct (element e) as [el|] eqn:Hel.
  - simpl. by rewrite IH.
  - exfalso. apply Hdef. rewrite <- Hel. by eapply get_elemOpt.
Qed.

(** ** One key of [newKeys.forEach] *)

(** The element of a key of the reuse map is put after the placed ones. *)
Lemma placed_extend allKeys others0 done d m prev rest k e el d' :
  placedSoFar allKeys others0 done d m prev ->
  childNodes d = placedOf m done ++ rest ->
  k ∉ done -> JsMap.get k m = Some e -> element e = Some el ->
  childNodes d' = placedOf m done ++ el :: without el rest ->
  nextFresh d' = nextFresh d ->
  placedSoFar allKeys others0 (done ++ [k]) d' m (Some el).
Proof.
  intros [[Hnd Hfr Hks Hes Hdef Hatt] _ Htr _ Hkeys Hoth] Hc Hk Hg He Hc' Hf'.
  assert (Hman : Some el ∈ elemOpts m) by (rewrite <- He; by eapply get_elemOpt).
  assert (Hel : el ∈ childNodes d) by (by apply Hatt).
  assert (Hnp : el ∉ placedOf m done) by (by eapply placed_notin).
  assert (Hrest : el ∈ rest).
  { rewrite Hc in Hel. apply elem_of_app in Hel as [|]; done. }
  assert (Hperm : childNodes d' ≡ₚ childNodes d).
  { rewrite Hc, Hc'. apply Permutation_app_head. symmetry. apply perm_without; [|done].
    rewrite Hc in Hnd. by apply NoDup_app in Hnd as (_ & _ & ?). }
  split.
  - split; try done.
    + by rewrite Hperm.
    + rewrite Hf', Hperm. done.
    + intros n Hn. rewrite Hperm. by apply Hatt.
  - exists (without el rest). rewrite (placedOf_snoc m done k e el) by done.
    by rewrite <- app_assoc.
  - apply Forall_app. split; [done|]. constructor; [by eexists|constructor].
  - rewrite (placedOf_snoc m done k e el) by done. by rewrite last_snoc.
  - done.
  - rewrite <- Hoth. unfold others. rewrite Hc, Hc', !filter_app.
    f_equal. rewrite filter_cons, decide_False by (by intros H; apply H).
    by apply filter_without; intros H; apply H.
Qed.

Section Step.
Variable walkShape : string -> WalkShape.
Hypothesis single : forall it, walkShape it = SingleNode.
Variable newItemMap : list (string * (string * nat)).
Variables (allKeys : list string) (others0 : list nat).

Lemma processKey_reused done d m prev k e :
  placedSoFar allKeys others0 done d m prev ->
  k ∉ done -> JsMap.get k m = Some e ->
  exists d' prev',
    processKey walkShape newItemMap k ((d, m), prev) = Some ((d', m), prev')
    /\ placedSoFar allKeys others0 (done ++ [k]) d' m prev'
    /\ nextFresh d' = nextFresh d.
Proof.
  intros Hps Hk Hg. pose proof Hps as [Hwf [rest Hc] _ Hprev _ _].
  pose proof Hwf as [Hnd _ _ Hes Hdef Hatt].
  destruct (element e) as [el|] eqn:He;
    [|exfalso; apply Hdef; rewrite <- He; by eapply get_elemOpt].
  assert (Hel : el ∈ childNodes d).
  { apply Hatt. rewrite <- He. by eapply get_elemOpt. }
  assert (Hnp : el ∉ placedOf m done) by (by eapply placed_notin).
  pose proof (slotAfter_placed _ _ _ Hc Hnd) as Hslot. rewrite <- Hprev in Hslot.
  destruct (insertBefore_at_slot el _ _ _ Hc Hnd Hnp) as (d' & Hins & Hc' & Hf' & _).
  unfold processKey. rewrite Hg, He.
  destruct prev as [p|]; simpl in Hslot; rewrite Hslot.
  - case_bool_decide as Htest.
    + rewrite Hins. exists d', (Some el). split; [done|]. split; [|done].
      by eapply placed_extend.
    + exfalso. rewrite <- Hslot in Htest. revert Htest.
      symmetry in Hprev. apply last_Some in Hprev as [pl Hpl].
      apply nextSibling_differs; [done|done| |].
      * rewrite Hc, Hpl. set_solver.
      * intros ->. apply Hnp. rewrite Hpl. set_solver.
  - case_bool_decide as Htest.
    + rewrite Hins. exists d', (Some el). split; [done|]. split; [|done].
      by eapply placed_extend.
    + exists d, (Some el). split; [done|]. split; [|done].
      eapply placed_extend; try done.
      symmetry in Hprev. apply last_None in Hprev. rewrite Hprev in *. simpl in *.
      rewrite Hc in *. destruct rest as [|r rest']; [by apply elem_of_nil in Hel|].
      simpl in Htest. assert (r = el) as -> by congruence.
      apply NoDup_cons in Hnd as [Hr _]. by rewrite without_head, without_notin.
Qed.

Lemma processKey_created done d m prev k it i :
  placedSoFar allKeys others0 done d m prev ->
  k ∈ allKeys -> JsMap.get k m = None -> JsMap.get k newItemMap = Some (it, i) ->
  exists d' m',
    processKey walkShape newItemMap k ((d, m), prev) = Some ((d', m'), Some (nextFresh d))
    /\ placedSoFar allKeys others0 (done ++ [k]) d' m' (Some (nextFresh d))
    /\ m' = m ++ [(k, {| element := Some (nextFresh d); item := it; index := i |})]
    /\ nextFresh d' = S (nextFresh d).
Proof.
  intros Hps Hall Hg Hn. pose proof Hps as [Hwf [rest Hc] Htr Hprev Hkeys Hoth].
  pose proof Hwf as [Hnd Hfr Hks Hes Hdef Hatt].
  apply get_None in Hg.
  set (n := nextFresh d).
  set (d2 := logOp (OpCloneWalk k [n]) (snd (fresh 1 d))).
  assert (Hc2 : childNodes d2 = placedOf m done ++ rest) by done.
  assert (Hnew : n ∉ childNodes d).
  { intros Hin. rewrite Forall_forall in Hfr. apply Hfr in Hin. subst n. lia. }
  assert (Hnp : n ∉ placedOf m done) by (rewrite Hc in Hnew; set_solver).
  assert (Hnr : n ∉ rest) by (rewrite Hc in Hnew; set_solver).
  assert (Hnm : Some n ∉ elemOpts m) by (intros H; by apply Hnew, Hatt).
  assert (Hnd2 : NoDup (childNodes d2)) by done.
  pose proof (slotAfter_placed _ _ _ Hc2 Hnd2) as Hslot. rewrite <- Hprev in Hslot.
  destruct (insertBefore_at_slot n _ _ _ Hc2 Hnd2 Hnp) as (d' & Hins & Hc' & Hf' & _).
  rewrite (without_notin n rest Hnr) in Hc'.
  unfold processKey. rewrite (proj2 (get_None k m) Hg), Hn, single.
  cbn [fresh]. fold n. change (logOp _ _) with d2. rewrite Hslot, Hins.
  rewrite (set_new k _ m Hg).
  set (entry := {| element := Some n; item := it; index := i |}).
  assert (Hag : forall k', k' ∈ done -> JsMap.get k' (m ++ [(k, entry)]) = JsMap.get k' m).
  { intros k' Hk'. apply get_snoc_ne. intros ->. rewrite Forall_forall in Htr.
    destruct (Htr _ Hk') as [e' He']. apply get_None in Hg. congruence. }
  assert (Hpl : placedOf (m ++ [(k, entry)]) (done ++ [k]) = placedOf m done ++ [n]).
  { rewrite (placedOf_snoc _ done k entry n); [|by apply get_mid|done].
    by rewrite (placedOf_agree m). }
  exists d', (m ++ [(k, entry)]). split; [done|]. split; [|split; [done|]].
  - split.
    + split.
      * rewrite Hc'. rewrite Hc in Hnd. apply NoDup_app in Hnd as (H1 & H2 & H3).
        apply NoDup_app. split; [done|]. split; [|by apply NoDup_cons].
        intros x Hx. rewrite not_elem_of_cons. split; [by intros ->|by apply H2].
      * rewrite Hf', Hc'. rewrite Hc in Hfr. apply Forall_app in Hfr as [H1 H2].
        apply Forall_app. simpl. split; [|constructor; [subst n; lia|]];
          (eapply Forall_impl; [eassumption|]); simpl; intros; lia.
      * unfold JsMap.keys. rewrite map_app. simpl. apply NoDup_app.
        split; [done|]. split; [|apply NoDup_singleton].
        intros x Hx. rewrite list_elem_of_singleton. by intros ->.
      * rewrite elemOpts_app. simpl. apply NoDup_app.
        split; [done|]. split; [|apply NoDup_singleton].
        intros x Hx. rewrite list_elem_of_singleton. by intros ->.
      * rewrite elemOpts_app. simpl. rewrite elem_of_app, list_elem_of_singleton.
        by intros [|].
      * intros x. rewrite elemOpts_app, Hc'. simpl.
        rewrite elem_of_app, list_elem_of_singleton. intros [Hx|[= ->]].
        -- apply Hatt in Hx. rewrite Hc in Hx. set_solver.
        -- set_solver.
    + exists rest. by rewrite Hpl, Hc', <- app_assoc.
    + apply Forall_app. split.
      * rewrite Forall_forall in *. intros k' Hk'. rewrite Hag by done. by apply Htr.
      * constructor; [|constructor]. exists entry. by apply get_mid.
    + by rewrite Hpl, last_snoc.
    + intros k'. unfold JsMap.keys. rewrite map_app. simpl.
      rewrite elem_of_app, list_elem_of_singleton. intros [H| ->]; [by apply Hkeys|done].
    + rewrite <- Hoth. unfold others. rewrite Hc', Hc, !filter_app, filter_cons.
      rewrite decide_False.
      2:{ intros H. apply H. rewrite elemOpts_app. set_solver. }
      f_equal; apply filter_agree; intros x Hx; rewrite elemOpts_app; simpl;
        rewrite elem_of_app, list_elem_of_singleton;
        (split; [tauto|]); intros H [|[= ->]]; done.
  - rewrite Hf'. subst n d2. simpl. lia.
Qed.

(** [newKeys.forEach]: the keys still to do are placed one after the other;
    the entries of the reuse map stay, the new ones hold fresh nodes. *)
Lemma processKeys_placed todo : forall done d m prev,
  placedSoFar allKeys others0 done d m prev ->
  NoDup (done ++ todo) ->
  Forall (fun k => k ∈ allKeys /\ is_Some (JsMap.get k newItemMap)) todo ->
  exists d' m' prev',
    processKeys walkShape newItemMap todo ((d, m), prev) = Some ((d', m'), prev')
    /\ placedSoFar allKeys others0 (done ++ todo) d' m' prev'
    /\ (forall k e, JsMap.get k m = Some e -> JsMap.get k m' = Some e)
    /\ (forall k e, JsMap.get k m = None -> JsMap.get k m' = Some e ->
          exists n, element e = Some n /\ nextFresh d <= n)
    /\ nextFresh d <= nextFresh d'.
Proof.
  induction todo as [|k todo IH]; intros done d m prev Hps Hnd Hall.
  - exists d, m, prev. rewrite app_nil_r. split; [done|]. split; [done|]. split; [done|]. split; [|done].
    intros k e H1 H2. rewrite H1 in H2. done.
  - apply Forall_cons in Hall as [[Hk [[it i] Hn]] Hall].
    assert (Hkd : k ∉ done).
    { apply NoDup_app in Hnd as (_ & Hd & _). intros H. apply (Hd _ H). by left. }
    assert (Hnd' : NoDup ((done ++ [k]) ++ todo)) by (by rewrite <- app_assoc).
    cbn [processKeys]. destruct (JsMap.get k m) as [e|] eqn:Hg.
    + destruct (processKey_reused done d m prev k e Hps Hkd Hg)
        as (d1 & prev1 & -> & Hps1 & Hf1).
      destruct (IH _ _ _ _ Hps1 Hnd' Hall) as (d' & m' & prev' & -> & Hps' & Hst & Hnew & Hf').
      exists d', m', prev'. rewrite <- app_assoc in Hps'.
      split; [done|]. split; [done|]. split; [done|]. split; [|lia].
      intros k' e' Hn1 Hs1. destruct (Hnew _ _ Hn1 Hs1) as (n & ? & ?).
      exists n. split; [done|lia].
    + destruct (processKey_created done d m prev k it i Hps Hk Hg Hn)
        as (d1 & m1 & -> & Hps1 & Hm1 & Hf1).
      destruct (IH _ _ _ _ Hps1 Hnd' Hall) as (d' & m' & prev' & -> & Hps' & Hst & Hnew & Hf').
      exists d', m', prev'. rewrite <- app_assoc in Hps'.
      assert (Hk1 : JsMap.get k m1 = Some {| element := Some (nextFresh d); item := it; index := i |}).
      { rewrite Hm1. apply get_mid. by apply get_None. }
      split; [done|]. split; [done|]. split; [|split; [|lia]].
      * intros k' e' He'. apply Hst. rewrite Hm1, get_snoc_ne; [done|]. congruence.
      * intros k' e' Hn1 Hs1. destruct (decide (k' = k)) as [->|Hne].
        -- rewrite (Hst _ _ Hk1) in Hs1. injection Hs1 as <-. by eexists.
        -- assert (Hn2 : JsMap.get k' m1 = None) by (rewrite Hm1, get_snoc_ne; done).
           destruct (Hnew _ _ Hn2 Hs1) as (n & ? & ?). exists n. split; [done|lia].
Qed.

End Step.

(** ** "Remove old items" *)

Lemma removeOld_spec ks : forall d m,
  wfList d m ->
  exists d1 m1,
    removeOld ks (d, m) = (d1, m1)
    /\ wfList d1 m1
    /\ others d1 m1 = others d m
    /\ nextFresh d1 = nextFresh d
    /\ (forall k, k ∈ JsMap.keys m1 <-> (k ∉ ks) /\ k ∈ JsMap.keys m)
    /\ (forall k, k ∉ ks -> JsMap.get k m1 = JsMap.get k m).
Proof.
  induction ks as [|k ks IH]; intros d m Hwf.
  - exists d, m. split; [done|]. split; [done|]. split; [done|]. split; [done|].
    split; [|done]. intros k. split; [|tauto]. intros H. split; [apply not_elem_of_nil|done].
  - cbn [removeOld]. pose proof Hwf as [Hnd Hfr Hks Hes Hdef Hatt].
    assert (Hstep : exists d0,
      match JsMap.get k m with
      | Some {| element := Some el |} => if isChild el d then removeChild el d else d
      | _ => d
      end = d0
      /\ wfList d0 (JsMap.delete k m) /\ others d0 (JsMap.delete k m) = others d m
      /\ nextFresh d0 = nextFresh d).
    { destruct (JsMap.get k m) as [e|] eqn:Hg.
      - destruct (get_split _ _ _ Hg) as (m1 & m2 & Hm & Hk1).
        pose proof (get_elemOpt _ _ _ Hg) as Hin.
        destruct e as [[el|] it i]; simpl in Hin; [|done].
        assert (Hel : el ∈ childNodes d) by (by apply Hatt).
        unfold isChild. rewrite bool_decide_eq_true_2 by done.
        eexists. split; [done|]. subst m. rewrite delete_mid by done.
        assert (Hsub : m1 ++ m2 `sublist_of` m1 ++ (k, {| element := Some el; item := it; index := i |}) :: m2).
        { apply sublist_app; [done|]. by apply sublist_cons. }
        rewrite elemOpts_app in Hes. simpl in Hes.
        assert (Hgone : Some el ∉ elemOpts (m1 ++ m2)).
        { rewrite elemOpts_app. apply NoDup_app in Hes as (_ & Hd & H2).
          apply NoDup_cons in H2 as [H2 _]. rewrite elem_of_app.
          intros [H|H]; [|done]. apply (Hd _ H). by left. }
        split; [split|split; [|done]]; simpl.
        + by apply NoDup_without.
        + rewrite Forall_forall in *. intros x Hx. apply elem_of_without in Hx as [_ Hx].
          by apply Hfr.
        + eapply sublist_NoDup; [exact Hks|]. by apply fmap_sublist.
        + rewrite elemOpts_app. apply NoDup_app in Hes as (H1 & Hd & H2).
          apply NoDup_cons in H2 as [H2 H3]. apply NoDup_app. split; [done|].
          split; [|done]. intros x Hx Hx'. apply (Hd _ Hx). by right.
        + intros H. apply Hdef. eapply elem_of_sublist; [exact H|]. by apply fmap_sublist.
        + intros n Hn. apply elem_of_without. split; [by intros ->|].
          apply Hatt. eapply elem_of_sublist; [exact Hn|]. by apply fmap_sublist.
        + unfold others. simpl.
          rewrite <- (filter_without
            (fun n => Some n ∉ elemOpts (m1 ++ (k, {| element := Some el; item := it; index := i |}) :: m2))
            el (childNodes d)).
          2:{ intros H. apply H. rewrite elemOpts_app. set_solver. }
          apply filter_agree. intros x Hx. apply elem_of_without in Hx as [Hne _].
          rewrite !elemOpts_app. simpl. rewrite !elem_of_app, elem_of_cons.
          split; [|tauto]. intros H [|[[= ?]|]]; tauto.
      - apply get_None in Hg. rewrite delete_notin by done. by exists d. }
    destruct Hstep as (d0 & -> & Hwf0 & Hoth0 & Hf0).
    destruct (IH d0 _ Hwf0) as (d1 & m1 & -> & Hwf1 & Hoth1 & Hf1 & Hk1 & Hg1).
    exists d1, m1. split; [done|]. split; [done|]. split; [congruence|].
    split; [congruence|]. split.
    + intros k'. rewrite Hk1, keys_delete, not_elem_of_cons by done. tauto.
    + intros k' Hk'. apply not_elem_of_cons in Hk' as [H0 H1].
      rewrite Hg1 by done. apply get_delete_ne. congruence.
Qed.

(** ** A whole run *)

Lemma filter_all {A} (P : A -> Prop) `{forall x, Decision (P x)} (l : list A) :
  Forall P l -> filter P l = l.
Proof.
  induction 1 as [|x l Hx _ IH]; [done|].
  by rewrite filter_cons, decide_True, IH.
Qed.

Lemma placedOf_tracked m ks :
  Forall (fun k => is_Some (JsMap.get k m)) ks -> None ∉ elemOpts m ->
  Forall2 (tracked m) ks (placedOf m ks).
Proof.
  intros Hall Hdef. induction Hall as [|k ks [e He] _ IH]; [constructor|].
  rewrite placedOf_cons, He. simpl. destruct (element e) as [el|] eqn:Hel.
  - constructor; [by exists e|done].
  - exfalso. apply Hdef. rewrite <- Hel. by eapply get_elemOpt.
Qed.

Lemma reconcile_spec walkShape items d m :
  (forall it, walkShape it = SingleNode) ->
  wfList d m -> NoDup (newKeysOf items) ->
  exists d' m',
    reconcile walkShape items (d, m) = Some (d', m')
    /\ wfList d' m'
    /\ childNodes d' = placedOf m' (newKeysOf items) ++ others d m
    /\ Forall (fun k => is_Some (JsMap.get k m')) (newKeysOf items)
    /\ (forall k, k ∈ JsMap.keys m' -> k ∈ newKeysOf items)
    /\ (forall k e, k ∈ newKeysOf items -> JsMap.get k m = Some e -> JsMap.get k m' = Some e)
    /\ (forall k e, JsMap.get k m = None -> JsMap.get k m' = Some e ->
          exists n, element e = Some n /\ nextFresh d <= n).
Proof.
  intros Hsingle Hwf Hnd. unfold reconcile, newKeysOf in *.
  assert (Hhas : forall k, JsMap.has k (fst (buildNew items 0 [] [])) = true
                           <-> k ∈ snd (buildNew items 0 [] [])).
  { apply buildNew_has. intros k. split; [done|]. intros H. by apply elem_of_nil in H. }
  destruct (buildNew items 0 [] []) as [nm nk]. simpl in *.
  set (ks := filter (fun k => JsMap.has k nm = false) (JsMap.keys m)).
  destruct (removeOld_spec ks d m Hwf) as (d1 & m1 & -> & Hwf1 & Hoth1 & Hf1 & Hk1 & Hg1).
  assert (Hkept : forall k, k ∈ nk -> k ∉ ks).
  { intros k Hk Hin. apply list_elem_of_filter in Hin as [Hin _].
    apply Hhas in Hk. congruence. }
  assert (Hinit : placedSoFar nk (others d m) [] d1 m1 None).
  { split; try done.
    - by exists (childNodes d1).
    - intros k Hk. apply Hk1 in Hk as [Hk Hin]. apply Hhas.
      destruct (JsMap.has k nm) eqn:Hh; [done|]. exfalso. apply Hk.
      by apply list_elem_of_filter. }
  destruct (processKeys_placed walkShape Hsingle nm nk (others d m) nk [] d1 m1 None Hinit)
    as (d' & m' & prev' & -> & Hps & Hst & Hnew & Hf'); [done| |].
  { apply Forall_forall. intros k Hk. split; [done|]. apply Hhas in Hk.
    unfold JsMap.has in Hk. by destruct (JsMap.get k nm). }
  simpl in Hps. destruct Hps as [Hwf' [rest Hc'] Htr' _ Hkeys' Hoth'].
  exists d', m'. simpl. split; [done|]. split; [done|].
  pose proof Hwf' as [Hnd' _ Hks' _ _ _].
  assert (Hrest : others d' m' = rest).
  { unfold others. rewrite Hc', filter_app.
    rewrite (filter_none _ (placedOf m' nk)), (filter_all _ rest); [done| |].
    - apply Forall_forall. intros x Hx Hman.
      destruct (elemOpt_get _ _ Hks' Hman) as (k & e & Hg & He).
      assert (Hk : k ∈ nk).
      { apply Hkeys'. by eapply get_Some_keys. }
      rewrite Hc' in Hnd'. apply NoDup_app in Hnd' as (_ & Hd & _).
      apply (Hd x); [|done]. unfold placedOf. apply list_elem_of_omap.
      exists k. split; [done|]. by rewrite Hg.
    - apply Forall_forall. intros x Hx Hn. apply Hn. by eapply placedOf_managed. }
  split; [congruence|]. split; [done|]. split; [done|]. split.
  - intros k e Hk Hg. apply Hst. rewrite Hg1; [done|]. by apply Hkept.
  - intros k e Hn Hs. destruct (Hnew k e) as (n & He & Hle); [|done|].
    + apply get_None. intros Hin. apply Hk1 in Hin as [_ Hin]. by apply get_None in Hn.
    + exists n. split; [done|lia].
Qed.

(** The well-formed state before the second run of the examples. *)
Lemma stateABC_wf : wfList (fst stateABC) (snd stateABC).
Proof.
  split; simpl.
  - by apply (bool_decide_unpack _); vm_compute.
  - by apply (bool_decide_unpack _); vm_compute.
  - by apply (bool_decide_unpack _); vm_compute.
  - by apply (bool_decide_unpack _); vm_compute.
  - by apply (bool_decide_unpack _); vm_compute.
  - intros n Hn. set_solver.
Qed.

(** X10. A run of the keyed reconciler over single-node items, from a
    well-formed state and for a list without repeated keys: it returns, the
    state is well-formed again, the reuse map has the keys of the list, and
    the parent's children are the elements of the keys, in the order of the
    list, followed by the children that were not elements of the reuse map,
    in the order they had. *)
Theorem keyed_run_orders_children walkShape items d m :
  (forall it, walkShape it = SingleNode) ->
  wfList d m -> NoDup (newKeysOf items) ->
  exists d' m' els,
    reconcile walkShape items (d, m) = Some (d', m')
    /\ wfList d' m'
    /\ JsMap.keys m' ≡ₚ newKeysOf items
    /\ Forall2 (tracked m') (newKeysOf items) els
    /\ childNodes d' = els ++ others d m.
Proof.
  intros Hs Hwf Hnd.
  destruct (reconcile_spec walkShape items d m Hs Hwf Hnd)
    as (d' & m' & Hrun & Hwf' & Hc & Htr & Hkeys & _ & _).
  exists d', m', (placedOf m' (newKeysOf items)).
  split; [done|]. split; [done|]. split; [|split; [|done]].
  - apply NoDup_Permutation; [by destruct Hwf'|done|]. intros k. split; [apply Hkeys|].
    intros Hk. rewrite Forall_forall in Htr. destruct (Htr _ Hk) as [e He].
    by eapply get_Some_keys.
  - apply placedOf_tracked; [done|by destruct Hwf'].
Qed.

Lemma keyed_run_orders_children_witness :
  exists d' m' els,
    reconcile singleNodes (keyed ["c"; "a"; "d"]) (fst stateABC, snd stateABC) = Some (d', m')
    /\ wfList d' m'
    /\ JsMap.keys m' ≡ₚ newKeysOf (keyed ["c"; "a"; "d"])
    /\ Forall2 (tracked m') (newKeysOf (keyed ["c"; "a"; "d"])) els
    /\ childNodes d' = els ++ others (fst stateABC) (snd stateABC).
Proof.
  apply (keyed_run_orders_children singleNodes (keyed ["c"; "a"; "d"])
           (fst stateABC) (snd stateABC)).
  - done.
  - exact stateABC_wf.
  - by apply (bool_decide_unpack _); vm_compute.
Defined.

(** X11. In such a run, a key of the list that is in the reuse map keeps its
    element; a key of the list that is not gets an element that was not a
    child of the parent; the element of a key that is not in the list is no
    longer a child, and the key is no longer in the reuse map. *)
Theorem keyed_run_reuses_clones_detaches walkShape items d m :
  (forall it, walkShape it = SingleNode) ->
  wfList d m -> NoDup (newKeysOf items) ->
  exists d' m',
    reconcile walkShape items (d, m) = Some (d', m')
    /\ (forall k el, k ∈ newKeysOf items -> tracked m k el -> tracked m' k el)
    /\ (forall k, k ∈ newKeysOf items -> JsMap.get k m = None ->
          exists el, tracked m' k el /\ el ∉ childNodes d)
    /\ (forall k el, k ∉ newKeysOf items -> tracked m k el ->
          (el ∉ childNodes d') /\ JsMap.get k m' = None).
Proof.
  intros Hs Hwf Hnd.
  destruct (reconcile_spec walkShape items d m Hs Hwf Hnd)
    as (d' & m' & Hrun & Hwf' & Hc & Htr & Hkeys & Hst & Hnew).
  pose proof Hwf as [_ Hfr _ Hes _ Hatt].
  assert (Hfresh : forall n, nextFresh d <= n -> n ∉ childNodes d).
  { intros n Hle Hin. rewrite Forall_forall in Hfr. apply Hfr in Hin. lia. }
  exists d', m'. split; [done|]. split; [|split].
  - intros k el Hk (e & Hg & He). exists e. split; [by apply Hst|done].
  - intros k Hk Hn. rewrite Forall_forall in Htr. destruct (Htr _ Hk) as [e He].
    destruct (Hnew _ _ Hn He) as (n & Hel & Hle).
    exists n. split; [by exists e|by apply Hfresh].
  - intros k el Hk (e & Hg & He). split.
    + rewrite Hc, elem_of_app. intros [Hin|Hin].
      * unfold placedOf in Hin. apply list_elem_of_omap in Hin as (k' & Hk' & Hel).
        destruct (JsMap.get k' m') as [e'|] eqn:Hg'; [|done]. simpl in Hel.
        destruct (JsMap.get k' m) as [e0|] eqn:Hg0.
        -- rewrite (Hst _ _ Hk' Hg0) in Hg'. injection Hg' as ->.
           assert (k = k') as -> by (eapply elements_injective; eauto; congruence).
           done.
        -- destruct (Hnew _ _ Hg0 Hg') as (n & Hn & Hle).
           assert (n = el) as -> by congruence.
           apply (Hfresh el Hle). apply Hatt. rewrite <- He. by eapply get_elemOpt.
      * unfold others in Hin. apply list_elem_of_filter in Hin as [Hin _].
        apply Hin. rewrite <- He. by eapply get_elemOpt.
    + apply get_None. intros Hin. by apply Hkeys in Hin.
Qed.

Lemma keyed_run_reuses_witness :
  exists d' m',
    reconcile singleNodes (keyed ["c"; "a"; "d"]) (fst stateABC, snd stateABC) = Some (d', m')
    /\ (forall k el, k ∈ newKeysOf (keyed ["c"; "a"; "d"]) ->
          tracked (snd stateABC) k el -> tracked m' k el)
    /\ (forall k, k ∈ newKeysOf (keyed ["c"; "a"; "d"]) -> JsMap.get k (snd stateABC) = None ->
          exists el, tracked m' k el /\ el ∉ childNodes (fst stateABC))
    /\ (forall k el, k ∉ newKeysOf (keyed ["c"; "a"; "d"]) -> tracked (snd stateABC) k el ->
          (el ∉ childNodes d') /\ JsMap.get k m' = None).
Proof.
  apply (keyed_run_reuses_clones_detaches singleNodes (keyed ["c"; "a"; "d"])
           (fst stateABC) (snd stateABC)).
  - done.
  - exact stateABC_wf.
  - by apply (bool_decide_unpack _); vm_compute.
Defined.

End KeyedOrder.

(* ===================================================================== *)
(** * What every run of the reactive runtime keeps *)
(* ===================================================================== *)

Module RuntimeFacts.
Import Reactive ReactiveSpec ReadOnlyEffects ReactiveFacts RuntimeSpec.
#[local] Open Scope list_scope.

(** ** A relation kept by each step is kept by every run *)

Section Related.
Variable R : MelodiReactive -> MelodiReactive -> Prop.
Hypothesis R_refl : forall st, R st st.
Hypothesis R_trans : forall a b c, R a b -> R b c -> R a c.
Hypothesis R_read : forall s st, R st (snd (read s st)).
Hypothesis R_store : forall s x st, R st (store s x st).
Hypothesis R_add : forall c st, R st (setEffects (effects st ++ [c]) st).
Hypothesis R_enter : forall e st,
  is_Some (effects st !! e) -> R st (setCurrent (Some e) (record (Ran e) st)).
Hypothesis R_leave : forall st, R st (setCurrent None st).
Hypothesis R_cleanup : forall e st, R st (setCleanupVar e st).

Lemma run_related fuel :
  (forall fn st st', execBody fuel fn st = Some st' -> R st st')
  /\ (forall e st st', effect fuel e st = Some st' -> R st st')
  /\ (forall s i st st', notifyFrom fuel s i st = Some st' -> R st st').
Proof.
  induction fuel as [|fuel (IHb & IHe & IHn)]; [by repeat split|].
  assert (Hw : forall s x st st', writeWith (notifyFrom fuel) s x st = Some st' ->
                                  R st st').
  { intros s x st st'. unfold writeWith.
    destruct (signals st !! s); [|intros [= <-]; apply R_refl].
    destruct (_ && _); [intros [= <-]; apply R_refl|].
    intros H%IHn. eapply R_trans; [apply R_store|done]. }
  assert (Hrun : forall c st st', effect fuel (List.length (effects st))
                     (setEffects (effects st ++ [c]) st) = Some st' -> R st st').
  { intros c st st' H%IHe. eapply R_trans; [apply R_add|done]. }
  split; [|split].
  - intros fn st st'. simpl. destruct fn as [|[s|s x|s thn els|fn'|fn' ret] rest].
    + intros [= <-]. apply R_refl.
    + intros H%IHb. eapply R_trans; [apply R_read|done].
    + destruct (writeWith _ s x st) as [st1|] eqn:H1; [|done].
      intros H%IHb. apply Hw in H1. by eapply R_trans.
    + destruct (read s st) as [x st1] eqn:Hr. intros H%IHb.
      pose proof (R_read s st) as Hx. rewrite Hr in Hx.
      by eapply R_trans.
    + unfold createEffectWith.
      destruct (effect fuel _ _) as [st1|] eqn:H1; [|done].
      intros H%IHb. apply Hrun in H1. by eapply R_trans.
    + unfold createEffectWithCleanupWith.
      destruct (effect fuel _ _) as [st1|] eqn:H1; [|done].
      intros H%IHb. apply Hrun in H1. by eapply R_trans.
  - intros e st st'. simpl. destruct (effects st !! e) as [c|] eqn:Hc; [|done].
    assert (H0 : R st (setCurrent (Some e) (record (Ran e) st)))
      by (apply R_enter; by rewrite Hc).
    destruct (has_cleanup_slot c).
    + destruct (match cleanup_var c with Some cl => _ | None => _ end) as [st2|] eqn:H2;
        [|done].
      destruct (execBody fuel (fn_body c) st2) as [st3|] eqn:H3; [|done].
      intros [= <-]. apply IHb in H3.
      assert (R (setCurrent (Some e) (record (Ran e) st)) st2).
      { destruct (cleanup_var c); [by apply IHb in H2|].
        injection H2 as <-. apply R_refl. }
      eapply R_trans; [exact H0|]. eapply R_trans; [eassumption|].
      eapply R_trans; [exact H3|].
      eapply R_trans; [apply R_cleanup|apply R_leave].
    + destruct (execBody fuel (fn_body c) _) as [st2|] eqn:H2; [|done].
      intros [= <-]. apply IHb in H2.
      eapply R_trans; [exact H0|]. eapply R_trans; [exact H2|].
      apply R_leave.
  - intros s i st st'. simpl. destruct (signals st !! s) as [cell|];
      [|intros [= <-]; apply R_refl].
    destruct (subscribers cell !! i) as [e|]; [|intros [= <-]; apply R_refl].
    destruct (effect fuel e st) as [st1|] eqn:H1; [|done].
    intros H%IHn. apply IHe in H1. by eapply R_trans.
Qed.

Lemma write_related fuel s x st st' : write fuel s x st = Some st' -> R st st'.
Proof.
  unfold write, writeWith.
  destruct (signals st !! s); [|intros [= <-]; apply R_refl].
  destruct (_ && _); [intros [= <-]; apply R_refl|].
  intros H. apply (proj2 (proj2 (run_related fuel))) in H.
  eapply R_trans; [apply R_store|done].
Qed.

Lemma createEffect_related fuel fn st d st' :
  createEffect fuel fn st = Some (d, st') -> R st st'.
Proof.
  unfold createEffect, createEffectWith.
  destruct (effect fuel _ _) as [st1|] eqn:H1; [|done]. intros [= _ <-].
  apply (proj1 (proj2 (run_related fuel))) in H1.
  eapply R_trans; [apply R_add|done].
Qed.

Lemma createEffectWithCleanup_related fuel fn ret st d st' :
  createEffectWithCleanup fuel fn ret st = Some (d, st') -> R st st'.
Proof.
  unfold createEffectWithCleanup, createEffectWithCleanupWith.
  destruct (effect fuel _ _) as [st1|] eqn:H1; [|done]. intros [= _ <-].
  apply (proj1 (proj2 (run_related fuel))) in H1.
  eapply R_trans; [apply R_add|done].
Qed.

Lemma dispose_related fuel d st st' : dispose fuel d st = Some st' -> R st st'.
Proof.
  unfold dispose. destruct d as [e|e]; [intros [= <-]; apply R_refl|].
  destruct (effects st !! e) as [c|]; [|intros [= <-]; apply R_refl].
  destruct (cleanup_var c); [|intros [= <-]; apply R_refl].
  apply (proj1 (run_related fuel)).
Qed.

End Related.

(** ** Closures are kept *)

Lemma sameClosures_refl st : sameClosures st st.
Proof. intros e c H. by exists c. Qed.

Lemma sameClosures_trans a b c : sameClosures a b -> sameClosures b c -> sameClosures a c.
Proof.
  intros H1 H2 e x Hx. destruct (H1 _ _ Hx) as (y & Hy & B1 & S1).
  destruct (H2 _ _ Hy) as (z & Hz & B2 & S2). exists z. split; [done|]. split; congruence.
Qed.

Lemma sameClosures_eq st st' : effects st' = effects st -> sameClosures st st'.
Proof. intros E e c H. exists c. by rewrite E. Qed.

Lemma sameClosures_cleanup e st : sameClosures st (setCleanupVar e st).
Proof.
  unfold setCleanupVar. destruct (effects st !! e) as [c|] eqn:Hc;
    [|apply sameClosures_refl].
  intros e' c' H'. simpl. destruct (decide (e = e')) as [<-|Hne].
  - rewrite list_lookup_insert_eq by (by eapply lookup_lt_Some).
    eexists. split; [done|]. simpl. rewrite Hc in H'. by injection H' as <-.
  - rewrite list_lookup_insert_ne by done. by exists c'.
Qed.

Lemma run_sameClosures fuel :
  (forall fn st st', execBody fuel fn st = Some st' -> sameClosures st st')
  /\ (forall e st st', effect fuel e st = Some st' -> sameClosures st st')
  /\ (forall s i st st', notifyFrom fuel s i st = Some st' -> sameClosures st st').
Proof.
  apply run_related.
  - apply sameClosures_refl.
  - apply sameClosures_trans.
  - intros s st. apply sameClosures_eq, read_effects.
  - intros s x st. apply sameClosures_eq, store_effects.
  - intros c st e c' H. exists c'. split; [|done]. simpl. by apply lookup_app_l_Some.
  - intros e st _. by apply sameClosures_eq.
  - intros st. by apply sameClosures_eq.
  - apply sameClosures_cleanup.
Qed.

(** ** Coherence is kept *)

Lemma NoDup_setAdd e subs : NoDup subs -> NoDup (setAdd e subs).
Proof.
  intros H. unfold setAdd. case_bool_decide; [done|].
  apply NoDup_app. split; [done|]. split; [|apply NoDup_singleton].
  intros x Hx. rewrite list_elem_of_singleton. by intros ->.
Qed.

Lemma coherent_read s st : coherent st -> coherent (snd (read s st)).
Proof.
  intros [Hc Hv Hn]. split.
  - intros e. rewrite read_current, read_effects. apply Hc.
  - intros s' e'. rewrite read_subscribersOf, read_effects.
    destruct (_currentEffect st) as [e|] eqn:He; [|apply Hv].
    destruct (signals st !! s); [|apply Hv].
    destruct (decide (s = s')); [|apply Hv].
    intros [->|H]%elem_of_setAdd_inv; [by apply Hc|by eapply Hv].
  - intros s'. rewrite read_subscribersOf.
    destruct (_currentEffect st) as [e|]; [|apply Hn].
    destruct (signals st !! s); [|apply Hn].
    destruct (decide (s = s')); [|apply Hn]. apply NoDup_setAdd, Hn.
Qed.

Lemma coherent_same st st' :
  (forall e, _currentEffect st' = Some e -> is_Some (effects st' !! e)) ->
  (forall e, is_Some (effects st !! e) -> is_Some (effects st' !! e)) ->
  (forall s, subscribersOf s st' = subscribersOf s st) ->
  coherent st -> coherent st'.
Proof.
  intros Hcur Heff Hsub [Hc Hv Hn]. split; [done| |].
  - intros s e. rewrite Hsub. intros H. apply Heff. by eapply Hv.
  - intros s. rewrite Hsub. apply Hn.
Qed.

Lemma coherent_store s x st : coherent st -> coherent (store s x st).
Proof.
  intros H. apply (coherent_same st);
    [| |intros s'; apply subscribersOf_store|done].
  - intros e. rewrite store_current, store_effects. destruct H as [Hc _ _]. apply Hc.
  - by rewrite store_effects.
Qed.

Lemma coherent_add c st : coherent st -> coherent (setEffects (effects st ++ [c]) st).
Proof.
  intros H. apply (coherent_same st); [| |done|done]; simpl.
  - intros e He. destruct H as [Hc _ _]. destruct (Hc _ He) as [x Hx].
    exists x. by apply lookup_app_l_Some.
  - intros e [x Hx]. exists x. by apply lookup_app_l_Some.
Qed.

Lemma coherent_enter e st :
  is_Some (effects st !! e) -> coherent st ->
  coherent (setCurrent (Some e) (record (Ran e) st)).
Proof.
  intros He H. apply (coherent_same st); [|done|done|done]; simpl.
  by intros e' [= <-].
Qed.

Lemma coherent_leave st : coherent st -> coherent (setCurrent None st).
Proof. intros H. by apply (coherent_same st). Qed.

Lemma coherent_cleanup e st : coherent st -> coherent (setCleanupVar e st).
Proof.
  intros H.
  assert (Heff : forall e', is_Some (effects st !! e') ->
                            is_Some (effects (setCleanupVar e st) !! e')).
  { intros e' [x Hx]. destruct (sameClosures_cleanup e st e' x Hx) as (c' & -> & _).
    by eexists. }
  apply (coherent_same st); [|done| |done].
  - intros e' He'. apply Heff. destruct H as [Hc _ _]. apply Hc.
    unfold setCleanupVar in He'. by destruct (effects st !! e).
  - intros s. unfold setCleanupVar. by destruct (effects st !! e).
Qed.

Lemma keeps_run fuel :
  (forall fn st st', execBody fuel fn st = Some st' -> keeps st st')
  /\ (forall e st st', effect fuel e st = Some st' -> keeps st st')
  /\ (forall s i st st', notifyFrom fuel s i st = Some st' -> keeps st st').
Proof.
  apply run_related; unfold keeps; auto using coherent_read, coherent_store,
    coherent_add, coherent_enter, coherent_leave, coherent_cleanup.
Qed.

Lemma write_coherent fuel s x st st' :
  write fuel s x st = Some st' -> coherent st -> coherent st'.
Proof.
  apply (write_related keeps); unfold keeps; auto using coherent_read, coherent_store,
    coherent_add, coherent_enter, coherent_leave, coherent_cleanup.
Qed.

Lemma createEffect_coherent fuel fn st d st' :
  createEffect fuel fn st = Some (d, st') -> coherent st -> coherent st'.
Proof.
  apply (createEffect_related keeps); unfold keeps; auto using coherent_read,
    coherent_store, coherent_add, coherent_enter, coherent_leave, coherent_cleanup.
Qed.

Lemma createEffectWithCleanup_coherent fuel fn ret st d st' :
  createEffectWithCleanup fuel fn ret st = Some (d, st') -> coherent st -> coherent st'.
Proof.
  apply (createEffectWithCleanup_related keeps); unfold keeps; auto using coherent_read,
    coherent_store, coherent_add, coherent_enter, coherent_leave, coherent_cleanup.
Qed.

Lemma dispose_coherent fuel d st st' :
  dispose fuel d st = Some st' -> coherent st -> coherent st'.
Proof.
  apply (dispose_related keeps); unfold keeps; auto using coherent_read,
    coherent_store, coherent_add, coherent_enter, coherent_leave, coherent_cleanup.
Qed.

(** ** The tracking context after a run *)

Lemma run_context fuel :
  (forall fn st st', execBody fuel fn st = Some st' -> contextAfter st st')
  /\ (forall s i st st', notifyFrom fuel s i st = Some st' -> contextAfter st st').
Proof.
  assert (Htrans : forall a b c, contextAfter a b -> contextAfter b c -> contextAfter a c).
  { unfold contextAfter. intros a b c [H1|H1] [H2|H2]; rewrite ?H2, ?H1; auto. }
  assert (Hnone : forall a b c, _currentEffect b = None -> contextAfter b c ->
                                contextAfter a c).
  { unfold contextAfter. intros a b c H1 [H2|H2]; right; congruence. }
  induction fuel as [|fuel (IHb & IHn)]; [by split|].
  split.
  - intros fn st st'. simpl. destruct fn as [|[s|s x|s thn els|fn'|fn' ret] rest].
    + intros [= <-]. by left.
    + intros H%IHb. eapply Htrans; [|exact H]. left. apply read_current.
    + unfold writeWith. destruct (signals st !! s); [|by apply IHb].
      destruct (_ && _); [by apply IHb|].
      destruct (notifyFrom fuel s 0 (store s x st)) as [st1|] eqn:H1; [|done].
      intros H%IHb. apply IHn in H1. eapply Htrans; [|exact H].
      unfold contextAfter in *. by rewrite store_current in H1.
    + destruct (read s st) as [x st1] eqn:Hr. intros H%IHb.
      eapply Htrans; [|exact H]. left.
      pose proof (read_current s st) as Hx. by rewrite Hr in Hx.
    + unfold createEffectWith.
      destruct (effect fuel _ _) as [st1|] eqn:H1; [|done].
      intros H%IHb. apply effect_current_None in H1. by eapply Hnone.
    + unfold createEffectWithCleanupWith.
      destruct (effect fuel _ _) as [st1|] eqn:H1; [|done].
      intros H%IHb. apply effect_current_None in H1. by eapply Hnone.
  - intros s i st st'. simpl. destruct (signals st !! s) as [cell|];
      [|intros [= <-]; by left].
    destruct (subscribers cell !! i) as [e|]; [|intros [= <-]; by left].
    destruct (effect fuel e st) as [st1|] eqn:H1; [|done].
    intros H%IHn. apply effect_current_None in H1. by eapply Hnone.
Qed.

(** ** States reached through the API *)

Lemma reachable_context st : reachable st -> _currentEffect st = None.
Proof.
  induction 1 as [|x st _ IH|s st _ IH|fuel s x st st' _ IH Hw
                  |fuel fn st d st' _ IH He|fuel fn ret st d st' _ IH He
                  |fuel d st st' _ IH Hd].
  - done.
  - done.
  - by rewrite read_current.
  - unfold write, writeWith in Hw. destruct (signals st !! s); [|congruence].
    destruct (_ && _); [congruence|].
    apply (proj2 (run_context fuel)) in Hw. unfold contextAfter in Hw.
    rewrite store_current in Hw. destruct Hw; congruence.
  - unfold createEffect, createEffectWith in He.
    destruct (effect fuel _ _) as [st1|] eqn:H1; [|done]. injection He as _ <-.
    by eapply effect_current_None.
  - unfold createEffectWithCleanup, createEffectWithCleanupWith in He.
    destruct (effect fuel _ _) as [st1|] eqn:H1; [|done]. injection He as _ <-.
    by eapply effect_current_None.
  - unfold dispose in Hd. destruct d as [e|e]; [congruence|].
    destruct (effects st !! e) as [c|]; [|congruence].
    destruct (cleanup_var c); [|congruence].
    apply (proj1 (run_context fuel)) in Hd. destruct Hd; congruence.
Qed.

Lemma reachable_coherent st : reachable st -> coherent st.
Proof.
  induction 1 as [|x st _ IH|s st _ IH|fuel s x st st' _ IH Hw
                  |fuel fn st d st' _ IH He|fuel fn ret st d st' _ IH He
                  |fuel d st st' _ IH Hd].
  - split; [done| |].
    + intros s e H. unfold subscribersOf in H. simpl in H. by apply elem_of_nil in H.
    + intros s. unfold subscribersOf. simpl. constructor.
  - destruct IH as [Hc Hv Hn].
    assert (Hsub : forall s, subscribersOf s (snd (createSignal x st)) = subscribersOf s st).
    { intros s. unfold subscribersOf, createSignal. simpl.
      destruct (decide (s < List.length (signals st))) as [Hlt|Hge].
      - by rewrite lookup_app_l.
      - rewrite lookup_app_r by lia. rewrite (lookup_ge_None_2 (signals st)) by lia.
        by destruct (s - List.length (signals st)) as [|[|?]]. }
    split; [done| |].
    + intros s e. rewrite Hsub. apply Hv.
    + intros s. rewrite Hsub. apply Hn.
  - by apply coherent_read.
  - by eapply write_coherent.
  - by eapply createEffect_coherent.
  - by eapply createEffectWithCleanup_coherent.
  - by eapply dispose_coherent.
Qed.

(** X14. Between the calls of a client, whatever the effects do: no tracking
    context is set, every subscriber is an effect closure of the object, no
    subscriber set holds a closure twice, and reading a signal changes no
    subscriber set and gives the value held. *)
Theorem reachable_state_invariants st :
  reachable st ->
  _currentEffect st = None
  /\ (forall s e, e ∈ subscribersOf s st -> is_Some (effects st !! e))
  /\ (forall s, NoDup (subscribersOf s st))
  /\ (forall s, signals (snd (read s st)) = signals st
                /\ fst (read s st) = valueOf s st).
Proof.
  intros Hr. pose proof (reachable_context st Hr) as Hc.
  destruct (reachable_coherent st Hr) as [_ Hv Hn].
  split; [done|]. split; [exact Hv|]. split; [exact Hn|].
  intros s. by apply read_untracked.
Qed.

Lemma reachable_state_invariants_witness :
  _currentEffect readerState = None
  /\ (forall s e, e ∈ subscribersOf s readerState -> is_Some (effects readerState !! e))
  /\ (forall s, NoDup (subscribersOf s readerState))
  /\ (forall s, signals (snd (read s readerState)) = signals readerState
                /\ fst (read s readerState) = valueOf s readerState).
Proof.
  apply (reachable_state_invariants readerState).
  apply (reach_effect 10 [CRead 1] Scenarios.twoSignals (DisposePlaceholder 0)).
  - apply reach_signal, reach_signal, reach_empty.
  - vm_compute; reflexivity.
Defined.

(** ** An effect that writes an object to a signal it has read *)

Section SelfWrite.
Variables (s : nat) (x : Val) (rest : list Cmd).
Hypothesis notPrimitive : isPrimitive x = false.

Lemma readsThenWrites_kept e st st' :
  sameClosures st st' -> readsThenWrites s x rest e st -> readsThenWrites s x rest e st'.
Proof.
  intros Hs (c & Hc & Hb & Hk). destruct (Hs _ _ Hc) as (c' & Hc' & Hb' & Hk').
  exists c'. split; [done|]. split; congruence.
Qed.

Lemma self_write_loops fuel :
  (forall e st, readsThenWrites s x rest e st -> is_Some (signals st !! s) ->
                effect fuel e st = None)
  /\ (forall e st i j, readsThenWrites s x rest e st ->
        subscribersOf s st !! j = Some e -> i <= j ->
        notifyFrom fuel s i st = None).
Proof.
  induction fuel as [fuel IH] using lt_wf_ind.
  destruct fuel as [|fuel]; [by split|]. split.
  - intros e st (c & Hc & Hb & Hk) [cell Hcell]. simpl. rewrite Hc, Hk, Hb.
    destruct fuel as [|fuel]; [done|]. cbn [execBody].
    set (st1 := setCurrent (Some e) (record (Ran e) st)).
    assert (Hs1 : signals st1 !! s = Some cell) by done.
    pose proof (read_tracked s st1 e cell Hs1 eq_refl) as Hin.
    pose proof (extends_read s st1) as Hext.
    set (st2 := snd (read s st1)) in *.
    destruct fuel as [|fuel]; [done|]. cbn [execBody]. unfold writeWith.
    destruct Hext as [_ _ Hsig]. destruct (Hsig _ _ Hs1) as (cell2 & Hs2 & _).
    rewrite Hs2, notPrimitive. simpl.
    apply list_elem_of_lookup_1 in Hin as [j Hj].
    rewrite (proj2 (IH fuel ltac:(lia)) e (store s x st2) 0 j); [done| |by rewrite subscribersOf_store|lia].
    exists c. split; [|done]. rewrite store_effects. subst st2.
    by rewrite read_effects.
  - intros e st i j Hrw Hj Hij. simpl.
    pose proof Hj as Hj'. unfold subscribersOf in Hj'.
    destruct (signals st !! s) as [cell|] eqn:Hcell; [|by rewrite lookup_nil in Hj'].
    destruct (subscribers cell !! i) as [ei|] eqn:Hi.
    2:{ apply lookup_ge_None in Hi. apply lookup_lt_Some in Hj'. lia. }
    destruct (decide (i = j)) as [->|Hne].
    + assert (ei = e) as -> by congruence.
      rewrite (proj1 (IH fuel ltac:(lia)) e st); [done|done|by rewrite Hcell].
    + destruct (effect fuel ei st) as [st1|] eqn:H1; [|done].
      pose proof (proj1 (proj2 (run_extends fuel)) _ _ _ H1) as Hext.
      pose proof (proj1 (proj2 (run_sameClosures fuel)) _ _ _ H1) as Hsame.
      apply (proj2 (IH fuel ltac:(lia)) e st1 (S i) j); [by eapply readsThenWrites_kept| |lia].
      destruct (extends_subscribersOf _ _ s Hext) as [k Hk]. rewrite Hk.
      by apply lookup_app_l_Some.
Qed.

End SelfWrite.

(** X15. An effect whose function reads a signal and then writes to it a value
    that is not primitive (an object, an array, a proxy, a function) does not
    return from its first run: the write notifies the effect itself, which
    reads and writes again. No fuel suffices, which is the unbounded recursion
    of the source. *)
Theorem effect_writing_object_to_its_dependency_loops fuel s x rest st :
  is_Some (signals st !! s) -> isPrimitive x = false ->
  createEffect fuel (CRead s :: CWrite s x :: rest) st = None.
Proof.
  intros Hs Hx. unfold createEffect, createEffectWith.
  rewrite (proj1 (self_write_loops s x rest Hx fuel) (List.length (effects st))); [done| |done].
  eexists. split.
  - simpl. rewrite lookup_app_r by lia. by rewrite Nat.sub_diag.
  - done.
Qed.

Lemma effect_writing_object_witness :
  createEffect 1000 [CRead 1; CWrite 1 (VObj 0)] Scenarios.twoSignals = None.
Proof.
  apply (effect_writing_object_to_its_dependency_loops 1000 1 (VObj 0) [] Scenarios.twoSignals).
  - vm_compute. by eexists.
  - reflexivity.
Defined.

(** ** Effects that only read: one run per subscriber *)

Lemma runsOf_app a b : runsOf (a ++ b) = runsOf a ++ runsOf b.
Proof. apply omap_app. Qed.

Lemma read_log s st :
  exists evs, log (snd (read s st)) = log st ++ evs /\ runsOf evs = [].
Proof.
  unfold read. destruct (signals st !! s); [|exists []; by rewrite app_nil_r].
  exists [ReadSignal s (_currentEffect st)]. by destruct (_currentEffect st).
Qed.

Lemma execBody_readOnly_log fuel : forall fn st st',
  execBody fuel fn st = Some st' -> readOnly fn = true ->
  readOutcome st st' /\ exists evs, log st' = log st ++ evs /\ runsOf evs = [].
Proof.
  induction fuel as [|fuel IH]; intros fn st st' Hrun Hro; [done|].
  destruct fn as [|c rest].
  { injection Hrun as <-. split; [apply readOutcome_refl|].
    exists []. by rewrite app_nil_r. }
  change (c :: rest) with ([c] ++ rest) in Hro.
  rewrite readOnly_app in Hro. apply andb_true_iff in Hro as [Hc Hrest].
  unfold readOnly in Hc. simpl in Hc. rewrite andb_true_r in Hc.
  destruct c as [s|s x|s thn els|fn'|fn' ret]; try discriminate; simpl in Hrun.
  - destruct (IH _ _ _ Hrun Hrest) as (R & evs & Hl & Hr).
    destruct (read_log s st) as (ev1 & Hl1 & Hr1).
    split; [eapply readOutcome_trans; [apply readOutcome_read|done]|].
    exists (ev1 ++ evs). rewrite Hl, Hl1, app_assoc. split; [done|].
    by rewrite runsOf_app, Hr1, Hr.
  - simpl in Hc. apply andb_true_iff in Hc as [Ht He].
    pose proof (readOutcome_read s st) as R1.
    destruct (read_log s st) as (ev1 & Hl1 & Hr1).
    destruct (read s st) as [x st1] eqn:Hread. simpl in R1, Hl1.
    destruct (IH _ _ _ Hrun) as (R & evs & Hl & Hr).
    { rewrite readOnly_app, Hrest. unfold readOnly.
      by destruct (truthyVal x); rewrite ?Ht, ?He. }
    split; [by eapply readOutcome_trans|].
    exists (ev1 ++ evs). rewrite Hl, Hl1, app_assoc. split; [done|].
    by rewrite runsOf_app, Hr1, Hr.
Qed.

Lemma effect_quiet_log fuel e st st' :
  quiet st -> effect fuel e st = Some st' ->
  runOutcome e st st'
  /\ exists evs, log st' = log st ++ Ran e :: evs /\ runsOf evs = [].
Proof.
  intros Hq Hrun. destruct fuel as [|fuel]; [done|]. simpl in Hrun.
  destruct (effects st !! e) as [c|] eqn:He; [|done].
  unfold quiet in Hq. rewrite Forall_lookup in Hq.
  destruct (Hq _ _ He) as [Hk Hro]. rewrite Hk in Hrun.
  set (st1 := setCurrent (Some e) (record (Ran e) st)) in *.
  destruct (execBody fuel (fn_body c) st1) as [st2|] eqn:H2; [|done].
  injection Hrun as <-.
  destruct (execBody_readOnly_log _ _ _ _ H2 Hro) as ([E C V A K] & evs & Hl & Hr).
  split.
  - split; simpl.
    + by rewrite E.
    + done.
    + intros s. unfold valueOf in *. simpl. by rewrite (V s).
    + intros s e' H. destruct (A s e' H) as [H'|H']; [by left|].
      right. simpl in H'. congruence.
    + intros s H. apply (K s e); [done|exact H].
  - exists evs. simpl. rewrite Hl. simpl. by rewrite <- app_assoc.
Qed.

Lemma notifyFrom_quiet_log fuel : forall s i st st',
  quiet st -> subscribersValid st ->
  notifyFrom fuel s i st = Some st' ->
  exists evs, log st' = log st ++ evs /\ runsOf evs = drop i (subscribersOf s st).
Proof.
  induction fuel as [|fuel IH]; intros s i st st' Hq Hv Hrun; [done|].
  simpl in Hrun. unfold subscribersOf.
  destruct (signals st !! s) as [cell|] eqn:Hs.
  2:{ injection Hrun as <-. exists []. rewrite app_nil_r. by rewrite drop_nil. }
  destruct (subscribers cell !! i) as [e|] eqn:Hi.
  2:{ injection Hrun as <-. exists []. rewrite app_nil_r.
      apply lookup_ge_None in Hi. by rewrite drop_ge. }
  destruct (effect fuel e st) as [st1|] eqn:H1; [|done].
  assert (Hsub : subscribersOf s st = subscribers cell)
    by (unfold subscribersOf; by rewrite Hs).
  assert (Hin : e ∈ subscribersOf s st)
    by (rewrite Hsub; by eapply list_elem_of_lookup_2).
  destruct (Hv _ _ Hin) as [c Hc].
  destruct (effect_quiet_log _ _ _ _ Hq H1) as (R & ev1 & Hl1 & Hr1).
  pose proof (runOutcome_quiet _ _ _ Hq R) as Hq1.
  pose proof (runOutcome_valid _ _ _ (mk_is_Some _ _ Hc) Hv R) as Hv1.
  destruct (IH _ _ _ _ Hq1 Hv1 Hrun) as (evs & Hl & Hr).
  destruct R as [_ _ _ _ K]. rewrite (K s Hin), Hsub in Hr.
  exists (Ran e :: ev1 ++ evs). split.
  - rewrite Hl, Hl1. by rewrite <- app_assoc.
  - change (Ran e :: ev1 ++ evs) with ([Ran e] ++ ev1 ++ evs).
    rewrite !runsOf_app, Hr1, Hr. simpl.
    by rewrite (drop_S _ _ _ Hi).
Qed.

(** X16. With effects made by [createEffect] that only read, a notifying write
    starts each effect of the subscriber set once, in the order in which the
    effects subscribed, and nothing else; and it returns, given fuel for one
    run per subscriber. *)
Theorem write_runs_each_subscriber_once fuel s x st cell :
  quiet st -> subscribersValid st ->
  signals st !! s = Some cell ->
  isPrimitive x && strictEq (value cell) x = false ->
  (forall st', write fuel s x st = Some st' ->
               runsOf (newEvents st st') = subscribers cell)
  /\ (List.length (subscribers cell) + runFuel st + 1 <= fuel ->
      exists st', write fuel s x st = Some st').
Proof.
  intros Hq Hv Hs Hne. split.
  - intros st' Hw. unfold write, writeWith in Hw. rewrite Hs, Hne in Hw.
    destruct (notifyFrom_quiet_log fuel s 0 (store s x st) st') as (evs & Hl & Hr).
    + unfold quiet. by rewrite store_effects.
    + intros s' e. rewrite subscribersOf_store, store_effects. apply Hv.
    + done.
    + rewrite log_store in Hl. unfold newEvents. rewrite Hl, drop_app_length.
      rewrite Hr, subscribersOf_store. unfold subscribersOf. by rewrite Hs.
  - intros Hfuel.
    destruct (write_quiet fuel s x st cell Hq Hv Hs Hne Hfuel) as (st' & H & _).
    by exists st'.
Qed.

Lemma write_runs_each_subscriber_once_witness :
  (forall st', write 10 1 (VNum 2) readerState = Some st' ->
               runsOf (newEvents readerState st') = [0])
  /\ (List.length [0] + runFuel readerState + 1 <= 10 ->
      exists st', write 10 1 (VNum 2) readerState = Some st').
Proof.
  apply (write_runs_each_subscriber_once 10 1 (VNum 2) readerState
           {| value := VNum 1; subscribers := [0] |}).
  - vm_compute. repeat constructor.
  - intros s e H. destruct s as [|[|s]]; vm_compute in H.
    + by apply elem_of_nil in H.
    + apply list_elem_of_singleton in H as ->. vm_compute. by eexists.
    + by apply elem_of_nil in H.
  - vm_compute; reflexivity.
  - vm_compute; reflexivity.
Defined.

End RuntimeFacts.

(* ===================================================================== *)
(** * Registering, unregistering and emitting *)
(* ===================================================================== *)

Module EventBusFacts.
Import JsString EventBus.
#[local] Open Scope list_scope.

Lemma get_set {V} k k' (v : V) m :
  JsMap.get k' (JsMap.set k v m)
  = if String.eqb k k' then Some v else JsMap.get k' m.
Proof.
  induction m as [|[k0 v0] m IH]; simpl.
  - done.
  - destruct (String.eqb_spec k0 k) as [->|Hne]; simpl.
    + by destruct (String.eqb_spec k k').
    + rewrite IH. destruct (String.eqb_spec k0 k') as [->|Hne'].
      * by destruct (String.eqb_spec k k').
      * done.
Qed.

Lemma removeFirst_notin h hs : h ∉ hs -> removeFirst h hs = hs.
Proof.
  induction hs as [|x hs IH]; intros Hn; [done|]. simpl.
  apply not_elem_of_cons in Hn as [Hne Hn].
  destruct (Nat.eqb_spec x h) as [->|_]; [done|]. by rewrite IH.
Qed.

Lemma removeFirst_snoc h hs :
  removeFirst h (hs ++ [h]) = if bool_decide (h ∈ hs) then removeFirst h hs ++ [h] else hs.
Proof.
  induction hs as [|x hs IH]; simpl.
  - by rewrite Nat.eqb_refl.
  - destruct (Nat.eqb_spec x h) as [->|Hne].
    + by rewrite bool_decide_eq_true_2 by (by left).
    + rewrite IH. destruct (decide (h ∈ hs)) as [Hin|Hin].
      * rewrite !bool_decide_eq_true_2; [done|by right|done].
      * rewrite !bool_decide_eq_false_2; [done| |done].
        rewrite not_elem_of_cons. by split.
Qed.

Lemma removeFirst_perm h hs : h ∈ hs -> hs ≡ₚ h :: removeFirst h hs.
Proof.
  induction hs as [|x hs IH]; intros Hin; [by apply elem_of_nil in Hin|]. simpl.
  destruct (Nat.eqb_spec x h) as [->|Hne]; [done|].
  apply elem_of_cons in Hin as [->|Hin]; [done|].
  rewrite (IH Hin) at 1. apply Permutation_swap.
Qed.

Lemma removeFirst_others h hs :
  filter (fun x => x <> h) (removeFirst h hs) = filter (fun x => x <> h) hs.
Proof.
  induction hs as [|x hs IH]; [done|]. simpl.
  destruct (Nat.eqb_spec x h) as [->|Hne].
  - rewrite filter_cons, decide_False; [done|]. intros H. by apply H.
  - by rewrite !filter_cons, IH.
Qed.

Section WithPrototype.
Variable inherited : string -> bool.

Lemma getProp_set name other hs ev :
  getProp inherited other (JsMap.set name hs ev)
  = if String.eqb name other then Own hs else getProp inherited other ev.
Proof. unfold getProp. rewrite get_set. by destruct (String.eqb name other). Qed.

Lemma handlersOf_set name hs comp :
  handlersOf inherited name (setEvents (JsMap.set name hs (_events comp)) comp) = hs.
Proof. unfold handlersOf. simpl. by rewrite getProp_set, String.eqb_refl. Qed.

(** X19. [$on] with a name and a function registers the handler after those
    already there (unless the name is one that [{}] inherits, for which it
    raises). The closure it returns takes out the earliest registration of
    the handler: when the handler was not registered before, the handlers
    are as before the [$on]; when it was, it is the older registration that
    goes and the handler moves to the end. In both cases each handler is
    registered as often as before, and no other event is touched. *)
Theorem on_then_unregister eventName h comp :
  truthy eventName = true -> inherited eventName = false ->
  exists comp1 comp2,
    on inherited eventName (VFun h) comp = (Registered, comp1)
    /\ unregister inherited eventName h comp1 = Some comp2
    /\ handlersOf inherited eventName comp1 = handlersOf inherited eventName comp ++ [h]
    /\ handlersOf inherited eventName comp2
       = (if bool_decide (h ∈ handlersOf inherited eventName comp)
          then removeFirst h (handlersOf inherited eventName comp) ++ [h]
          else handlersOf inherited eventName comp)
    /\ handlersOf inherited eventName comp2 ≡ₚ handlersOf inherited eventName comp
    /\ (forall other, other <> eventName ->
          getProp inherited other (_events comp2) = getProp inherited other (_events comp)).
Proof.
  intros Ht Hi. unfold on. rewrite Ht. simpl.
  set (hs := handlersOf inherited eventName comp).
  assert (Hon : exists comp1,
    match getProp inherited eventName (_events comp) with
    | Own hs0 => (Registered, setEvents (JsMap.set eventName (hs0 ++ [h]) (_events comp)) comp)
    | InheritedProp => (OnThrew, comp)
    | Missing => (Registered, setEvents (JsMap.set eventName [h] (_events comp)) comp)
    end = (Registered, comp1)
    /\ comp1 = setEvents (JsMap.set eventName (hs ++ [h]) (_events comp)) comp).
  { subst hs. unfold handlersOf, getProp. rewrite Hi.
    destruct (JsMap.get eventName (_events comp)); by eexists. }
  destruct Hon as (comp1 & -> & Hc1).
  assert (H1 : handlersOf inherited eventName comp1 = hs ++ [h])
    by (subst comp1; apply handlersOf_set).
  exists comp1, (setEvents (JsMap.set eventName (removeFirst h (hs ++ [h])) (_events comp1)) comp1).
  split; [done|]. split.
  { unfold unregister. unfold handlersOf in H1.
    destruct (getProp inherited eventName (_events comp1)) eqn:Hg.
    - by rewrite H1.
    - subst comp1. simpl in Hg. by rewrite getProp_set, String.eqb_refl in Hg.
    - subst comp1. simpl in Hg. by rewrite getProp_set, String.eqb_refl in Hg. }
  split; [done|]. rewrite handlersOf_set. split; [apply removeFirst_snoc|]. split.
  - apply (Permutation_cons_inv (a := h)). rewrite <- removeFirst_perm by set_solver.
    by rewrite Permutation_app_comm.
  - intros other Hne. simpl. rewrite getProp_set.
    destruct (String.eqb_spec eventName other) as [->|_]; [done|].
    subst comp1. simpl. rewrite getProp_set.
    by destruct (String.eqb_spec eventName other) as [->|_].
Qed.

(** ** [$emit] *)

Lemma callHandlers_instances p hs payload pg :
  instances (callHandlers p hs payload pg) = instances pg.
Proof. done. Qed.

Lemma callsOn_same eventName payload pg pg' p :
  instances pg' = instances pg ->
  callsOn inherited eventName payload pg' p = callsOn inherited eventName payload pg p.
Proof. intros E. unfold callsOn. by rewrite E. Qed.

Lemma bubbleDom_calls eventName payload marks : forall pg,
  inherited eventName = false ->
  exists pg',
    bubbleDom inherited marks eventName payload pg = (true, pg')
    /\ instances pg' = instances pg
    /\ calls pg' = calls pg
                   ++ flat_map (callsOn inherited eventName payload pg) (omap id marks).
Proof.
  intros pg Hi. revert pg.
  induction marks as [|[p|] marks IH]; intros pg; simpl.
  - exists pg. by rewrite app_nil_r.
  - unfold callsOn at 1, handlersOf.
    destruct (instances pg !! p) as [parentComp|] eqn:Hp; [|apply IH].
    unfold getProp. rewrite Hi.
    destruct (JsMap.get eventName (_events parentComp)) as [hs|].
    + destruct (IH (callHandlers p hs payload pg)) as (pg' & -> & E & C).
      exists pg'. split; [done|]. split; [done|]. rewrite C. simpl.
      by rewrite <- app_assoc.
    + apply IH.
  - apply IH.
Qed.

Lemma bubbleLogical_calls eventName payload fuel : forall lp pg chain,
  inherited eventName = false ->
  ancestors fuel lp (instances pg) = Some chain ->
  exists pg',
    bubbleLogical inherited fuel lp eventName payload pg = Some pg'
    /\ instances pg' = instances pg
    /\ calls pg' = calls pg ++ flat_map (callsOn inherited eventName payload pg) chain.
Proof.
  induction fuel as [|fuel IH]; intros lp pg chain Hi Hanc; [done|]. simpl in *.
  destruct lp as [p|]; [|injection Hanc as <-; exists pg; by rewrite app_nil_r].
  destruct (instances pg !! p) as [parentComp|] eqn:Hp;
    [|injection Hanc as <-; exists pg; by rewrite app_nil_r].
  destruct (ancestors fuel (_parent parentComp) (instances pg)) as [rest|] eqn:Hrest; [|done].
  injection Hanc as <-. simpl. unfold callsOn at 1, handlersOf. rewrite Hp.
  unfold getProp. rewrite Hi.
  destruct (JsMap.get eventName (_events parentComp)) as [hs|].
  - destruct (IH (_parent parentComp) (callHandlers p hs payload pg) rest Hi Hrest)
      as (pg' & -> & E & C).
    exists pg'. split; [done|]. split; [done|]. rewrite C. simpl.
    by rewrite <- app_assoc.
  - by apply IH.
Qed.

Lemma timesCalled_app p h a b :
  timesCalled p h (a ++ b) = timesCalled p h a + timesCalled p h b.
Proof. unfold timesCalled. by rewrite filter_app, length_app. Qed.

Lemma timesCalled_callsOn eventName payload pg p parent h :
  instances pg !! p = Some parent ->
  timesCalled p h (callsOn inherited eventName payload pg p)
  = registrations h (handlersOf inherited eventName parent).
Proof.
  intros Hp. unfold callsOn. rewrite Hp. unfold timesCalled, registrations.
  induction (handlersOf inherited eventName parent) as [|x hs IH]; [done|].
  simpl. rewrite !filter_cons. simpl.
  destruct (decide (x = h)) as [->|Hne].
  - rewrite decide_True by done. simpl. by rewrite IH.
  - rewrite decide_False by (by intros [_ ?]). done.
Qed.

Lemma timesCalled_flat_map eventName payload pg p h l :
  p ∈ l ->
  timesCalled p h (callsOn inherited eventName payload pg p)
  <= timesCalled p h (flat_map (callsOn inherited eventName payload pg) l).
Proof.
  induction l as [|q l IH]; intros Hin; [by apply elem_of_nil in Hin|].
  simpl. rewrite timesCalled_app.
  apply elem_of_cons in Hin as [->|Hin]; [lia|]. specialize (IH Hin). lia.
Qed.

(** X20. [$emit] calls the handlers of the emitting component, then those of
    the components marked on the elements above its element, then those of
    the [_parent] chain, each component's handlers in the order of their
    registration. A component that is on both walks (as the parent that
    mounted the emitting component is: the child's element lies in its own,
    which is marked, and the child's [_parent] was set to it) has each of its
    handlers called twice per registration, or more. *)
Theorem emit_calls fuel c eventName payload marks pg comp chain :
  inherited eventName = false ->
  instances pg !! c = Some comp ->
  ancestors fuel (_parent comp) (instances pg) = Some chain ->
  exists pg',
    emit inherited fuel c eventName payload marks pg = Some pg'
    /\ instances pg' = instances pg
    /\ newCalls pg pg'
       = callsOn inherited eventName payload pg c
         ++ flat_map (callsOn inherited eventName payload pg) (omap id marks)
         ++ flat_map (callsOn inherited eventName payload pg) chain
    /\ (forall p parent h,
          Some p ∈ marks -> p ∈ chain -> instances pg !! p = Some parent ->
          2 * registrations h (handlersOf inherited eventName parent)
          <= timesCalled p h (newCalls pg pg')).
Proof.
  intros Hi Hc Hanc. unfold emit. rewrite Hc.
  set (pg1 := callHandlers c (handlersOf inherited eventName comp) payload pg).
  destruct (bubbleDom_calls eventName payload marks pg1 Hi) as (pg2 & Hdom & E2 & C2).
  destruct (bubbleLogical_calls eventName payload fuel (_parent comp) pg2 chain Hi)
    as (pg3 & Hlog & E3 & C3); [by rewrite E2|].
  assert (Hnew : newCalls pg pg3
    = callsOn inherited eventName payload pg c
      ++ flat_map (callsOn inherited eventName payload pg) (omap id marks)
      ++ flat_map (callsOn inherited eventName payload pg) chain).
  { unfold newCalls. rewrite C3, C2. subst pg1. simpl.
    rewrite <- !app_assoc, drop_app_length. unfold callsOn at 3. rewrite Hc.
    f_equal. f_equal. apply flat_map_ext. intros q. by apply callsOn_same. }
  exists pg3. split; [|split; [by rewrite E3, E2|split; [done|]]].
  - unfold getProp. rewrite Hi.
    destruct (JsMap.get eventName (_events comp)); by rewrite Hdom.
  - intros p parent h Hm Hch Hp. rewrite Hnew, !timesCalled_app.
    pose proof (timesCalled_callsOn eventName payload pg p parent h Hp) as Hone.
    pose proof (timesCalled_flat_map eventName payload pg p h chain Hch) as H2.
    assert (H1 : p ∈ omap id marks) by (apply list_elem_of_omap; by exists (Some p)).
    apply (timesCalled_flat_map eventName payload pg p h) in H1. lia.
Qed.

End WithPrototype.

Lemma on_then_unregister_witness :
  exists comp1 comp2,
    on objectPrototype "saved" (VFun 7) {| _events := [("saved", [7; 8])]; _parent := None |}
      = (Registered, comp1)
    /\ unregister objectPrototype "saved" 7 comp1 = Some comp2
    /\ handlersOf objectPrototype "saved" comp1 = [7; 8] ++ [7]
    /\ handlersOf objectPrototype "saved" comp2 = [8; 7]
    /\ handlersOf objectPrototype "saved" comp2 ≡ₚ [7; 8]
    /\ (forall other, other <> "saved" ->
          getProp objectPrototype other (_events comp2)
          = getProp objectPrototype other [("saved", [7; 8])]).
Proof.
  apply (on_then_unregister objectPrototype "saved" 7
           {| _events := [("saved", [7; 8])]; _parent := None |}).
  - reflexivity.
  - reflexivity.
Defined.

Lemma emit_calls_witness :
  exists pg',
    emit objectPrototype 5 1 "saved" (VNum 1) [Some 0] parentAndChild = Some pg'
    /\ instances pg' = instances parentAndChild
    /\ newCalls parentAndChild pg' = [(0, 7, VNum 1); (0, 7, VNum 1)]
    /\ (forall p parent h,
          Some p ∈ [Some 0] -> p ∈ [0] -> instances parentAndChild !! p = Some parent ->
          2 * registrations h (handlersOf objectPrototype "saved" parent)
          <= timesCalled p h (newCalls parentAndChild pg')).
Proof.
  apply (emit_calls objectPrototype 5 1 "saved" (VNum 1) [Some 0] parentAndChild
           {| _events := []; _parent := Some 0 |} [0]).
  - reflexivity.
  - reflexivity.
  - reflexivity.
Defined.

End EventBusFacts.

(* ===================================================================== *)
(** * What a watcher reports *)
(* ===================================================================== *)

Module WatcherFacts.
Import Reactive Watcher.
#[local] Open Scope list_scope.

Lemma strictEq_eq a b : strictEq a b = true -> a = b.
Proof.
  destruct a, b; simpl; try discriminate; try done.
  - intros H. apply Bool.eqb_prop in H. by subst.
  - intros H. apply Z.eqb_eq in H. by subst.
  - intros H. apply String.eqb_eq in H. by subst.
  - intros H. apply Nat.eqb_eq in H. by subst.
  - intros H. apply Nat.eqb_eq in H. by subst.
Qed.

Lemma runAll_cons immediate deep v values w :
  runAll immediate deep (v :: values) w
  = runAll immediate deep values (run immediate deep v w).
Proof. done. Qed.

Lemma runAll_later immediate deep values : forall w,
  isFirstRun w = false ->
  handlerCalls (runAll immediate deep values w)
  = handlerCalls w ++ changes deep (oldValue w) values.
Proof.
  induction values as [|v values IH]; intros w Hf.
  - simpl. by rewrite app_nil_r.
  - rewrite runAll_cons. unfold run. rewrite Hf. cbn [changes].
    destruct (negb (strictEq v (oldValue w)) || deep) eqn:Hc.
    + rewrite IH by done. simpl. by rewrite <- app_assoc.
    + apply orb_false_iff in Hc as [Hc _]. apply negb_false_iff, strictEq_eq in Hc.
      rewrite IH by done. by rewrite Hc.
Qed.

(** X21. The handler of a watcher is called by the first run only with
    [immediate], with [undefined] as the old value; by a later run exactly
    when the value read is not [===] to the value read by the run before (by
    every later run with [deep]), with the value read by the run before as
    the old value. The value held when the watcher was set up plays no
    part. *)
Theorem watcher_reports_changes immediate deep current first values :
  handlerCalls (runAll immediate deep (first :: values) (start current))
  = (if immediate then [(first, VUndefined)] else []) ++ changes deep first values.
Proof.
  rewrite runAll_cons. unfold run, start. cbn [isFirstRun handlerCalls].
  rewrite runAll_later by done. simpl. by destruct immediate.
Qed.

End WatcherFacts.

(* ===================================================================== *)
(** * The parts of a text *)
(* ===================================================================== *)

Module InterpolationFacts.
Import Interpolation.
#[local] Open Scope list_scope.

Lemma spanBody_spec s :
  s = fst (spanBody s) ++ snd (spanBody s)
  /\ closing ∉ fst (spanBody s).
Proof.
  induction s as [|c s [IH1 IH2]]; simpl; [split; [done|apply not_elem_of_nil]|].
  destruct (Ascii.eqb_spec c closing) as [->|Hne]; simpl.
  - split; [done|apply not_elem_of_nil].
  - destruct (spanBody s) as [body after]. simpl in *. split; [by f_equal|].
    rewrite not_elem_of_cons. split; [congruence|done].
Qed.

Lemma spanBody_body body after :
  closing ∉ body -> spanBody (body ++ closing :: after) = (body, closing :: after).
Proof.
  induction body as [|c body IH]; intros Hn; cbn [spanBody app].
  - by rewrite Ascii.eqb_refl.
  - apply not_elem_of_cons in Hn as [Hne Hn].
    destruct (Ascii.eqb_spec c closing) as [->|_]; [done|]. by rewrite IH.
Qed.

Lemma matchAt_Some s body after :
  matchAt s = Some (body, after) ->
  s = braced body ++ after /\ body <> [] /\ closing ∉ body.
Proof.
  unfold matchAt. destruct s as [|c1 [|c2 rest]]; [done|done|].
  destruct (Ascii.eqb_spec c1 opening) as [->|]; [|done].
  destruct (Ascii.eqb_spec c2 opening) as [->|]; [|done]. simpl.
  destruct (spanBody_spec rest) as [Hs Hn].
  destruct (spanBody rest) as [[|b bs] [|d1 [|d2 aft]]]; try done.
  destruct (Ascii.eqb_spec d1 closing) as [->|]; [|done].
  destruct (Ascii.eqb_spec d2 closing) as [->|]; [|done]. simpl.
  intros [= <- <-]. simpl in *. split; [|done].
  unfold braced. rewrite Hs. simpl. by rewrite <- app_assoc.
Qed.

Lemma matchAt_braced body after :
  body <> [] -> closing ∉ body -> matchAt (braced body ++ after) = Some (body, after).
Proof.
  intros Hne Hn. unfold matchAt, braced. cbn [app].
  rewrite !Ascii.eqb_refl. cbn [andb]. rewrite <- app_assoc. cbn [app].
  rewrite spanBody_body by done.
  destruct body; [done|]. by rewrite !Ascii.eqb_refl.
Qed.

(** What the regular expression captures is the expression in words. *)
Lemma capture_expressionOf body : capture body = expressionOf body.
Proof.
  unfold expressionOf. induction body as [|c body IH]; [done|].
  destruct body as [|d rest].
  - simpl. by destruct (isSpace c).
  - change (capture (c :: d :: rest))
      with (if isSpace c then capture (d :: rest) else c :: d :: rest).
    change (dropSpaces (c :: d :: rest))
      with (if isSpace c then dropSpaces (d :: rest) else c :: d :: rest).
    destruct (isSpace c); [|done].
    rewrite IH. by rewrite last_cons_cons.
Qed.

(** The expression is what is left of the body after a run of white space;
    it is not empty, and it starts with white space only when it is the last
    code unit of a body of white space. *)
Lemma expressionOf_spec body :
  body <> [] ->
  exists ws,
    body = ws ++ expressionOf body
    /\ forallb isSpace ws = true
    /\ match expressionOf body with
       | [] => False
       | c :: rest => isSpace c = false \/ (rest = [] /\ forallb isSpace body = true)
       end.
Proof.
  unfold expressionOf. induction body as [|c body IH]; [done|]. intros _.
  destruct body as [|d rest].
  - simpl. destruct (isSpace c) eqn:Hc; exists []; split; try done; split; try done.
    + by right.
    + by left.
  - change (dropSpaces (c :: d :: rest))
      with (if isSpace c then dropSpaces (d :: rest) else c :: d :: rest).
    destruct (isSpace c) eqn:Hc.
    + destruct IH as (ws & Hb & Hws & Hexp); [done|]. rewrite last_cons_cons.
      exists (c :: ws). split; [by rewrite Hb at 1|]. split; [simpl; by rewrite Hc|].
      destruct (match dropSpaces (d :: rest) with [] => _ | _ => _ end) as [|x xs];
        [done|].
      destruct Hexp as [?|[-> Hall]]; [by left|right]. split; [done|].
      simpl in *. by rewrite Hc.
    + exists []. repeat split. by left.
Qed.

Lemma nodeFor_braced body :
  body <> [] -> closing ∉ body -> nodeFor (braced body) = Dynamic (expressionOf body).
Proof.
  intros Hne Hn. unfold nodeFor, interpolation.
  rewrite <- (app_nil_r (braced body)). by rewrite matchAt_braced, capture_expressionOf.
Qed.

(** A text at the start of which no interpolation is found is not itself an
    interpolation, and neither is any of its prefixes. *)
Lemma nodeFor_static cur s :
  cur = [] \/ matchAt (cur ++ s) = None -> nodeFor cur = Static cur.
Proof.
  intros H. unfold nodeFor, interpolation.
  destruct (matchAt cur) as [[body [|a after]]|] eqn:Hm; try done.
  apply matchAt_Some in Hm as (-> & Hne & Hn).
  destruct H as [H|H]; [done|]. rewrite app_nil_r in H.
  by rewrite matchAt_braced in H.
Qed.

Lemma splitFrom_spec s : forall skip cur,
  skip <= List.length s ->
  cur = [] \/ (skip = 0 /\ matchAt (cur ++ s) = None) ->
  alternating (splitFrom s skip cur)
  /\ List.concat (splitFrom s skip cur) = cur ++ drop skip s.
Proof.
  induction s as [|c rest IH]; intros skip cur Hlen Hcur.
  - simpl. rewrite drop_nil, !app_nil_r. split; [|done].
    apply alt_last. apply (nodeFor_static cur []). destruct Hcur as [|[_ ?]]; auto.
  - cbn [splitFrom]. destruct skip as [|k].
    + destruct (matchAt (c :: rest)) as [[body after]|] eqn:Hm.
      * pose proof (matchAt_Some _ _ _ Hm) as (Hs & Hne & Hn).
        assert (Hrest : rest = opening :: body ++ [closing; closing] ++ after).
        { unfold braced in Hs. simpl in Hs. injection Hs as _ ->.
          by rewrite <- app_assoc. }
        destruct (IH (List.length body + 3) []) as [Halt Hcat].
        { rewrite Hrest. simpl. rewrite !length_app. simpl. lia. }
        { by left. }
        split.
        -- apply alt_cons; try done.
           ++ apply (nodeFor_static cur (c :: rest)). destruct Hcur as [|[_ ?]]; auto.
           ++ by apply nodeFor_braced.
        -- cbn [List.concat drop]. rewrite Hcat. cbn [app]. f_equal.
           rewrite Hs. f_equal. rewrite Hrest.
           replace (List.length body + 3) with (S (List.length body + 2)) by lia.
           cbn [drop]. by rewrite drop_app_add.
      * destruct (IH 0 (cur ++ [c])) as [Halt Hcat]; [lia| |].
        { right. split; [done|]. rewrite <- app_assoc. simpl.
          destruct Hcur as [->|[_ ?]]; done. }
        split; [done|]. rewrite Hcat. simpl. by rewrite <- app_assoc.
    + assert (cur = []) as -> by (destruct Hcur as [|[? _]]; [done|lia]).
      destruct (IH k []) as [Halt Hcat]; [simpl in Hlen; lia|by left|].
      by split.
Qed.

Lemma alternating_length l : alternating l -> exists n, List.length l = 2 * n + 1.
Proof.
  induction 1 as [lit|lit body rest _ _ _ _ _ [n IH]]; [by exists 0|].
  exists (S n). simpl. rewrite IH. lia.
Qed.

(** [_walk] on the text [Hi {{  user.name }}, {{   }}!]: the white space
    before [user.name] is not part of the expression, the white space after
    it is; the expression of the second interpolation is one space. *)
Lemma walkText_greeting :
  walkText greeting
  = [Static (list_ascii_of_string "Hi ");
     Dynamic (list_ascii_of_string "user.name ");
     Static (list_ascii_of_string ", ");
     Dynamic (list_ascii_of_string " ");
     Static (list_ascii_of_string "!")].
Proof. vm_compute. reflexivity. Qed.

(** X22. The split of a text: put together, the parts give the text back; the
    parts are in turn a static text (possibly empty) and an interpolation
    [{{body}}], the first and the last being static; a static part is never
    taken for an interpolation, and an interpolation gives the effect the
    text between the braces less its leading white space (the last code
    unit of a body of white space only): what is left of the body after a
    run of white space, never empty, and starting with white space only in
    that second case. [_walk] returns one node per part, at least three, or
    the text node as it is. *)
Theorem parts_of_text text :
  List.concat (parts text) = text
  /\ alternating (parts text)
  /\ (walkText text = [Static text]
      \/ walkText text = map nodeFor (parts text) /\ 3 <= List.length (parts text))
  /\ (forall body, body <> [] -> closing ∉ body ->
        exists ws c rest,
          nodeFor (braced body) = Dynamic (c :: rest)
          /\ body = ws ++ c :: rest
          /\ forallb isSpace ws = true
          /\ (isSpace c = false \/ (rest = [] /\ forallb isSpace body = true))).
Proof.
  destruct (splitFrom_spec text 0 []) as [Halt Hcat]; [lia|by left|].
  split; [exact Hcat|]. split; [exact Halt|]. split.
  - unfold walkText. destruct (blank text); [by left|].
    destruct (Nat.ltb_spec 1 (List.length (parts text))) as [Hlt|Hge]; [|by left].
    right. split; [done|]. destruct (alternating_length _ Halt) as [n Hn].
    unfold parts in *. lia.
  - intros body Hne Hn. rewrite (nodeFor_braced body Hne Hn).
    destruct (expressionOf_spec body Hne) as (ws & Hb & Hws & Hexp).
    destruct (expressionOf body) as [|c rest]; [done|].
    by exists ws, c, rest.
Qed.

Lemma parts_of_text_witness :
  List.concat (parts greeting) = greeting
  /\ alternating (parts greeting)
  /\ (walkText greeting = [Static greeting]
      \/ walkText greeting = map nodeFor (parts greeting)
         /\ 3 <= List.length (parts greeting))
  /\ (forall body, body <> [] -> closing ∉ body ->
        exists ws c rest,
          nodeFor (braced body) = Dynamic (c :: rest)
          /\ body = ws ++ c :: rest
          /\ forallb isSpace ws = true
          /\ (isSpace c = false \/ (rest = [] /\ forallb isSpace body = true))).
Proof. exact (parts_of_text greeting). Defined.

End InterpolationFacts.

(* ===================================================================== *)
(** * What [v-if] and the unkeyed [v-for] leave in the document *)
(* ===================================================================== *)

Module DirectiveFacts.
Import Document Directives KeyedOrder.
#[local] Open Scope list_scope.

(** [insertBefore(n, anchor)] for a new node [n]. *)
Lemma insertBefore_anchor n anchor pre post d :
  childNodes d = pre ++ anchor :: post -> NoDup (childNodes d) -> n ∉ childNodes d ->
  exists d',
    insertBefore n (Some anchor) d = Some d'
    /\ childNodes d' = pre ++ n :: anchor :: post
    /\ nextFresh d' = nextFresh d.
Proof.
  intros Hc Hnd Hn.
  assert (Hp : n ∉ pre) by (rewrite Hc in Hn; set_solver).
  assert (Hr : n ∉ anchor :: post) by (rewrite Hc in Hn; set_solver).
  destruct (insertBefore_at_slot n pre (anchor :: post) d Hc Hnd Hp)
    as (d' & Hins & Hc' & Hf & _).
  exists d'. simpl in Hins. split; [done|]. split; [|done].
  by rewrite Hc', (without_notin n _ Hr).
Qed.

Lemma NoDup_insert_fresh (n : nat) pre rest :
  NoDup (pre ++ rest) -> n ∉ pre ++ rest -> NoDup (pre ++ n :: rest).
Proof.
  intros Hnd Hn. apply NoDup_app in Hnd as (H1 & H2 & H3).
  apply NoDup_app. split; [done|]. split.
  - intros x Hx. rewrite not_elem_of_cons. split; [|by apply H2].
    intros ->. apply Hn. set_solver.
  - apply NoDup_cons. split; [|done]. intros H. apply Hn. set_solver.
Qed.

(** ** [v-if] *)

Section VIf.
Variable walkShape : string -> WalkShape.
Variables (node : string) (anchor : nat) (pre post : list nat) (base : nat).
Hypothesis single : walkShape node = SingleNode.

Lemma runIf_step v st :
  ifInv anchor pre post base st ->
  exists st', runIf walkShape node anchor v st = Some st'
              /\ ifInv anchor pre post base st' /\ isShown (snd st') = v.
Proof.
  destruct st as [d cur]. intros (Hnd & Hfr & Hb & Hshape).
  simpl in Hnd, Hfr, Hb, Hshape. unfold runIf. destruct v, cur as [|n|]; [|by eexists|done|by eexists| |done].
  - (* show *)
    rewrite single. cbn [fresh seq].
    set (d2 := logOp (OpCloneWalk node [nextFresh d]) _).
    assert (Hc2 : childNodes d2 = pre ++ anchor :: post) by done.
    assert (Hnew : nextFresh d ∉ childNodes d2).
    { intros Hin. rewrite Forall_forall in Hfr. apply Hfr in Hin. lia. }
    assert (Hch : isChild anchor d2 = true).
    { unfold isChild. rewrite bool_decide_eq_true_2; [done|]. rewrite Hc2. set_solver. }
    rewrite Hch.
    destruct (insertBefore_anchor (nextFresh d) anchor pre post d2 Hc2 Hnd Hnew)
      as (d3 & -> & Hc3 & Hf3).
    eexists. split; [done|]. split; [|done]. unfold ifInv. cbn [fst snd].
    rewrite Hc3, Hf3. cbn [nextFresh d2 logOp].
    split; [|split; [|split; [lia|split; [done|lia]]]].
    + apply NoDup_insert_fresh; by rewrite <- Hc2.
    + rewrite Hshape in Hfr. apply Forall_app in Hfr as [H1 H2].
      apply Forall_app. split; [|constructor; [lia|]];
        (eapply Forall_impl; [eassumption|]); simpl; intros; lia.
  - (* hide *)
    destruct Hshape as [Hc Hn].
    assert (Hch : isChild n d = true).
    { unfold isChild. rewrite bool_decide_eq_true_2; [done|]. rewrite Hc. set_solver. }
    rewrite Hch. eexists. split; [done|]. split; [|done].
    unfold ifInv, removeChild. cbn [fst snd childNodes nextFresh setChildren logOp].
    assert (Hw : without n (childNodes d) = pre ++ anchor :: post).
    { rewrite Hc in *. apply NoDup_app in Hnd as (_ & Hd & Hr).
      apply NoDup_cons in Hr as [Hr _].
      rewrite without_app, without_head, (without_notin n (anchor :: post) Hr).
      rewrite without_notin; [done|]. intros H. apply (Hd _ H). by left. }
    rewrite Hw. split; [|split; [|done]].
    + rewrite <- Hw. by apply NoDup_without.
    + rewrite Forall_forall in *. intros x Hx. apply Hfr.
      rewrite <- Hw in Hx. by apply elem_of_without in Hx as [_ ?].
Qed.

Lemma runIfAll_steps values : forall st,
  ifInv anchor pre post base st ->
  exists st', runIfAll walkShape node anchor values st = Some st'
              /\ ifInv anchor pre post base st'
              /\ isShown (snd st') = default (isShown (snd st)) (last values).
Proof.
  induction values as [|v values IH]; intros st Hinv.
  - exists st. by split.
  - cbn [runIfAll]. destruct (runIf_step v st Hinv) as (st1 & -> & Hinv1 & Hv).
    destruct (IH st1 Hinv1) as (st' & -> & Hinv' & Hlast).
    exists st'. split; [done|]. split; [done|]. rewrite Hlast, Hv.
    destruct values as [|w ws]; [reflexivity|]. rewrite last_cons_cons.
    destruct (last (w :: ws)) eqn:E; [done|]. by apply last_None in E.
Qed.

End VIf.

(** X13. The runs of a [v-if] on an element, under a parent without transition,
    from the state after mounting: they end; when the last value of the
    expression was truthy, exactly one clone of the element is among the
    parent's children, directly before the anchor; when it was falsy (or
    there was no run), none is; the other children are where they were. The
    clone is a node made after mounting, not one of the earlier children. *)
Theorem vif_element_present_iff_truthy walkShape node anchor pre post d values :
  walkShape node = SingleNode ->
  childNodes d = pre ++ anchor :: post ->
  NoDup (childNodes d) ->
  Forall (fun n => n < nextFresh d) (childNodes d) ->
  exists d' cur,
    runIfAll walkShape node anchor values (d, NothingShown) = Some (d', cur)
    /\ isShown cur = default false (last values)
    /\ match cur with
       | NothingShown => childNodes d' = pre ++ anchor :: post
       | ShownNode n => childNodes d' = pre ++ n :: anchor :: post /\ n ∉ childNodes d
       | ShownFragment => False
       end.
Proof.
  intros Hs Hc Hnd Hfr.
  destruct (runIfAll_steps walkShape node anchor pre post (nextFresh d) Hs values
              (d, NothingShown)) as ([d' cur] & Hrun & (_ & _ & _ & Hshape) & Hlast).
  { split; [done|]. split; [done|]. split; [simpl; lia|done]. }
  exists d', cur. split; [done|]. split; [done|]. simpl in Hshape.
  destruct cur as [|n|]; [done| |done]. destruct Hshape as [Hc' Hn]. split; [done|].
  intros Hin. rewrite Forall_forall in Hfr. apply Hfr in Hin. lia.
Qed.

Lemma vif_element_present_witness :
  exists d' cur,
    runIfAll Reconciler.singleNodes "p" 0 [true; false; true] (threeChildren, NothingShown)
      = Some (d', cur)
    /\ isShown cur = true
    /\ match cur with
       | NothingShown => childNodes d' = [1] ++ 0 :: [2]
       | ShownNode n => childNodes d' = [1] ++ n :: 0 :: [2] /\ n ∉ childNodes threeChildren
       | ShownFragment => False
       end.
Proof.
  apply (vif_element_present_iff_truthy Reconciler.singleNodes "p" 0 [1] [2]
           threeChildren [true; false; true]).
  - reflexivity.
  - reflexivity.
  - by apply (bool_decide_unpack _); vm_compute.
  - by apply (bool_decide_unpack _); vm_compute.
Defined.

(** ** [v-for] without [:key] *)

Lemma filter_without_tracked el (T l : list nat) :
  filter (fun n => n ∉ el :: T) l = filter (fun n => n ∉ T) (without el l).
Proof.
  unfold without. rewrite list_filter_filter. apply filter_agree.
  intros x _. rewrite not_elem_of_cons. tauto.
Qed.

Lemma removeTracked_spec m : forall d,
  childNodes (removeTracked m d) = filter (fun n => n ∉ trackedNodes m) (childNodes d)
  /\ nextFresh (removeTracked m d) = nextFresh d.
Proof.
  induction m as [|[j e] m IH]; intros d.
  - simpl. split; [|done]. symmetry. apply filter_all, Forall_forall.
    intros x _. apply not_elem_of_nil.
  - cbn [removeTracked snd]. unfold trackedNodes. cbn [omap list_omap snd].
    destruct (element e) as [el|]; [|apply IH].
    set (d' := if isChild el d then removeChild el d else d).
    assert (Hd : childNodes d' = without el (childNodes d) /\ nextFresh d' = nextFresh d).
    { subst d'. unfold isChild. case_bool_decide as Hin; [done|].
      by rewrite without_notin. }
    destruct Hd as [Hc Hf]. destruct (IH d') as [-> ->].
    split; [|done]. rewrite Hc. symmetry. apply filter_without_tracked.
Qed.

Lemma setAt_new i e m : Forall (fun kv => fst kv < i) m -> setAt i e m = m ++ [(i, e)].
Proof.
  induction 1 as [|[j x] m Hj _ IH]; [done|]. simpl in *.
  destruct (Nat.eqb_spec j i) as [->|_]; [lia|]. by rewrite IH.
Qed.

Section Unkeyed.
Variable walkShape : string -> WalkShape.
Hypothesis single : forall it, walkShape it = SingleNode.
Variables (anchor : nat) (post : list nat).

Lemma renderFrom_spec items : forall i d m placed,
  childNodes d = placed ++ anchor :: post ->
  NoDup (childNodes d) ->
  Forall (fun n => n < nextFresh d) (childNodes d) ->
  Forall (fun kv => fst kv < i) m ->
  exists d' m',
    renderFrom walkShape anchor items i (d, m) = Some (d', m')
    /\ childNodes d' = placed ++ seq (nextFresh d) (List.length items) ++ anchor :: post
    /\ nextFresh d' = nextFresh d + List.length items
    /\ trackedNodes m' = trackedNodes m ++ seq (nextFresh d) (List.length items)
    /\ map fst m' = map fst m ++ seq i (List.length items)
    /\ NoDup (childNodes d')
    /\ Forall (fun n => n < nextFresh d') (childNodes d').
Proof.
  induction items as [|it items IH]; intros i d m placed Hc Hnd Hfr Hm.
  - exists d, m. simpl. rewrite !app_nil_r, Nat.add_0_r. by repeat split.
  - cbn [renderFrom]. unfold renderItem. rewrite single. cbn [fresh seq].
    set (n := nextFresh d).
    set (d2 := logOp (OpCloneWalk it [n]) _).
    assert (Hc2 : childNodes d2 = placed ++ anchor :: post) by done.
    assert (Hnew : n ∉ childNodes d2).
    { intros Hin. rewrite Forall_forall in Hfr. apply Hfr in Hin. subst n. lia. }
    destruct (insertBefore_anchor n anchor placed post d2 Hc2 Hnd Hnew)
      as (d3 & -> & Hc3 & Hf3).
    rewrite (setAt_new i _ m Hm).
    set (entry := {| element := Some n; item := it; index := i |}).
    assert (Hf3' : nextFresh d3 = S n) by (rewrite Hf3; subst d2 n; simpl; lia).
    destruct (IH (S i) d3 (m ++ [(i, entry)]) (placed ++ [n]))
      as (d' & m' & -> & Hc' & Hf' & Ht' & Hk' & Hnd' & Hfr').
    + by rewrite Hc3, <- app_assoc.
    + rewrite Hc3. apply NoDup_insert_fresh; by rewrite <- Hc2.
    + rewrite Hc3, Hf3'. rewrite Hc in Hfr. apply Forall_app in Hfr as [H1 H2].
      apply Forall_app. split; [|constructor; [lia|]];
        (eapply Forall_impl; [eassumption|]); simpl; intros; subst n; lia.
    + apply Forall_app. split; [|by repeat constructor].
      eapply Forall_impl; [exact Hm|]. simpl. intros; lia.
    + exists d', m'. split; [done|]. rewrite Hf3' in *.
      split; [by rewrite Hc', <- app_assoc|]. split; [simpl; lia|].
      split; [|split; [|by split]].
      * rewrite Ht'. unfold trackedNodes. rewrite omap_app. simpl.
        by rewrite <- app_assoc.
      * rewrite Hk', map_app. simpl. by rewrite <- app_assoc.
Qed.

End Unkeyed.

(** X12. A run of the unkeyed [v-for] over an array, for single-node items, the
    anchor being a child of the parent: it returns; every element that the
    list tracked is gone and one new node per item stands directly before the
    anchor, in the order of the items; these new nodes are what the list
    tracks now, under the positions [0, 1, ...]; the other children keep
    their places on each side of the anchor. No element is reused. *)
Theorem unkeyed_run_rebuilds walkShape anchor items d m pre post :
  (forall it, walkShape it = SingleNode) ->
  childNodes d = pre ++ anchor :: post ->
  NoDup (childNodes d) ->
  Forall (fun n => n < nextFresh d) (childNodes d) ->
  anchor ∉ trackedNodes m ->
  exists d' m',
    runUnkeyed walkShape anchor items (d, m) = Some (d', m')
    /\ childNodes d'
       = filter (fun n => n ∉ trackedNodes m) pre
         ++ seq (nextFresh d) (List.length items)
         ++ anchor :: filter (fun n => n ∉ trackedNodes m) post
    /\ trackedNodes m' = seq (nextFresh d) (List.length items)
    /\ map fst m' = seq 0 (List.length items)
    /\ NoDup (childNodes d')
    /\ Forall (fun n => n < nextFresh d') (childNodes d')
    /\ anchor ∉ trackedNodes m'.
Proof.
  intros Hs Hc Hnd Hfr Ha. unfold runUnkeyed.
  assert (Hch : isChild anchor d = true).
  { unfold isChild. rewrite bool_decide_eq_true_2; [done|]. rewrite Hc. set_solver. }
  rewrite Hch. destruct (removeTracked_spec m d) as [Hc1 Hf1].
  set (d1 := removeTracked m d) in *.
  assert (Hnd1 : NoDup (childNodes d1)) by (rewrite Hc1; by apply NoDup_filter).
  assert (Hfr1 : Forall (fun n => n < nextFresh d1) (childNodes d1)).
  { rewrite Hc1, Hf1. rewrite Forall_forall in *. intros x Hx.
    apply list_elem_of_filter in Hx as [_ Hx]. by apply Hfr. }
  rewrite Hc, filter_app, filter_cons, decide_True in Hc1 by done.
  destruct (renderFrom_spec walkShape Hs anchor _ items 0 d1 [] _ Hc1 Hnd1 Hfr1)
    as (d' & m' & -> & Hc' & Hf' & Ht' & Hk' & Hnd' & Hfr').
  - constructor.
  - exists d', m'. rewrite Hf1 in *. split; [done|]. split; [done|].
    split; [done|]. split; [done|]. split; [done|]. split; [done|].
    rewrite Ht'. simpl. rewrite elem_of_seq. intros [Hge _].
    assert (anchor ∈ childNodes d) by (rewrite Hc; set_solver).
    rewrite Forall_forall in Hfr. apply Hfr in H. lia.
Qed.

Lemma unkeyed_run_rebuilds_witness :
  exists d' m',
    runUnkeyed Reconciler.singleNodes 0 ["x"; "y"]
      ({| childNodes := [1; 5; 0; 2]; nextFresh := 6; ops := [] |},
       [(0, {| element := Some 5; item := "w"; index := 0 |})]) = Some (d', m')
    /\ childNodes d' = [1] ++ [6; 7] ++ 0 :: [2]
    /\ trackedNodes m' = [6; 7]
    /\ map fst m' = [0; 1]
    /\ NoDup (childNodes d')
    /\ Forall (fun n => n < nextFresh d') (childNodes d')
    /\ 0 ∉ trackedNodes m'.
Proof.
  apply (unkeyed_run_rebuilds Reconciler.singleNodes 0 ["x"; "y"]
           {| childNodes := [1; 5; 0; 2]; nextFresh := 6; ops := [] |}
           [(0, {| element := Some 5; item := "w"; index := 0 |})] [1; 5] [2]).
  - done.
  - reflexivity.
  - by apply (bool_decide_unpack _); vm_compute.
  - by apply (bool_decide_unpack _); vm_compute.
  - by apply (bool_decide_unpack _); vm_compute.
Defined.

End DirectiveFacts.

(* ===================================================================== *)
(** * The escaped form of a text *)
(* ===================================================================== *)

Module EscapeFacts.
Import Escape.
#[local] Open Scope list_scope.

Lemma replaceAll_app c r a b :
  replaceAll c r (a ++ b) = replaceAll c r a ++ replaceAll c r b.
Proof.
  induction a as [|x a IH]; [done|]. simpl.
  destruct (Ascii.eqb x c); rewrite IH; [by rewrite app_assoc|done].
Qed.

Lemma replaceAll_cons c r x s :
  replaceAll c r (x :: s) = replaceAll c r [x] ++ replaceAll c r s.
Proof. apply (replaceAll_app c r [x] s). Qed.

(** The five passes, one after the other, do what one pass that replaces
    each code unit by its entity does: a pass never touches what an earlier
    pass has written. *)
Lemma escape_cons x s : _escape (Some (x :: s)) = escapeChar x ++ _escape (Some s).
Proof.
  unfold _escape.
  rewrite (replaceAll_cons "&" amp), (replaceAll_app "<"), (replaceAll_app ">"),
    (replaceAll_app dquote), (replaceAll_app "'").
  f_equal. unfold escapeChar. cbn [replaceAll].
  destruct (Ascii.eqb_spec x "&") as [->|H1]; [done|].
  cbn [replaceAll].
  destruct (Ascii.eqb_spec x "<") as [->|H2]; [done|].
  cbn [replaceAll].
  destruct (Ascii.eqb_spec x ">") as [->|H3]; [done|].
  cbn [replaceAll].
  destruct (Ascii.eqb_spec x dquote) as [->|H4]; [done|].
  cbn [replaceAll].
  destruct (Ascii.eqb_spec x "'") as [->|H5]; done.
Qed.

Lemma escape_flat_map s : _escape (Some s) = flat_map escapeChar s.
Proof.
  induction s as [|x s IH]; [done|]. rewrite escape_cons, IH. done.
Qed.

Lemma escapeChar_no_markup x : Forall (fun c => markup c = false) (escapeChar x).
Proof.
  unfold escapeChar.
  destruct (Ascii.eqb_spec x "&") as [->|H1]; [by repeat constructor|].
  destruct (Ascii.eqb_spec x "<") as [->|H2]; [by repeat constructor|].
  destruct (Ascii.eqb_spec x ">") as [->|H3]; [by repeat constructor|].
  destruct (Ascii.eqb_spec x dquote) as [->|H4]; [by repeat constructor|].
  destruct (Ascii.eqb_spec x "'") as [->|H5]; [by repeat constructor|].
  constructor; [|constructor]. unfold markup.
  apply Ascii.eqb_neq in H2, H3, H4, H5. by rewrite H2, H3, H4, H5.
Qed.

(** No entity, and no plain code unit, is the start of another. *)
Lemma escapeChar_prefix_free x y t u :
  escapeChar x ++ t = escapeChar y ++ u -> x = y /\ t = u.
Proof.
  unfold escapeChar.
  destruct (Ascii.eqb_spec x "&") as [->|X1];
    [|destruct (Ascii.eqb_spec x "<") as [->|X2];
      [|destruct (Ascii.eqb_spec x ">") as [->|X3];
        [|destruct (Ascii.eqb_spec x dquote) as [->|X4];
          [|destruct (Ascii.eqb_spec x "'") as [->|X5]]]]];
  (destruct (Ascii.eqb_spec y "&") as [->|Y1];
    [|destruct (Ascii.eqb_spec y "<") as [->|Y2];
      [|destruct (Ascii.eqb_spec y ">") as [->|Y3];
        [|destruct (Ascii.eqb_spec y dquote) as [->|Y4];
          [|destruct (Ascii.eqb_spec y "'") as [->|Y5]]]]]);
  simpl; intros H; simplify_eq; done.
Qed.

(** X23. [_escape] replaces the ampersand, the two angle brackets, the double
    quote and the apostrophe by their entities and leaves the other code
    units as they are, as if in one pass; the result holds no angle bracket
    and no quote; and two texts with the same escaped form are the same text.
    Of [null] and [undefined] it makes the empty text. *)
Theorem escape_is_safe_and_injective :
  (forall s, _escape (Some s) = flat_map escapeChar s)
  /\ (forall v, Forall (fun c => markup c = false) (_escape v))
  /\ (forall a b, _escape (Some a) = _escape (Some b) -> a = b)
  /\ _escape None = [].
Proof.
  split; [apply escape_flat_map|]. split; [|split; [|done]].
  - intros [s|]; [|constructor]. rewrite escape_flat_map.
    induction s as [|x s IH]; [constructor|]. simpl.
    apply Forall_app. split; [apply escapeChar_no_markup|done].
  - intros a. induction a as [|x a IH]; intros b.
    + destruct b as [|y b]; [done|]. rewrite escape_cons. simpl.
      intros H. symmetry in H. apply app_eq_nil in H as [H _].
      unfold escapeChar in H. by repeat case_match.
    + destruct b as [|y b].
      * rewrite escape_cons. simpl. intros H. apply app_eq_nil in H as [H _].
        unfold escapeChar in H. by repeat case_match.
      * rewrite !escape_cons. intros H.
        apply escapeChar_prefix_free in H as [-> H]. f_equal. by apply IH.
Qed.

End EscapeFacts.

(* ===================================================================== *)
(** * The order of the routes *)
(* ===================================================================== *)

Module PriorityFacts.
Import JsString RouterCore FindMatch RouterSpec MatcherSpec RouterFacts MatcherFacts.
#[local] Open Scope list_scope.

Section Generic.
Variable leafTest : string -> string -> bool.

(** X8. The routes of a table are tried in order and the first chain found is
    reported: when a chain through the first routes of a table matches, the
    routes after them play no part; when none does, the result is that of
    the routes after them alone. *)
Theorem matchRoute_earlier_routes_first before after path :
  ((exists chain, chainMatches leafTest before "" path chain) ->
     _matchRoute leafTest (before ++ after) path = _matchRoute leafTest before path)
  /\ (~ (exists chain, chainMatches leafTest before "" path chain) ->
      _matchRoute leafTest (before ++ after) path = _matchRoute leafTest after path).
Proof.
  unfold _matchRoute. rewrite findMatch_app.
  destruct (findMatch leafTest before path "" _) as [ok st1] eqn:Hfm.
  split.
  - intros [chain Hc].
    pose proof (findMatch_complete leafTest _ _ _ _ Hc {| matched := []; params := ∅ |})
      as Hok.
    rewrite Hfm in Hok. simpl in Hok. by subst ok.
  - intros Hno. destruct ok.
    + exfalso. apply Hno. apply findMatch_sound in Hfm as (chain & Hc & _).
      * by exists chain.
      * unfold paramsFrom. simpl. set_solver.
    + apply findMatch_fail_initial in Hfm. by subst st1.
Qed.

End Generic.

End PriorityFacts.

(* ===================================================================== *)
(** * Cleanup functions and disposal *)
(* ===================================================================== *)

Module CleanupFacts.
Import Reactive ReactiveSpec ReadOnlyEffects ReactiveFacts RuntimeSpec RuntimeFacts.
#[local] Open Scope list_scope.

Lemma subscribersOf_leave e st :
  subscribersOf e (setCurrent None st) = subscribersOf e st.
Proof. done. Qed.

Lemma subscribersOf_cleanup s e st :
  subscribersOf s (setCleanupVar e st) = subscribersOf s st.
Proof. unfold setCleanupVar. by destruct (effects st !! e). Qed.

(** X17. The closure of [createEffectWithCleanup] calls the stored cleanup
    function after it has made itself the tracking context: a signal that the
    cleanup function reads becomes a dependency of the effect. *)
Theorem cleanup_reads_are_tracked fuel e st st' c s rest cell :
  effects st !! e = Some c ->
  has_cleanup_slot c = true ->
  cleanup_var c = Some (CRead s :: rest) ->
  signals st !! s = Some cell ->
  effect fuel e st = Some st' ->
  e ∈ subscribersOf s st'.
Proof.
  intros He Hk Hcl Hs Hrun. destruct fuel as [|fuel]; [done|]. simpl in Hrun.
  rewrite He, Hk, Hcl in Hrun.
  set (st1 := setCurrent (Some e) (record (Ran e) st)) in *.
  destruct (execBody fuel (CRead s :: rest) st1) as [st2|] eqn:H2; [|done].
  destruct (execBody fuel (fn_body c) st2) as [st3|] eqn:H3; [|done].
  injection Hrun as <-. rewrite subscribersOf_leave, subscribersOf_cleanup.
  apply (proj1 (run_extends fuel)) in H3.
  apply (extends_keeps_subscriber _ _ _ _ H3).
  destruct fuel as [|fuel]; [done|]. simpl in H2.
  apply (proj1 (run_extends fuel)) in H2.
  apply (extends_keeps_subscriber _ _ _ _ H2).
  by apply (read_tracked s st1 e cell).
Qed.

(** A two-signal object with an effect made by
    [createEffectWithCleanup(() => { a(); return () => { flag() } })], and
    the same after a write to [a]. *)
Lemma cleanup_reads_witness :
  0 ∈ subscribersOf 0
        (default empty
           (effect 10 0
              (default empty
                 (snd <$> createEffectWithCleanup 10 [CRead 1] (Some [CRead 0])
                            Scenarios.twoSignals)))).
Proof.
  eapply (cleanup_reads_are_tracked 10 0
            (default empty
               (snd <$> createEffectWithCleanup 10 [CRead 1] (Some [CRead 0])
                          Scenarios.twoSignals))).
  - vm_compute; reflexivity.
  - reflexivity.
  - reflexivity.
  - vm_compute; reflexivity.
  - vm_compute; reflexivity.
Defined.

(** X18. Calling the closure that [createEffect] or [createEffectWithCleanup]
    returned takes the effect out of no subscriber set: a later notifying
    write to a signal the effect had read runs the effect again. *)
Theorem disposed_effect_still_runs fuel d st st1 s x cell1 e st2 :
  dispose fuel d st = Some st1 ->
  e ∈ subscribersOf s st ->
  signals st1 !! s = Some cell1 ->
  isPrimitive x && strictEq (value cell1) x = false ->
  write fuel s x st1 = Some st2 ->
  Ran e ∈ newEvents st1 st2.
Proof.
  intros Hd He Hs Hne Hw.
  assert (Hext : extends st st1).
  { revert Hd. apply dispose_related.
    - apply extends_refl.
    - apply extends_trans.
    - apply extends_read.
    - apply extends_store.
    - apply extends_addEffect.
    - intros e' st' _. eapply extends_trans; [apply extends_record|apply extends_setCurrent].
    - apply extends_setCurrent.
    - apply extends_setCleanupVar. }
  apply (extends_keeps_subscriber _ _ s e Hext) in He.
  unfold subscribersOf in He. rewrite Hs in He.
  by eapply write_runs_subscribers.
Qed.

Lemma disposed_effect_witness :
  Ran 0 ∈ newEvents
            (default empty
               (dispose 10 (DisposeCleanup 0)
                  (default empty
                     (snd <$> createEffectWithCleanup 10 [CRead 1] (Some [CRead 0])
                                Scenarios.twoSignals))))
            (default empty
               (write 10 1 (VNum 2)
                  (default empty
                     (dispose 10 (DisposeCleanup 0)
                        (default empty
                           (snd <$> createEffectWithCleanup 10 [CRead 1] (Some [CRead 0])
                                      Scenarios.twoSignals)))))).
Proof.
  eapply (disposed_effect_still_runs 10 (DisposeCleanup 0)
            (default empty
               (snd <$> createEffectWithCleanup 10 [CRead 1] (Some [CRead 0])
                          Scenarios.twoSignals))
            _ 1 (VNum 2) {| value := VNum 1; subscribers := [0] |} 0).
  - vm_compute; reflexivity.
  - vm_compute. by left.
  - vm_compute; reflexivity.
  - reflexivity.
  - vm_compute; reflexivity.
Defined.

End CleanupFacts.

(* ===================================================================== *)
(** * The keyed reconciler on a list with repeated keys *)
(* ===================================================================== *)

Module KeyedRepeats.
Import Document Reconciler ReconcilerSpec ReconcilerFacts KeyedSpec KeyedOrder.
#[local] Open Scope list_scope.

(** [insertBefore(el, slot)] for a placed element that is not the last
    placed one: it becomes the last. *)
Lemma insertBefore_move el A B rest d :
  childNodes d = A ++ el :: B ++ rest -> NoDup (childNodes d) ->
  exists d',
    insertBefore el (head rest) d = Some d'
    /\ childNodes d' = A ++ B ++ el :: rest
    /\ nextFresh d' = nextFresh d.
Proof.
  intros Hc Hnd. unfold insertBefore.
  assert (Hw : without el (childNodes d) = A ++ B ++ rest).
  { rewrite Hc in *. apply NoDup_app in Hnd as (_ & Hd & Hr).
    apply NoDup_cons in Hr as [Hr _].
    rewrite without_app, without_head, (without_notin el (B ++ rest) Hr).
    rewrite without_notin; [done|]. intros H. apply (Hd _ H). by left. }
  destruct rest as [|r rest']; simpl.
  - eexists. split; [done|]. simpl. rewrite Hw, !app_nil_r. by rewrite <- app_assoc.
  - assert (Hr : r ∈ childNodes d) by (rewrite Hc; set_solver).
    unfold isChild. rewrite bool_decide_eq_true_2 by done.
    assert (Hne : r <> el).
    { intros ->. rewrite Hc in Hnd. apply NoDup_app in Hnd as (_ & _ & Hnd).
      apply NoDup_cons in Hnd as [Hnd _]. apply Hnd. set_solver. }
    destruct (Nat.eqb_spec r el) as [|_]; [done|].
    eexists. split; [done|]. simpl. rewrite Hw. split; [|done].
    rewrite (app_assoc A B), placeBefore_app; [by rewrite <- app_assoc|].
    rewrite Hc in Hnd. intros Hin. apply elem_of_app in Hin as [Hin|Hin].
    + apply NoDup_app in Hnd as (_ & Hd & _). apply (Hd _ Hin). set_solver.
    + apply NoDup_app in Hnd as (_ & _ & Hnd). apply NoDup_cons in Hnd as [_ Hnd].
      apply NoDup_app in Hnd as (_ & Hd & _). apply (Hd _ Hin). by left.
Qed.

Lemma placedOf_app m a b : placedOf m (a ++ b) = placedOf m a ++ placedOf m b.
Proof. apply omap_app. Qed.

Lemma addLast_new k ks : k ∉ ks -> addLast k ks = ks ++ [k].
Proof.
  intros Hk. unfold addLast. rewrite filter_all; [done|].
  apply Forall_forall. intros x Hx ->. done.
Qed.

Lemma addLast_split k e1 e2 :
  k ∉ e1 -> k ∉ e2 -> addLast k (e1 ++ k :: e2) = e1 ++ e2 ++ [k].
Proof.
  intros H1 H2. unfold addLast.
  rewrite filter_app, filter_cons, decide_False by (by intros H; apply H).
  rewrite !filter_all; [by rewrite <- app_assoc| |];
    apply Forall_forall; intros x Hx ->; done.
Qed.

Lemma NoDup_addLast k ks : NoDup ks -> NoDup (addLast k ks).
Proof.
  intros H. unfold addLast. apply NoDup_app. split; [by apply NoDup_filter|].
  split; [|apply NoDup_singleton].
  intros x Hx. apply list_elem_of_filter in Hx as [Hx _].
  by rewrite list_elem_of_singleton.
Qed.

Lemma elem_of_addLast k ks x : x ∈ addLast k ks <-> x = k \/ x ∈ ks.
Proof.
  unfold addLast. rewrite elem_of_app, list_elem_of_filter, list_elem_of_singleton.
  destruct (decide (x = k)); tauto.
Qed.

Lemma lastOccurrences_from ks : forall acc,
  NoDup acc ->
  NoDup (fold_left (fun acc k => addLast k acc) ks acc)
  /\ (forall x, x ∈ fold_left (fun acc k => addLast k acc) ks acc <-> (x ∈ acc) \/ x ∈ ks)
  /\ (NoDup (acc ++ ks) -> fold_left (fun acc k => addLast k acc) ks acc = acc ++ ks).
Proof.
  induction ks as [|k ks IH]; intros acc Hnd; simpl.
  - split; [done|]. split; [|by rewrite app_nil_r].
    intros x. split; [tauto|]. intros [H|H]; [done|by apply elem_of_nil in H].
  - destruct (IH (addLast k acc) (NoDup_addLast k acc Hnd)) as (H1 & H2 & H3).
    split; [done|]. split.
    + intros x. rewrite H2, elem_of_addLast, elem_of_cons. tauto.
    + intros Hall. assert (Hk : k ∉ acc).
      { apply NoDup_app in Hall as (_ & Hd & _). intros H. apply (Hd _ H). by left. }
      rewrite (addLast_new k acc Hk) in *. rewrite H3; [by rewrite <- app_assoc|].
      by rewrite <- app_assoc.
Qed.

Section Step.
Variable walkShape : string -> WalkShape.
Hypothesis single : forall it, walkShape it = SingleNode.
Variable newItemMap : list (string * (string * nat)).
Variables (allKeys : list string) (others0 : list nat).

(** A key that has been placed already in this run: its element is moved
    behind the last placed one (or is the last placed one). *)
Lemma processKey_repeated eff d m prev k :
  placedSoFar allKeys others0 eff d m prev ->
  NoDup eff -> k ∈ eff ->
  exists d' prev',
    processKey walkShape newItemMap k ((d, m), prev) = Some ((d', m), prev')
    /\ placedSoFar allKeys others0 (addLast k eff) d' m prev'
    /\ nextFresh d' = nextFresh d.
Proof.
  intros Hps Hnde Hk. pose proof Hps as [Hwf [rest Hc] Htr Hprev Hkeys Hoth].
  pose proof Hwf as [Hnd Hfr Hks Hes Hdef Hatt].
  apply list_elem_of_split in Hk as (e1 & e2 & ->).
  assert (Hk1 : (k ∉ e1) /\ k ∉ e2).
  { apply NoDup_app in Hnde as (_ & Hd & H2). apply NoDup_cons in H2 as [H2 _].
    split; [|done]. intros H. apply (Hd _ H). by left. }
  destruct Hk1 as [Hk1 Hk2]. rewrite (addLast_split k e1 e2 Hk1 Hk2).
  pose proof Htr as Htr0.
  apply Forall_app in Htr as [Htr1 Htr2]. apply Forall_cons in Htr2 as [[e Hg] Htr2].
  destruct (element e) as [el|] eqn:He;
    [|exfalso; apply Hdef; rewrite <- He; by eapply get_elemOpt].
  assert (Hpl : placedOf m (e1 ++ k :: e2) = placedOf m e1 ++ el :: placedOf m e2).
  { rewrite placedOf_app, placedOf_cons, Hg. simpl. by rewrite He. }
  assert (Hpl' : placedOf m (e1 ++ e2 ++ [k]) = placedOf m e1 ++ placedOf m e2 ++ [el]).
  { rewrite !placedOf_app. do 2 f_equal. unfold placedOf. simpl. rewrite Hg. simpl.
    by rewrite He. }
  set (P1 := placedOf m e1) in *. set (P2 := placedOf m e2) in *.
  rewrite Hpl in Hc, Hprev.
  assert (Hel : el ∈ childNodes d) by (rewrite Hc; set_solver).
  assert (Hman : forall x, x ∈ P1 ++ P2 ++ [el] -> Some x ∈ elemOpts m).
  { intros x Hx. apply (placedOf_managed m (e1 ++ k :: e2)). rewrite Hpl. set_solver. }
  assert (Hgoal : forall d',
    childNodes d' = (P1 ++ P2 ++ [el]) ++ rest -> nextFresh d' = nextFresh d ->
    childNodes d' ≡ₚ childNodes d ->
    placedSoFar allKeys others0 (e1 ++ e2 ++ [k]) d' m (Some el)).
  { intros d' Hc' Hf' Hperm. split.
    - split; try done.
      + by rewrite Hperm.
      + by rewrite Hf', Hperm.
      + intros n Hn. rewrite Hperm. by apply Hatt.
    - exists rest. by rewrite Hpl'.
    - apply Forall_app. split; [done|]. apply Forall_app. split; [done|].
      constructor; [by exists e|constructor].
    - rewrite Hpl'. by rewrite !app_assoc, last_snoc.
    - done.
    - rewrite <- Hoth. unfold others.
      rewrite Hc', Hc, (filter_app _ (P1 ++ P2 ++ [el]) rest),
              (filter_app _ (P1 ++ el :: P2) rest).
      rewrite (filter_none _ (P1 ++ P2 ++ [el])),
              (filter_none _ (P1 ++ el :: P2)); [done| |].
      + apply Forall_forall. intros x Hx Hn. apply Hn, Hman. set_solver.
      + apply Forall_forall. intros x Hx Hn. by apply Hn, Hman. }
  unfold processKey. rewrite Hg, He.
  destruct (decide (P2 = [])) as [HP2|HP2].
  - (* the key just placed *)
    rewrite HP2 in *. assert (prev = Some el) as ->.
    { rewrite Hprev. by rewrite last_app_cons. }
    rewrite bool_decide_eq_false_2 by (by intros H; apply H).
    exists d, (Some el). split; [done|]. split; [|done].
    apply Hgoal; [|done|done]. rewrite Hc. simpl. by rewrite <- !app_assoc.
  - (* a key placed earlier: moved behind the last placed element *)
    assert (Hc2 : childNodes d = P1 ++ el :: P2 ++ rest).
    { rewrite Hc. by rewrite <- app_assoc. }
    assert (Hlast : exists p P2', P2 = P2' ++ [p]).
    { destruct (last P2) as [p|] eqn:Hl; [|by apply last_None in Hl].
      apply last_Some in Hl as [P2' Hl]. by eexists _, _. }
    destruct Hlast as (p & P2' & HP).
    assert (Hc3 : childNodes d = (P1 ++ el :: P2') ++ p :: rest).
    { rewrite Hc2, HP. by rewrite <- !app_assoc. }
    assert (prev = Some p) as ->.
    { rewrite Hprev, HP. by rewrite app_comm_cons, app_assoc, last_snoc. }
    assert (Hp : p ∈ childNodes d) by (rewrite Hc3; set_solver).
    assert (Hpn : p ∉ P1 ++ el :: P2').
    { pose proof Hnd as Hnd3. rewrite Hc3 in Hnd3.
      apply NoDup_app in Hnd3 as (_ & Hd & _). intros H. apply (Hd _ H). by left. }
    assert (Hne : el <> p).
    { intros ->. apply Hpn. set_solver. }
    rewrite bool_decide_eq_true_2 by (by apply nextSibling_differs).
    rewrite (nextSibling_app p (P1 ++ el :: P2') rest d Hc3 Hpn).
    destruct (insertBefore_move el P1 P2 rest d Hc2 Hnd) as (d' & -> & Hc' & Hf').
    exists d', (Some el). split; [done|]. split; [|done].
    apply Hgoal; [by rewrite Hc', <- !app_assoc|done|].
    rewrite Hc', Hc2. apply Permutation_app_head.
    symmetry. apply Permutation_middle.
Qed.

Lemma processKeys_general todo : forall eff d m prev,
  placedSoFar allKeys others0 eff d m prev ->
  NoDup eff ->
  Forall (fun k => k ∈ allKeys /\ is_Some (JsMap.get k newItemMap)) todo ->
  exists d' m' prev',
    processKeys walkShape newItemMap todo ((d, m), prev) = Some ((d', m'), prev')
    /\ placedSoFar allKeys others0 (fold_left (fun acc k => addLast k acc) todo eff)
         d' m' prev'.
Proof.
  induction todo as [|k todo IH]; intros eff d m prev Hps Hnd Hall.
  - by exists d, m, prev.
  - apply Forall_cons in Hall as [[Hk [[it i] Hn]] Hall].
    cbn [processKeys fold_left].
    pose proof (NoDup_addLast k eff Hnd) as Hnd'.
    destruct (decide (k ∈ eff)) as [Hin|Hnin].
    + destruct (processKey_repeated eff d m prev k Hps Hnd Hin)
        as (d1 & prev1 & -> & Hps1 & _).
      by apply IH.
    + rewrite (addLast_new k eff Hnin) in *.
      destruct (JsMap.get k m) as [e|] eqn:Hg.
      * destruct (processKey_reused walkShape single newItemMap allKeys others0 eff d m prev k e
                    Hps Hnin Hg) as (d1 & prev1 & -> & Hps1 & _).
        by apply IH.
      * destruct (processKey_created walkShape single newItemMap allKeys others0 eff d m
                    prev k it i Hps Hk Hg Hn) as (d1 & m1 & -> & Hps1 & _).
        by apply IH.
Qed.

End Step.

(** X24. A run of the keyed reconciler for a list in which keys may be
    repeated (single-node items, well-formed state): it returns and leaves a
    well-formed state; one element per distinct key is rendered; the elements
    stand first among the parent's children, in the order of the last
    occurrences of their keys (an element placed for an earlier occurrence is
    moved when its key comes again), followed by the children that were not
    elements of the reuse map. The list of last occurrences has every key of
    the list once, and is the list itself when no key is repeated. *)
Theorem keyed_run_with_repeated_keys walkShape items d m :
  (forall it, walkShape it = SingleNode) ->
  wfList d m ->
  exists d' m' els,
    reconcile walkShape items (d, m) = Some (d', m')
    /\ wfList d' m'
    /\ JsMap.keys m' ≡ₚ lastOccurrences (newKeysOf items)
    /\ Forall2 (tracked m') (lastOccurrences (newKeysOf items)) els
    /\ childNodes d' = els ++ others d m
    /\ NoDup (lastOccurrences (newKeysOf items))
    /\ (forall k, k ∈ lastOccurrences (newKeysOf items) <-> k ∈ newKeysOf items)
    /\ (NoDup (newKeysOf items) -> lastOccurrences (newKeysOf items) = newKeysOf items).
Proof.
  intros Hsingle Hwf. unfold reconcile, newKeysOf, lastOccurrences in *.
  assert (Hhas : forall k, JsMap.has k (fst (buildNew items 0 [] [])) = true
                           <-> k ∈ snd (buildNew items 0 [] [])).
  { apply buildNew_has. intros k. split; [done|]. intros H. by apply elem_of_nil in H. }
  destruct (buildNew items 0 [] []) as [nm nk]. simpl in *.
  set (ks := filter (fun k => JsMap.has k nm = false) (JsMap.keys m)).
  destruct (removeOld_spec ks d m Hwf) as (d1 & m1 & -> & Hwf1 & Hoth1 & Hf1 & Hk1 & Hg1).
  assert (Hinit : placedSoFar nk (others d m) [] d1 m1 None).
  { split; try done.
    - by exists (childNodes d1).
    - intros k Hk. apply Hk1 in Hk as [Hk Hin]. apply Hhas.
      destruct (JsMap.has k nm) eqn:Hh; [done|]. exfalso. apply Hk.
      by apply list_elem_of_filter. }
  destruct (lastOccurrences_from nk [] (NoDup_nil_2)) as (Hnd & Hmem & Hsame).
  set (eff := fold_left (fun acc k => addLast k acc) nk []) in *.
  destruct (processKeys_general walkShape Hsingle nm nk (others d m) nk [] d1 m1 None Hinit)
    as (d' & m' & prev' & -> & Hps); [constructor| |].
  { apply Forall_forall. intros k Hk. split; [done|]. apply Hhas in Hk.
    unfold JsMap.has in Hk. by destruct (JsMap.get k nm). }
  destruct Hps as [Hwf' [rest Hc'] Htr' _ Hkeys' Hoth'].
  pose proof Hwf' as [Hnd' _ Hks' _ Hdef' _].
  assert (Hrest : others d' m' = rest).
  { unfold others. rewrite Hc', filter_app.
    rewrite (filter_none _ (placedOf m' eff)), (filter_all _ rest); [done| |].
    - apply Forall_forall. intros x Hx Hman.
      destruct (elemOpt_get _ _ Hks' Hman) as (k & e & Hg & He).
      assert (Hk : k ∈ eff).
      { apply Hmem. right. apply Hkeys'. by eapply get_Some_keys. }
      rewrite Hc' in Hnd'. apply NoDup_app in Hnd' as (_ & Hd & _).
      apply (Hd x); [|done]. unfold placedOf. apply list_elem_of_omap.
      exists k. split; [done|]. by rewrite Hg.
    - apply Forall_forall. intros x Hx Hn. apply Hn. by eapply placedOf_managed. }
  exists d', m', (placedOf m' eff). simpl.
  split; [done|]. split; [done|].
  split; [|split; [|split; [by rewrite Hc', <- Hrest, Hoth'|]]].
  - apply NoDup_Permutation; [done|done|]. intros k. split.
    + intros Hk. apply Hmem. right. by apply Hkeys'.
    + intros Hk. rewrite Forall_forall in Htr'. destruct (Htr' _ Hk) as [e He].
      by eapply get_Some_keys.
  - by apply placedOf_tracked.
  - split; [done|]. split.
    + intros k. rewrite Hmem. split; [|tauto]. intros [H|H]; [by apply elem_of_nil in H|done].
    + intros H. by apply Hsame.
Qed.

Lemma keyed_run_repeated_witness :
  exists d' m' els,
    reconcile singleNodes (keyed ["a"; "d"; "a"]) (fst stateABC, snd stateABC) = Some (d', m')
    /\ wfList d' m'
    /\ JsMap.keys m' ≡ₚ lastOccurrences (newKeysOf (keyed ["a"; "d"; "a"]))
    /\ Forall2 (tracked m') (lastOccurrences (newKeysOf (keyed ["a"; "d"; "a"]))) els
    /\ childNodes d' = els ++ others (fst stateABC) (snd stateABC)
    /\ NoDup (lastOccurrences (newKeysOf (keyed ["a"; "d"; "a"])))
    /\ (forall k, k ∈ lastOccurrences (newKeysOf (keyed ["a"; "d"; "a"]))
                  <-> k ∈ newKeysOf (keyed ["a"; "d"; "a"]))
    /\ (NoDup (newKeysOf (keyed ["a"; "d"; "a"])) ->
        lastOccurrences (newKeysOf (keyed ["a"; "d"; "a"]))
        = newKeysOf (keyed ["a"; "d"; "a"])).
Proof.
  apply (keyed_run_with_repeated_keys singleNodes (keyed ["a"; "d"; "a"])
           (fst stateABC) (snd stateABC)).
  - done.
  - exact stateABC_wf.
Defined.

End KeyedRepeats.

(* ===================================================================== *)
(** * Subscriptions are the tracked reads *)
(* ===================================================================== *)

Module SubscriptionFacts.
Import Reactive ReactiveSpec ReadOnlyEffects ReactiveFacts RuntimeSpec RuntimeFacts
       Scenarios ScenarioRuns ScenarioStates.
#[local] Open Scope list_scope.

Lemma keepsReads_refl st : keepsReads st st.
Proof. by intros H. Qed.

Lemma keepsReads_trans a b c : keepsReads a b -> keepsReads b c -> keepsReads a c.
Proof. intros H1 H2 H. by apply H2, H1. Qed.

Lemma keepsReads_same st st' :
  signals st' = signals st -> (exists e, log st' = log st ++ [Ran e]) \/ log st' = log st ->
  keepsReads st st'.
Proof.
  intros Hs Hl H s e. unfold subscribersOf. rewrite Hs.
  fold (subscribersOf s st). rewrite (H s e). destruct Hl as [[e' ->]| ->]; [|done].
  rewrite elem_of_app, list_elem_of_singleton. split; [by left|].
  by intros [?|?].
Qed.

Lemma keepsReads_read s st : keepsReads st (snd (read s st)).
Proof.
  intros H s' e'. rewrite read_subscribersOf. unfold read.
  destruct (signals st !! s) as [cell|] eqn:Hs.
  2:{ destruct (_currentEffect st); apply H. }
  destruct (_currentEffect st) as [e|] eqn:Hc; simpl.
  - rewrite elem_of_app, list_elem_of_singleton.
    destruct (decide (s = s')) as [<-|Hne].
    + split.
      * intros [->|Hin]%elem_of_setAdd_inv; [by right|]. left. by apply H.
      * intros [Hin|[= <-]]; [|apply elem_of_setAdd].
        apply H in Hin. unfold setAdd. case_bool_decide; [done|]. set_solver.
    + rewrite (H s' e'). split; [by left|]. intros [?|[= ? ?]]; [done|congruence].
  - rewrite elem_of_app, list_elem_of_singleton, (H s' e').
    split; [by left|]. by intros [?|?].
Qed.

Lemma keepsReads_store s x st : keepsReads st (store s x st).
Proof. intros H s' e'. rewrite subscribersOf_store, log_store. apply H. Qed.

Lemma keepsReads_add c st : keepsReads st (setEffects (effects st ++ [c]) st).
Proof. apply keepsReads_same; [done|by right]. Qed.

Lemma keepsReads_enter e st :
  is_Some (effects st !! e) -> keepsReads st (setCurrent (Some e) (record (Ran e) st)).
Proof. intros _. apply keepsReads_same; [done|left; by exists e]. Qed.

Lemma keepsReads_leave st : keepsReads st (setCurrent None st).
Proof. apply keepsReads_same; [done|by right]. Qed.

Lemma keepsReads_cleanup e st : keepsReads st (setCleanupVar e st).
Proof.
  unfold setCleanupVar. destruct (effects st !! e); [|apply keepsReads_refl].
  apply keepsReads_same; [done|by right].
Qed.

Create HintDb reads.
#[local] Hint Resolve keepsReads_refl keepsReads_trans keepsReads_read keepsReads_store
  keepsReads_add keepsReads_enter keepsReads_leave keepsReads_cleanup : reads.

Lemma keepsReads_createSignal x st : keepsReads st (snd (createSignal x st)).
Proof.
  intros H s e. rewrite <- (H s e). unfold subscribersOf, createSignal. simpl.
  destruct (decide (s < List.length (signals st))) as [Hlt|Hge].
  - by rewrite lookup_app_l.
  - rewrite lookup_app_r by lia. rewrite (lookup_ge_None_2 (signals st)) by lia.
    by destruct (s - List.length (signals st)) as [|[|?]].
Qed.

(** In every state a client reaches, the subscriber sets are the tracked
    reads of the log. *)
Lemma reachable_subscribedIffRead st : reachable st -> subscribedIffRead st.
Proof.
  induction 1 as [|x st _ IH|s st _ IH|fuel s x st st' _ IH Hw
                  |fuel fn st d st' _ IH He|fuel fn ret st d st' _ IH He
                  |fuel d st st' _ IH Hd].
  - intros s e. unfold subscribersOf. simpl. split; intros H; by apply elem_of_nil in H.
  - by apply keepsReads_createSignal.
  - by apply keepsReads_read.
  - revert IH. eapply (write_related keepsReads); eauto with reads.
  - revert IH. eapply (createEffect_related keepsReads); eauto with reads.
  - revert IH. eapply (createEffectWithCleanup_related keepsReads); eauto with reads.
  - revert IH. eapply (dispose_related keepsReads); eauto with reads.
Qed.

Lemma built_reachable st : built st -> reachable st.
Proof.
  induction 1 as [|x st _ IH|fuel fn st d st' _ IH He|fuel s x st st' _ IH Hw].
  - constructor.
  - by constructor.
  - by eapply reach_effect.
  - by eapply reach_write.
Qed.

(** C2, amended. In every state a client reaches, the dependency set of an
    effect is exactly the set of signals it has read while it was the
    tracking context, in any of its runs so far: the effect is in the
    subscriber set of a signal if and only if such a read has been made.
    Subscriptions accumulate: a read made while an effect is the tracking
    context puts the effect in the signal's subscriber set; no write, effect
    run or effect creation takes anything out of a subscriber set; so a
    notifying write to a signal runs every effect that has read it in any of
    its runs, the most recent or not. With effects that only read, the write
    returns. *)
Theorem C2_subscriptions_accumulate :
  (forall st, reachable st ->
     forall s e, e ∈ subscribersOf s st <-> ReadSignal s (Some e) ∈ log st)
  /\ (forall st, built st -> reachable st)
  /\ (forall s st e cell,
     signals st !! s = Some cell -> _currentEffect st = Some e ->
     e ∈ subscribersOf s (snd (read s st)))
  /\ (forall fuel s x st st',
        write fuel s x st = Some st' ->
        forall s' e, e ∈ subscribersOf s' st -> e ∈ subscribersOf s' st')
  /\ (forall fuel e st st',
        effect fuel e st = Some st' ->
        forall s' e', e' ∈ subscribersOf s' st -> e' ∈ subscribersOf s' st')
  /\ (forall fuel fn st d st',
        createEffect fuel fn st = Some (d, st') ->
        forall s' e, e ∈ subscribersOf s' st -> e ∈ subscribersOf s' st')
  /\ (forall fuel s x st st' cell e,
        signals st !! s = Some cell ->
        isPrimitive x && strictEq (value cell) x = false ->
        e ∈ subscribers cell ->
        write fuel s x st = Some st' ->
        Ran e ∈ newEvents st st')
  /\ (forall fuel s x st cell,
        quiet st -> subscribersValid st ->
        signals st !! s = Some cell ->
        isPrimitive x && strictEq (value cell) x = false ->
        List.length (subscribers cell) + runFuel st + 1 <= fuel ->
        exists st', write fuel s x st = Some st'
                    /\ subscribersOf s st' = subscribers cell).
Proof.
  split; [exact reachable_subscribedIffRead|]. split; [exact built_reachable|].
  split; [|split; [|split; [|split; [|split]]]].
  - intros s st e cell. apply read_tracked.
  - intros fuel s x st st' H s' e. apply extends_keeps_subscriber.
    by eapply write_extends.
  - intros fuel e st st' H s' e'. apply extends_keeps_subscriber.
    by eapply (proj1 (proj2 (run_extends fuel))).
  - intros fuel fn st d st' H s' e. apply extends_keeps_subscriber.
    by eapply createEffect_extends.
  - intros fuel s x st st' cell e Hs Hne He H.
    by eapply write_runs_subscribers.
  - intros fuel s x st cell Hq Hv Hs Hne Hfuel.
    destruct (write_quiet fuel s x st cell Hq Hv Hs Hne Hfuel) as (st' & H & _ & S).
    by exists st'.
Qed.

Lemma flagOffState_built : built flagOffState.
Proof.
  eapply (built_write 10 0 (VBool false) subscribedState).
  - eapply (built_effect 10 conditionalReader twoSignals (DisposePlaceholder 0)).
    + apply (built_signal (VNum 1)). apply (built_signal (VBool true)). constructor.
    + vm_compute; reflexivity.
  - vm_compute; reflexivity.
Qed.

Lemma C2_witness :
  write 10 1 (VNum 2) flagOffState = afterWriteA
  /\ Ran 0 ∈ newEvents flagOffState (default empty afterWriteA)
  /\ (0 ∈ subscribersOf 1 flagOffState <-> ReadSignal 1 (Some 0) ∈ log flagOffState)
  /\ 0 ∈ subscribersOf 1 flagOffState
  /\ 1 ∉ lastRunReads 0 (log flagOffState) [].
Proof.
  split; [vm_compute; reflexivity|]. split; [|split; [|split]].
  - refine (proj1 (proj2 (proj2 (proj2 (proj2 (proj2 (proj2 C2_subscriptions_accumulate))))))
              10 1 (VNum 2) flagOffState (default empty afterWriteA)
              subscribedCell 0 _ _ _ _).
    + vm_compute; reflexivity.
    + vm_compute; reflexivity.
    + vm_compute. constructor.
    + vm_compute; reflexivity.
  - apply (proj1 C2_subscriptions_accumulate flagOffState).
    apply (proj1 (proj2 C2_subscriptions_accumulate)). exact flagOffState_built.
  - vm_compute. constructor.
  - vm_compute. intros Hin. apply list_elem_of_singleton in Hin. discriminate.
Defined.

End SubscriptionFacts.
